(** * DisplayObjectContainer: a shallow embedding of the scene-graph container

    The container of display objects keeps an ordered array of children,
    back references from each child to its parent and to the stage, and
    computes bounds and render dispatch by recursion over the children.

    JavaScript objects are shared and mutable, so the embedding threads an
    explicit heap from object identities to object states through every
    method.  Numbers that the code computes with (bounds, scale, alpha, and
    the range arithmetic of [removeChildren]) are IEEE 754 doubles, modelled
    by [PrimFloat.float]; the array indices that the other methods only
    compare and pass on are integers ([Z]). *)

From Stdlib Require Import Floats ZArith Uint63.
From stdpp Require Import gmap list.

Set Warnings "-register-all".
Local Open Scope Z_scope.

(** ** Values *)

(** Object identity (a JavaScript reference). *)
Abbreviation ref := nat.

Module Point.
Record t := mk { x : float; y : float }.
End Point.

Module Rectangle.
Record t := mk { x : float; y : float; width : float; height : float }.

(** Modelled from the spec: [math.Rectangle.EMPTY], the shared empty
    rectangle of the math library (not among the sources); all four
    components are zero. *)
Definition EMPTY : t := mk 0 0 0 0.
End Rectangle.

(** A reference to a rectangle object: either the shared
    [math.Rectangle.EMPTY] or the [_bounds] rectangle owned by a display
    object.  [getBounds] returns such a reference, never a copy. *)
Inductive RectangleRef :=
| EMPTY_ref
| bounds_ref (owner : ref).

(** Modelled from the spec: a reference to a matrix object, either the
    shared [math.Matrix.IDENTITY] of the math library (not among the
    sources) or the matrix owned by a display object.  The container only
    moves these references around. *)
Inductive MatrixRef :=
| IDENTITY_ref
| matrix_ref (owner : ref).

(** Which prototype the methods [getBounds], [_renderWebGL] and
    [_renderCanvas] of an object resolve to: the ones of
    DisplayObjectContainer below, or an override in a subclass (Sprite,
    Graphics, ...) that is not part of these sources.  The stage and
    transform methods are the container's own for every object. *)
Inductive klass :=
| Container
| Subclass.

(** The fields of a display object that the container reads or writes. *)
Record DisplayObject := mkDisplayObject {
  class : klass;
  children : list ref;
  parent : option ref;
  stage : option ref;
  _interactive : bool;
  dirty : bool;
  visible : bool;
  alpha : float;
  scale : Point.t;
  _width : float;
  _height : float;
  _bounds : Rectangle.t;
  worldTransform : MatrixRef;
  _cacheAsBitmap : bool;
  _mask : option ref;
  _filters : option (list ref)
}.

(** Modelled from the spec: the state of an object right after
    [new DisplayObjectContainer()].  The base constructor [DisplayObject]
    is not among the sources; a node is created standalone, with no parent
    and no stage, and the container's constructor adds
    [this.children = []]. *)
Definition fresh (r : ref) : DisplayObject :=
  {| class := Container; children := []; parent := None; stage := None;
     _interactive := false; dirty := false; visible := true; alpha := 1;
     scale := Point.mk 1 1; _width := 0; _height := 0;
     _bounds := Rectangle.mk 0 0 1 1; worldTransform := matrix_ref r;
     _cacheAsBitmap := false; _mask := None; _filters := None |}.

(** Field assignment. *)
Definition set_children (v : list ref) (o : DisplayObject) : DisplayObject :=
  mkDisplayObject (class o) v (parent o) (stage o) (_interactive o) (dirty o)
    (visible o) (alpha o) (scale o) (_width o) (_height o) (_bounds o)
    (worldTransform o) (_cacheAsBitmap o) (_mask o) (_filters o).

Definition set_parent (v : option ref) (o : DisplayObject) : DisplayObject :=
  mkDisplayObject (class o) (children o) v (stage o) (_interactive o) (dirty o)
    (visible o) (alpha o) (scale o) (_width o) (_height o) (_bounds o)
    (worldTransform o) (_cacheAsBitmap o) (_mask o) (_filters o).

Definition set_stage (v : option ref) (o : DisplayObject) : DisplayObject :=
  mkDisplayObject (class o) (children o) (parent o) v (_interactive o) (dirty o)
    (visible o) (alpha o) (scale o) (_width o) (_height o) (_bounds o)
    (worldTransform o) (_cacheAsBitmap o) (_mask o) (_filters o).

Definition set_dirty (v : bool) (o : DisplayObject) : DisplayObject :=
  mkDisplayObject (class o) (children o) (parent o) (stage o) (_interactive o) v
    (visible o) (alpha o) (scale o) (_width o) (_height o) (_bounds o)
    (worldTransform o) (_cacheAsBitmap o) (_mask o) (_filters o).

Definition set_scale (v : Point.t) (o : DisplayObject) : DisplayObject :=
  mkDisplayObject (class o) (children o) (parent o) (stage o) (_interactive o)
    (dirty o) (visible o) (alpha o) v (_width o) (_height o) (_bounds o)
    (worldTransform o) (_cacheAsBitmap o) (_mask o) (_filters o).

Definition set_width (v : float) (o : DisplayObject) : DisplayObject :=
  mkDisplayObject (class o) (children o) (parent o) (stage o) (_interactive o)
    (dirty o) (visible o) (alpha o) (scale o) v (_height o) (_bounds o)
    (worldTransform o) (_cacheAsBitmap o) (_mask o) (_filters o).

Definition set_height (v : float) (o : DisplayObject) : DisplayObject :=
  mkDisplayObject (class o) (children o) (parent o) (stage o) (_interactive o)
    (dirty o) (visible o) (alpha o) (scale o) (_width o) v (_bounds o)
    (worldTransform o) (_cacheAsBitmap o) (_mask o) (_filters o).

Definition set_bounds (v : Rectangle.t) (o : DisplayObject) : DisplayObject :=
  mkDisplayObject (class o) (children o) (parent o) (stage o) (_interactive o)
    (dirty o) (visible o) (alpha o) (scale o) (_width o) (_height o) v
    (worldTransform o) (_cacheAsBitmap o) (_mask o) (_filters o).

Definition set_worldTransform (v : MatrixRef) (o : DisplayObject) : DisplayObject :=
  mkDisplayObject (class o) (children o) (parent o) (stage o) (_interactive o)
    (dirty o) (visible o) (alpha o) (scale o) (_width o) (_height o) (_bounds o)
    v (_cacheAsBitmap o) (_mask o) (_filters o).

(** ** The heap *)

Abbreviation heap := (gmap ref DisplayObject).

(** Reading an object; an identity that was never written denotes a freshly
    constructed container. *)
Definition obj (h : heap) (r : ref) : DisplayObject :=
  default (fresh r) (h !! r).

(** In-place update of one object. *)
Definition upd (r : ref) (f : DisplayObject → DisplayObject) (h : heap) : heap :=
  <[r := f (obj h r)]> h.

(** Dereferencing a rectangle reference. *)
Definition rect (h : heap) (b : RectangleRef) : Rectangle.t :=
  match b with
  | EMPTY_ref => Rectangle.EMPTY
  | bounds_ref r => _bounds (obj h r)
  end.

(** ** Exceptions and the method monad *)

Inductive exn :=
| Error_addChildAt (child : ref) (index : Z) (length : nat)
| Error_swapChildren
| Error_getChildIndex
| Error_setChildIndex
| Error_getChildAt (index : Z)
| RangeError_removeChildren
| TypeError.

(** The outcome of a method call: a value and the heap it leaves, an
    exception and the heap at the point of the throw (writes made before
    the throw stay), or exhaustion of the recursion budget (the model of
    unbounded recursion). *)
Inductive result (A : Type) :=
| Ok (a : A) (h : heap)
| Throw (e : exn) (h : heap)
| OutOfFuel.
Arguments Ok {A} a h.
Arguments Throw {A} e h.
Arguments OutOfFuel {A}.

Definition M (A : Type) : Type := heap → result A.

Definition ret {A} (a : A) : M A := fun h => Ok a h.

Definition bind {A B} (m : M A) (k : A → M B) : M B :=
  fun h =>
    match m h with
    | Ok a h' => k a h'
    | Throw e h' => Throw e h'
    | OutOfFuel => OutOfFuel
    end.

Notation "'let*' x ':=' m 'in' k" := (bind m (fun x => k))
  (at level 10, x pattern, m at level 100, k at level 200).

Definition throw {A} (e : exn) : M A := fun h => Throw e h.
Definition out_of_fuel {A} : M A := fun _ => OutOfFuel.
Definition get (r : ref) : M DisplayObject := fun h => Ok (obj h r) h.
Definition modify (r : ref) (f : DisplayObject → DisplayObject) : M unit :=
  fun h => Ok tt (upd r f h).

(** [for (var i = i0, j = ...; i < j; ++i) body], with [n = j - i0]
    iterations left and the loop-carried variables in [acc]. *)
Fixpoint for_loop {St} (n : nat) (i : nat) (body : nat → St → M St) (acc : St)
  : M St :=
  match n with
  | O => ret acc
  | S n' => let* acc' := body i acc in for_loop n' (S i) body acc'
  end.

(** [for (var i = 0; i < l.length; ++i) body(l[i])] over an array [l] that
    nobody else holds. *)
Fixpoint for_each {A} (l : list A) (body : A → M unit) : M unit :=
  match l with
  | [] => ret tt
  | a :: l' => let* _ := body a in for_each l' body
  end.

(** [this.children[i]] used as the receiver of a method call or a property
    read: an index past the end yields [undefined], and the call or read
    raises a TypeError. *)
Definition child_at (this : ref) (i : nat) : M ref :=
  fun h =>
    match children (obj h this) !! i with
    | Some c => Ok c h
    | None => Throw TypeError h
    end.

(** ** Arrays *)

(** [Array.prototype.indexOf] (strict equality on object identities). *)
Fixpoint indexOf (l : list ref) (x : ref) : Z :=
  match l with
  | [] => -1
  | y :: l' =>
      if decide (y = x) then 0
      else let i := indexOf l' x in if i =? -1 then -1 else i + 1
  end.

(** [Array.prototype.splice(start, deleteCount, ...items)]: the start is
    taken from the end when negative and clamped to the array, the count is
    clamped to what is left.  Returns the removed elements and the array
    after the call. *)
Definition splice_start (len : nat) (start : Z) : nat :=
  if start <? 0 then Z.to_nat (Z.max (Z.of_nat len + start) 0)
  else Z.to_nat (Z.min start (Z.of_nat len)).

Definition splice_count (len s : nat) (count : Z) : nat :=
  Z.to_nat (Z.min (Z.max count 0) (Z.of_nat len - Z.of_nat s)).

Definition splice {A} (l : list A) (start count : Z) (items : list A)
  : list A * list A :=
  let s := splice_start (length l) start in
  let d := splice_count (length l) s count in
  (take d (drop s l), take s l ++ items ++ drop (s + d) l).

(** ** Numbers as array positions *)

(** The value of the abstract operation [ToIntegerOrInfinity]. *)
Inductive integer_or_infinity :=
| minus_infinity
| integer (z : Z)
| plus_infinity.

(** [ToIntegerOrInfinity] of a double: NaN and the zeros give 0, an
    infinity gives itself and any other number is truncated toward zero. *)
Definition ToIntegerOrInfinity (v : float) : integer_or_infinity :=
  match Prim2SF v with
  | S754_nan | S754_zero _ => integer 0
  | S754_infinity s => if s then minus_infinity else plus_infinity
  | S754_finite s m e =>
      let a := if 0 <=? e then Z.pos m * 2 ^ e else Z.pos m / 2 ^ (- e) in
      integer (if s then - a else a)
  end.

(** The [length] of an array as a number; the length of an array is below
    [2^32]. *)
Definition length_number {A} (l : list A) : float :=
  of_uint63 (Uint63.of_Z (Z.of_nat (length l))).

(** [splice(start, deleteCount)] called with numbers: each goes through
    [ToIntegerOrInfinity] and is then clamped as in [splice]. *)
Definition splice_start_number (len : nat) (start : float) : nat :=
  match ToIntegerOrInfinity start with
  | minus_infinity => 0%nat
  | integer z => splice_start len z
  | plus_infinity => len
  end.

Definition splice_count_number (len s : nat) (count : float) : nat :=
  match ToIntegerOrInfinity count with
  | minus_infinity => 0%nat
  | integer z => splice_count len s z
  | plus_infinity => (len - s)%nat
  end.

Definition splice_numbers {A} (l : list A) (start count : float) (items : list A)
  : list A * list A :=
  let s := splice_start_number (length l) start in
  let d := splice_count_number (length l) s count in
  (take d (drop s l), take s l ++ items ++ drop (s + d) l).

(** [v || 0] for an argument that is a number or missing: the numbers that
    count as false are the two zeros and NaN. *)
Definition or_zero (v : option float) : float :=
  match v with
  | Some b => if (b =? 0)%float || negb (b =? b)%float then 0%float else b
  | None => 0%float
  end.

(** ** Stage references *)

(** [this.stage.dirty = true]; a TypeError when [this.stage] is null. *)
Definition mark_stage_dirty (this : ref) : M unit :=
  let* o := get this in
  match stage o with
  | Some s => modify s (set_dirty true)
  | None => throw TypeError
  end.

(** [DisplayObjectContainer.prototype.setStageReference] *)
Fixpoint setStageReference (fuel : nat) (this : ref) (s : option ref) : M unit :=
  match fuel with
  | O => out_of_fuel
  | S fuel' =>
      let* _ := modify this (set_stage s) in
      let* o := get this in
      let* _ := if _interactive o then mark_stage_dirty this else ret tt in
      let* o := get this in
      for_loop (length (children o)) 0
        (fun i _ =>
           let* c := child_at this i in
           setStageReference fuel' c s) tt
  end.

(** [DisplayObjectContainer.prototype.removeStageReference] *)
Fixpoint removeStageReference (fuel : nat) (this : ref) : M unit :=
  match fuel with
  | O => out_of_fuel
  | S fuel' =>
      let* o := get this in
      let* _ := for_loop (length (children o)) 0
                  (fun i _ =>
                     let* c := child_at this i in
                     removeStageReference fuel' c) tt in
      let* o := get this in
      let* _ := if _interactive o then mark_stage_dirty this else ret tt in
      modify this (set_stage None)
  end.

(** ** Mutation of the child list *)

(** [DisplayObjectContainer.prototype.getChildAt]; the value is
    [this.children[index]], which JavaScript defines as [undefined] ([None])
    outside the array. *)
Definition getChildAt (this : ref) (index : Z) : M (option ref) :=
  let* o := get this in
  if (index <? 0) || (index >=? Z.of_nat (length (children o)))
  then throw (Error_getChildAt index)
  else ret (children o !! Z.to_nat index).

(** [DisplayObjectContainer.prototype.removeChildAt]; on an [undefined]
    child the first use of it ([child.removeStageReference()] or
    [child.parent = null]) raises a TypeError before any write. *)
Definition removeChildAt (fuel : nat) (this : ref) (index : Z) : M ref :=
  let* child := getChildAt this index in
  match child with
  | None => throw TypeError
  | Some c =>
      let* o := get this in
      let* _ := match stage o with
                | Some _ => removeStageReference fuel c
                | None => ret tt
                end in
      let* _ := modify c (set_parent None) in
      let* _ := modify this
                  (fun o => set_children (splice (children o) index 1 []).2 o) in
      ret c
  end.

(** [DisplayObjectContainer.prototype.removeChild]; [None] is the
    [undefined] of the bare [return]. *)
Definition removeChild (fuel : nat) (this child : ref) : M (option ref) :=
  let* o := get this in
  let index := indexOf (children o) child in
  if index =? -1 then ret None
  else let* c := removeChildAt fuel this index in ret (Some c).

(** [DisplayObjectContainer.prototype.addChildAt] *)
Definition addChildAt (fuel : nat) (this child : ref) (index : Z) : M ref :=
  let* o := get this in
  if (index >=? 0) && (index <=? Z.of_nat (length (children o))) then
    let* c := get child in
    let* _ := match parent c with
              | Some p => let* _ := removeChild fuel p child in ret tt
              | None => ret tt
              end in
    let* _ := modify child (set_parent (Some this)) in
    let* _ := modify this
                (fun o => set_children (splice (children o) index 0 [child]).2 o) in
    let* o := get this in
    let* _ := match stage o with
              | Some s => setStageReference fuel child (Some s)
              | None => ret tt
              end in
    ret child
  else throw (Error_addChildAt child index (length (children o))).

(** [DisplayObjectContainer.prototype.addChild] *)
Definition addChild (fuel : nat) (this child : ref) : M ref :=
  let* o := get this in
  addChildAt fuel this child (Z.of_nat (length (children o))).

(** [DisplayObjectContainer.prototype.getChildIndex] *)
Definition getChildIndex (this child : ref) : M Z :=
  let* o := get this in
  let index := indexOf (children o) child in
  if index =? -1 then throw Error_getChildIndex else ret index.

(** [DisplayObjectContainer.prototype.swapChildren]; both indices come from
    [getChildIndex], so the two element assignments are inside the array. *)
Definition swapChildren (this child child2 : ref) : M unit :=
  if decide (child = child2) then ret tt
  else
    let* index1 := getChildIndex this child in
    let* index2 := getChildIndex this child2 in
    if (index1 <? 0) || (index2 <? 0) then throw Error_swapChildren
    else
      let* _ := modify this
                  (fun o => set_children (<[Z.to_nat index1 := child2]> (children o)) o) in
      modify this
        (fun o => set_children (<[Z.to_nat index2 := child]> (children o)) o).

(** [DisplayObjectContainer.prototype.setChildIndex] *)
Definition setChildIndex (this child : ref) (index : Z) : M unit :=
  let* o := get this in
  if (index <? 0) || (index >=? Z.of_nat (length (children o)))
  then throw Error_setChildIndex
  else
    let* currentIndex := getChildIndex this child in
    let* _ := modify this
                (fun o => set_children (splice (children o) currentIndex 1 []).2 o) in
    modify this
      (fun o => set_children (splice (children o) index 0 [child]).2 o).

(** [DisplayObjectContainer.prototype.removeChildren]; the arguments are
    numbers, and one that is not passed is [None].  The subtraction and
    the comparisons are those of doubles; [typeof endIndex === 'number']
    holds of every number, NaN included. *)
Definition removeChildren (fuel : nat) (this : ref) (beginIndex endIndex : option float)
  : M (list ref) :=
  let* o := get this in
  let begin := or_zero beginIndex in
  let end_ := default (length_number (children o)) endIndex in
  let range := (end_ - begin)%float in
  if (0 <? range)%float && (range <=? end_)%float then
    let removed := (splice_numbers (children o) begin range []).1 in
    let* _ := modify this
                (fun o => set_children (splice_numbers (children o) begin range []).2 o) in
    let* _ := for_each removed
                (fun child =>
                   let* o := get this in
                   let* _ := match stage o with
                             | Some _ => removeStageReference fuel child
                             | None => ret tt
                             end in
                   modify child (set_parent None)) in
    ret removed
  else if (range =? 0)%float && (length (children o) =? 0)%nat then ret []
  else throw RangeError_removeChildren.

(** ** Bounds *)

(** The loop-carried variables of [getBounds]. *)
Record bounds_acc := mkAcc {
  minX : float; minY : float; maxX : float; maxY : float;
  childVisible : bool
}.

Definition bounds_init : bounds_acc :=
  mkAcc infinity infinity neg_infinity neg_infinity false.

(** One visible child folded into the running extrema:
    [a < b ? a : b] and [a > b ? a : b] on doubles. *)
Definition bounds_step (acc : bounds_acc) (childBounds : Rectangle.t) : bounds_acc :=
  let minX' := if (minX acc <? Rectangle.x childBounds)%float
               then minX acc else Rectangle.x childBounds in
  let minY' := if (minY acc <? Rectangle.y childBounds)%float
               then minY acc else Rectangle.y childBounds in
  let childMaxX := (Rectangle.width childBounds + Rectangle.x childBounds)%float in
  let childMaxY := (Rectangle.height childBounds + Rectangle.y childBounds)%float in
  let maxX' := if (childMaxX <? maxX acc)%float then maxX acc else childMaxX in
  let maxY' := if (childMaxY <? maxY acc)%float then maxY acc else childMaxY in
  mkAcc minX' minY' maxX' maxY' true.

(** Reading the rectangle behind a reference. *)
Definition deref (b : RectangleRef) : M Rectangle.t :=
  fun h => Ok (rect h b) h.

(** [DisplayObjectContainer.prototype.getBounds].  The call
    [this.children[i].getBounds()] is dispatched on the child's class; the
    override of a subclass is not in the sources and is taken to report the
    child's own [_bounds] rectangle as it stands.  The four assignments to
    the components of [this._bounds] are one update of the rectangle. *)
Fixpoint getBounds (fuel : nat) (this : ref) : M RectangleRef :=
  match fuel with
  | O => out_of_fuel
  | S fuel' =>
      let* o := get this in
      if Z.of_nat (length (children o)) =? 0 then ret EMPTY_ref
      else
        let* acc :=
          for_loop (length (children o)) 0
            (fun i acc =>
               let* child := child_at this i in
               let* c := get child in
               if negb (visible c) then ret acc
               else
                 let* child' := child_at this i in
                 let* c' := get child' in
                 let* childBounds :=
                   match class c' with
                   | Container => getBounds fuel' child'
                   | Subclass => ret (bounds_ref child')
                   end in
                 let* b := deref childBounds in
                 ret (bounds_step acc b))
            bounds_init in
        if negb (childVisible acc) then ret EMPTY_ref
        else
          let* _ := modify this
                      (set_bounds
                         (Rectangle.mk (minX acc) (minY acc)
                            (maxX acc - minX acc) (maxY acc - minY acc))) in
          ret (bounds_ref this)
  end.

(** ** Transform propagation and local bounds *)

Section Transform.

(** The update of a single node's world transform,
    [DisplayObject.prototype.updateTransform], which the container reaches
    under the name [displayObjectUpdateTransform].  The base class is not
    among the sources, so its effect on the heap is a parameter. *)
Variable displayObjectUpdateTransform : ref → M unit.

(** [DisplayObjectContainer.prototype.updateTransform] *)
Fixpoint updateTransform (fuel : nat) (this : ref) : M unit :=
  match fuel with
  | O => out_of_fuel
  | S fuel' =>
      let* o := get this in
      if negb (visible o) then ret tt
      else
        let* _ := displayObjectUpdateTransform this in
        let* o := get this in
        if _cacheAsBitmap o then ret tt
        else
          for_loop (length (children o)) 0
            (fun i _ =>
               let* c := child_at this i in
               updateTransform fuel' c) tt
  end.

(** [DisplayObjectContainer.prototype.getLocalBounds] *)
Definition getLocalBounds (fuel : nat) (this : ref) : M RectangleRef :=
  let* o := get this in
  let matrixCache := worldTransform o in
  let* _ := modify this (set_worldTransform IDENTITY_ref) in
  let* o := get this in
  let* _ := for_loop (length (children o)) 0
              (fun i _ =>
                 let* c := child_at this i in
                 updateTransform fuel c) tt in
  let* _ := modify this (set_worldTransform matrixCache) in
  getBounds fuel this.

(** Reading a component of the rectangle behind a reference. *)
Definition read_rect (f : Rectangle.t → float) (b : RectangleRef) : M float :=
  let* r := deref b in ret (f r).

(** The getter of the [width] property. *)
Definition width_get (fuel : nat) (this : ref) : M float :=
  let* o := get this in
  let* b := getLocalBounds fuel this in
  let* w := read_rect Rectangle.width b in
  ret (Point.x (scale o) * w)%float.

(** The setter of the [width] property; [width !== 0] is the negation of
    IEEE equality with zero. *)
Definition width_set (fuel : nat) (this : ref) (value : float) : M unit :=
  let* b := getLocalBounds fuel this in
  let* width := read_rect Rectangle.width b in
  let* _ :=
    if negb (width =? 0)%float
    then modify this
           (fun o => set_scale (Point.mk (value / width)%float (Point.y (scale o))) o)
    else modify this
           (fun o => set_scale (Point.mk 1%float (Point.y (scale o))) o) in
  modify this (set_width value).

(** The getter of the [height] property. *)
Definition height_get (fuel : nat) (this : ref) : M float :=
  let* o := get this in
  let* b := getLocalBounds fuel this in
  let* hgt := read_rect Rectangle.height b in
  ret (Point.y (scale o) * hgt)%float.

(** The setter of the [height] property. *)
Definition height_set (fuel : nat) (this : ref) (value : float) : M unit :=
  let* b := getLocalBounds fuel this in
  let* height := read_rect Rectangle.height b in
  let* _ :=
    if negb (height =? 0)%float
    then modify this
           (fun o => set_scale (Point.mk (Point.x (scale o)) (value / height)%float) o)
    else modify this
           (fun o => set_scale (Point.mk (Point.x (scale o)) 1%float) o) in
  modify this (set_height value).

End Transform.

(** ** Render dispatch *)

(** The calls a render pass makes on the render session and on code outside
    these sources, in the order made.  [filterManager_pushFilter] carries
    the owner of the [_filterBlock] pushed, the mask calls carry the mask
    passed ([this.mask] reads [_mask]), [renderCachedSprite] stands for
    [this._renderCachedSprite(renderSession)], and the last two for the
    render methods of a subclass. *)
Inductive call :=
| spriteBatch_flush
| spriteBatch_stop
| spriteBatch_start
| filterManager_pushFilter (owner : ref)
| filterManager_popFilter
| maskManager_pushMask (mask : option ref)
| maskManager_popMask (mask : option ref)
| maskManager_popMask_session
| renderCachedSprite (this : ref)
| subclass_renderWebGL (this : ref)
| subclass_renderCanvas (this : ref).

Definition truthy {A} (v : option A) : bool :=
  match v with Some _ => true | None => false end.

(** [DisplayObjectContainer.prototype._renderWebGL]; the value is the list
    of calls made. *)
Fixpoint _renderWebGL (fuel : nat) (this : ref) : M (list call) :=
  match fuel with
  | O => out_of_fuel
  | S fuel' =>
      let* o := get this in
      if negb (visible o) || (alpha o <=? 0)%float then ret []
      else if _cacheAsBitmap o then ret [renderCachedSprite this]
      else
        let render_children :=
          for_loop (length (children o)) 0
            (fun i calls =>
               let* c := child_at this i in
               let* co := get c in
               let* cs := match class co with
                          | Container => _renderWebGL fuel' c
                          | Subclass => ret [subclass_renderWebGL c]
                          end in
               ret (calls ++ cs)) [] in
        if truthy (_mask o) || truthy (_filters o) then
          let pushF := if truthy (_filters o)
                       then [spriteBatch_flush; filterManager_pushFilter this]
                       else [] in
          let pushM := if truthy (_mask o)
                       then [spriteBatch_stop; maskManager_pushMask (_mask o);
                             spriteBatch_start]
                       else [] in
          let* cs := render_children in
          let* o := get this in
          let popM := if truthy (_mask o) then [maskManager_popMask (_mask o)]
                      else [] in
          let popF := if truthy (_filters o) then [filterManager_popFilter]
                      else [] in
          ret (pushF ++ pushM ++ cs ++ [spriteBatch_stop] ++ popM ++ popF
                 ++ [spriteBatch_start])
        else render_children
  end.

(** [DisplayObjectContainer.prototype._renderCanvas] *)
Fixpoint _renderCanvas (fuel : nat) (this : ref) : M (list call) :=
  match fuel with
  | O => out_of_fuel
  | S fuel' =>
      let* o := get this in
      if negb (visible o) || (alpha o =? 0)%float then ret []
      else if _cacheAsBitmap o then ret [renderCachedSprite this]
      else
        let pushM := if truthy (_mask o) then [maskManager_pushMask (_mask o)]
                     else [] in
        let* cs :=
          for_loop (length (children o)) 0
            (fun i calls =>
               let* c := child_at this i in
               let* co := get c in
               let* cs := match class co with
                          | Container => _renderCanvas fuel' c
                          | Subclass => ret [subclass_renderCanvas c]
                          end in
               ret (calls ++ cs)) [] in
        let* o := get this in
        let popM := if truthy (_mask o) then [maskManager_popMask_session]
                    else [] in
        ret (pushM ++ cs ++ popM)
  end.

(** * Vocabulary of the statements *)

(** [post m h Q]: whenever [m] started in [h] comes back, normally or by an
    exception, the heap it leaves satisfies [Q]. *)
Definition post {A} (m : M A) (h : heap) (Q : heap → Prop) : Prop :=
  match m h with
  | Ok _ h' | Throw _ h' => Q h'
  | OutOfFuel => True
  end.

(** [preserves R m]: [m] relates every initial heap to the heap it leaves. *)
Definition preserves {A} (R : heap → heap → Prop) (m : M A) : Prop :=
  ∀ h, post m h (R h).

(** An object with its [stage] and [dirty] fields blanked. *)
Definition forget_stage (o : DisplayObject) : DisplayObject :=
  set_dirty false (set_stage None o).

(** Two heaps that differ at most in [stage] and [dirty] fields. *)
Definition stage_frame (h h' : heap) : Prop :=
  ∀ r, forget_stage (obj h' r) = forget_stage (obj h r).

(** The child lists of a heap. *)
Definition kids (h : heap) (r : ref) : list ref := children (obj h r).

(** A finite unfolding of the scene graph below a node. *)
Inductive tree := Node (r : ref) (ts : list tree).

Definition root (t : tree) : ref := match t with Node r _ => r end.

Fixpoint nodes (t : tree) : list ref :=
  match t with Node r ts => r :: (ts ≫= nodes) end.

Fixpoint depth (t : tree) : nat :=
  match t with Node _ ts => S (max_list (depth <$> ts)) end.

(** [shape ch t]: the child lists [ch] spell out exactly the tree [t]. *)
Inductive shape (ch : ref → list ref) : tree → Prop :=
| shape_node r ts :
    ch r = root <$> ts → Forall (shape ch) ts → shape ch (Node r ts).

(** Every interactive node of the tree holds a stage reference. *)
Definition attached_interactive (h : heap) (xs : list ref) : Prop :=
  ∀ x, x ∈ xs → _interactive (obj h x) = true → is_Some (stage (obj h x)).

(** [removeStageReference] on a tree whose interactive nodes are attached
    comes back normally once the fuel covers the depth, with the stage
    reference cleared on the nodes of the tree and on no other object. *)
Definition detaches (t : tree) : Prop :=
  ∀ fuel h,
    shape (kids h) t → NoDup (nodes t) → attached_interactive h (nodes t) →
    (depth t ≤ fuel)%nat →
    ∃ h', removeStageReference fuel (root t) h = Ok tt h'
          ∧ (∀ x, x ∉ nodes t → stage (obj h' x) = stage (obj h x))
          ∧ (∀ x, x ∈ nodes t → stage (obj h' x) = None).

(** [setStageReference] with a stage comes back normally on every finite
    tree once the fuel covers its depth. *)
Definition attaches (s : ref) (t : tree) : Prop :=
  ∀ fuel h,
    shape (kids h) t → (depth t ≤ fuel)%nat →
    ∃ h', setStageReference fuel (root t) (Some s) h = Ok tt h'.

(** A container [1] holding the children [2] and [3], detached from any
    stage. *)
Definition two_children : heap :=
  <[1%nat := set_children [2%nat; 3%nat] (fresh 1)]>
    (<[2%nat := set_parent (Some 1%nat) (fresh 2)]>
       (<[3%nat := set_parent (Some 1%nat) (fresh 3)]> ∅)).

(** The container [1] with its two children made invisible. *)
Definition two_invisible : heap :=
  <[2%nat := mkDisplayObject Subclass [] (Some 1%nat) None false false false 1
               (Point.mk 1 1) 0 0 (Rectangle.mk 0 0 10 10) (matrix_ref 2)
               false None None]>
    (<[3%nat := mkDisplayObject Subclass [] (Some 1%nat) None false false false 1
                  (Point.mk 1 1) 0 0 (Rectangle.mk 20 20 5 5) (matrix_ref 3)
                  false None None]> two_children).

(** The container [1] with two visible leaves whose bounds are
    [(0,0,10,10)] and [(20,20,5,5)]. *)
Definition two_visible : heap :=
  <[2%nat := mkDisplayObject Subclass [] (Some 1%nat) None false false true 1
               (Point.mk 1 1) 0 0 (Rectangle.mk 0 0 10 10) (matrix_ref 2)
               false None None]>
    (<[3%nat := mkDisplayObject Subclass [] (Some 1%nat) None false false true 1
                  (Point.mk 1 1) 0 0 (Rectangle.mk 20 20 5 5) (matrix_ref 3)
                  false None None]> two_children).

(** A base-class transform step that touches nothing the container reads. *)
Definition no_transform (r : ref) : M unit := ret tt.

(** The container [1] of [two_visible] with a negative alpha. *)
Definition negative_alpha : heap :=
  upd 1%nat
    (fun o =>
       mkDisplayObject (class o) (children o) (parent o) (stage o) (_interactive o)
         (dirty o) (visible o) (-0.5)%float (scale o) (_width o) (_height o)
         (_bounds o) (worldTransform o) (_cacheAsBitmap o) (_mask o) (_filters o))
    two_visible.

(** The two writes that end [removeChildAt]: the parent link of the child
    is cleared, then the child is spliced out of the list. *)
Definition unlink (this c : ref) (i : nat) (h : heap) : heap :=
  upd this (fun o => set_children (delete i (children o)) o)
    (upd c (set_parent None) h).

(** The two writes in the middle of [addChildAt]: the parent link is set,
    then the child is spliced into the list. *)
Definition link (this c : ref) (i : nat) (h : heap) : heap :=
  upd this (fun o => set_children (take i (children o) ++ c :: drop i (children o)) o)
    (upd c (set_parent (Some this)) h).

(** The stage step of the removal operations: the subtree is detached from
    the stage only when the container holds a stage reference. *)
Definition detach_if_staged (fuel : nat) (this c : ref) : M unit :=
  fun h =>
    match stage (obj h this) with
    | Some _ => removeStageReference fuel c h
    | None => Ok tt h
    end.


(** The first half of [addChildAt]: the child leaves its previous parent. *)
Definition leave_parent (fuel : nat) (child : ref) : M unit :=
  let* c := get child in
  match parent c with
  | Some p => let* _ := removeChild fuel p child in ret tt
  | None => ret tt
  end.

(** The second half: link, then propagate the stage of the container. *)
Definition enter_parent (fuel : nat) (this child : ref) (i : nat) : M ref :=
  fun h =>
    let h2 := link this child i h in
    match stage (obj h2 this) with
    | Some s =>
        match setStageReference fuel child (Some s) h2 with
        | Ok _ h3 => Ok child h3
        | Throw e h3 => Throw e h3
        | OutOfFuel => OutOfFuel
        end
    | None => Ok child h2
    end.

(** The body of the loop of [removeChildren] for one removed child. *)
Definition orphan (fuel : nat) (this child : ref) : M unit :=
  let* o := get this in
  let* _ := match stage o with
            | Some _ => removeStageReference fuel child
            | None => ret tt
            end in
  modify child (set_parent None).




(** A stage reference that is null stays null. *)
Definition keeps_unstaged (h h' : heap) : Prop :=
  ∀ x, stage (obj h x) = None → stage (obj h' x) = None.



(** The container [1], attached to the stage [9], with one interactive
    child [2] attached to the same stage. *)
Definition attached_pair : heap :=
  <[1%nat := set_stage (Some 9%nat) (set_children [2%nat] (fresh 1))]>
    (<[2%nat := mkDisplayObject Container [] (Some 1%nat) (Some 9%nat) true false true 1
                  (Point.mk 1 1) 0 0 (Rectangle.mk 0 0 1 1) (matrix_ref 2)
                  false None None]> ∅).


(** A double that is a number. *)
Definition not_nan (v : float) : Prop := (v =? v)%float = true.

(** The place of a double in the order of [<]: sign class, then exponent,
    then mantissa (both negated below zero). *)
Definition sf_key (f : spec_float) : Z * Z * Z :=
  match f with
  | S754_zero _ => (0, 0, 0)
  | S754_infinity true => (-2, 0, 0)
  | S754_infinity false => (2, 0, 0)
  | S754_nan => (0, 0, 0)
  | S754_finite true m e => (-1, - e, - Z.pos m)
  | S754_finite false m e => (1, e, Z.pos m)
  end.

Definition key_lt (a b : Z * Z * Z) : Prop :=
  let '(a1, a2, a3) := a in
  let '(b1, b2, b3) := b in
  a1 < b1 ∨ (a1 = b1 ∧ (a2 < b2 ∨ (a2 = b2 ∧ a3 < b3))).

Definition key (v : float) : Z * Z * Z := sf_key (Prim2SF v).

(** [a < b ? a : b] and [a > b ? a : b]. *)
Definition js_min (a b : float) : float := if (a <? b)%float then a else b.
Definition js_max (a b : float) : float := if (b <? a)%float then a else b.

(** A least and a greatest element of a list of doubles. *)
Definition is_min (m : float) (vs : list float) : Prop :=
  m ∈ vs ∧ ∀ v, v ∈ vs → (m <=? v)%float = true.
Definition is_max (m : float) (vs : list float) : Prop :=
  m ∈ vs ∧ ∀ v, v ∈ vs → (v <=? m)%float = true.

(** Two heaps that differ at most in [_bounds] rectangles. *)
Definition bounds_frame (h h' : heap) : Prop :=
  ∀ r, set_bounds Rectangle.EMPTY (obj h' r) = set_bounds Rectangle.EMPTY (obj h r).

(** The call [child.getBounds()], dispatched on the class of the child. *)
Definition child_getBounds (fuel : nat) (c : ref) : M RectangleRef :=
  let* co := get c in
  match class co with
  | Container => getBounds fuel c
  | Subclass => ret (bounds_ref c)
  end.

(** The rectangles that the visible children of a list report, each read
    right after the child's own [getBounds] call, in list order. *)
Fixpoint child_bounds (fuel : nat) (cs : list ref) : M (list Rectangle.t) :=
  match cs with
  | [] => ret []
  | c :: cs' =>
      let* co := get c in
      if visible co then
        let* b := child_getBounds fuel c in
        let* r := deref b in
        let* rs := child_bounds fuel cs' in
        ret (r :: rs)
      else child_bounds fuel cs'
  end.

(** The loop body of [getBounds]. *)
Definition bounds_body (fuel : nat) (this : ref) (i : nat) (acc : bounds_acc)
  : M bounds_acc :=
  let* child := child_at this i in
  let* c := get child in
  if negb (visible c) then ret acc
  else
    let* child' := child_at this i in
    let* c' := get child' in
    let* childBounds :=
      match class c' with
      | Container => getBounds fuel child'
      | Subclass => ret (bounds_ref child')
      end in
    let* b := deref childBounds in
    ret (bounds_step acc b).

(** [getBounds] comes back normally on a finite tree. *)
Definition measures (t : tree) : Prop :=
  ∀ fuel h,
    shape (kids h) t → (depth t ≤ fuel)%nat →
    ∃ b h', getBounds fuel (root t) h = Ok b h'.

(** What lets the removal operations detach the subtree below [c] from the
    stage: the container holds no stage reference (nothing is detached), or
    [c] heads a finite tree without repeated nodes whose interactive nodes
    hold a stage reference, within the fuel. *)
Definition detachable (fuel : nat) (h : heap) (this c : ref) : Prop :=
  stage (obj h this) = None
  ∨ ∃ t, root t = c ∧ shape (kids h) t ∧ NoDup (nodes t)
         ∧ attached_interactive h (nodes t) ∧ (depth t ≤ fuel)%nat.

(** A dirty flag that is up stays up. *)
Definition dirty_grows (h h' : heap) : Prop :=
  ∀ x, dirty (obj h x) = true → dirty (obj h' x) = true.

(** [setStageReference] with the stage [s] on a finite tree: it comes back
    normally within the fuel, every node of the tree then refers to [s] and
    no other stage reference has changed; [s] is marked dirty when the tree
    has an interactive node, and no dirty flag changes when it has none. *)
Definition attaches_fully (s : ref) (t : tree) : Prop :=
  ∀ fuel h,
    shape (kids h) t → (depth t ≤ fuel)%nat →
    ∃ h', setStageReference fuel (root t) (Some s) h = Ok tt h'
          ∧ (∀ x, x ∈ nodes t → stage (obj h' x) = Some s)
          ∧ (∀ x, x ∉ nodes t → stage (obj h' x) = stage (obj h x))
          ∧ ((∃ x, x ∈ nodes t ∧ _interactive (obj h x) = true) →
             dirty (obj h' s) = true)
          ∧ ((∀ x, x ∈ nodes t → _interactive (obj h x) = false) →
             ∀ y, dirty (obj h' y) = dirty (obj h y)).

(** The empty container [1], attached to the stage [9], beside a detached
    interactive leaf [2]. *)
Definition staged_and_loose : heap :=
  <[1%nat := set_stage (Some 9%nat) (fresh 1)]>
    (<[2%nat := mkDisplayObject Container [] None None true false true 1
                  (Point.mk 1 1) 0 0 (Rectangle.mk 0 0 1 1) (matrix_ref 2)
                  false None None]> ∅).

(** [removeStageReference] on a tree marks dirty the stage of each of its
    interactive nodes. *)
Definition marks_dirty (t : tree) : Prop :=
  ∀ fuel h h',
    shape (kids h) t → NoDup (nodes t) → attached_interactive h (nodes t) →
    (depth t ≤ fuel)%nat →
    removeStageReference fuel (root t) h = Ok tt h' →
    ∀ x s, x ∈ nodes t → _interactive (obj h x) = true →
           stage (obj h x) = Some s → dirty (obj h' s) = true.

(** Two heaps that differ at most in [worldTransform] fields. *)
Definition transform_frame (h h' : heap) : Prop :=
  ∀ r, set_worldTransform IDENTITY_ref (obj h' r)
       = set_worldTransform IDENTITY_ref (obj h r).

(** The world transform of one object is left as it was. *)
Definition keeps_transform (this : ref) (h h' : heap) : Prop :=
  worldTransform (obj h' this) = worldTransform (obj h this).

(** The nodes of a tree that a transform update started at its root
    reaches, in the order reached: a node before its children, the
    children in list order, nothing at or below an invisible node and
    nothing below a node cached as a bitmap. *)
Fixpoint active (h : heap) (t : tree) : list ref :=
  match t with
  | Node r ts =>
      if visible (obj h r)
      then r :: (if _cacheAsBitmap (obj h r) then [] else ts ≫= active h)
      else []
  end.

(** A base-class transform step that writes the world transform of its
    receiver and nothing else. *)
Definition own_transform (r : ref) : M unit :=
  modify r (set_worldTransform (matrix_ref r)).

(** A base-class transform step that fails on the object [3], as the one of
    the sources does on an object without parent. *)
Definition failing_transform (r : ref) : M unit :=
  if decide (r = 3%nat) then throw TypeError else own_transform r.

(** What a render pass has pushed on the render session and not yet
    popped. *)
Inductive pushed :=
| pushed_filter
| pushed_mask (m : option ref).

(** The pushes left open after a sequence of calls made with the pushes
    [st] open, innermost first; [None] when a pop does not meet the push of
    its kind on top, or a WebGL mask pop names another mask than the one
    pushed. *)
Fixpoint nesting (st : list pushed) (cs : list call) : option (list pushed) :=
  match cs with
  | [] => Some st
  | c :: cs' =>
      match c with
      | filterManager_pushFilter _ => nesting (pushed_filter :: st) cs'
      | maskManager_pushMask m => nesting (pushed_mask m :: st) cs'
      | filterManager_popFilter =>
          match st with
          | pushed_filter :: st' => nesting st' cs'
          | _ => None
          end
      | maskManager_popMask m =>
          match st with
          | pushed_mask m' :: st' => if decide (m = m') then nesting st' cs' else None
          | _ => None
          end
      | maskManager_popMask_session =>
          match st with
          | pushed_mask _ :: st' => nesting st' cs'
          | _ => None
          end
      | _ => nesting st cs'
      end
  end.

(** The state of the sprite batch after a sequence of calls of a WebGL
    pass, [true] for started; [None] when the batch is stopped while
    stopped or started while started, when a flush, a filter push or the
    rendering of a child or of a cached sprite meets a stopped batch, or
    when a mask push, a mask pop or a filter pop meets a started one. *)
Fixpoint batch (started : bool) (cs : list call) : option bool :=
  match cs with
  | [] => Some started
  | c :: cs' =>
      match c with
      | spriteBatch_stop => if started then batch false cs' else None
      | spriteBatch_start => if started then None else batch true cs'
      | spriteBatch_flush | filterManager_pushFilter _
      | renderCachedSprite _ | subclass_renderWebGL _ =>
          if started then batch true cs' else None
      | maskManager_pushMask _ | maskManager_popMask _ | filterManager_popFilter =>
          if started then None else batch false cs'
      | _ => batch started cs'
      end
  end.

(** The container [1] with the mask [7] and a filter list, over the leaf
    [2] of a subclass. *)
Definition masked_container : heap :=
  <[1%nat := mkDisplayObject Container [2%nat] None None false false true 1
               (Point.mk 1 1) 0 0 (Rectangle.mk 0 0 1 1) (matrix_ref 1)
               false (Some 7%nat) (Some [8%nat])]>
    (<[2%nat := mkDisplayObject Subclass [] (Some 1%nat) None false false true 1
                  (Point.mk 1 1) 0 0 (Rectangle.mk 0 0 1 1) (matrix_ref 2)
                  false None None]> ∅).

(** The container [1] over three visible leaves that report, in list order,
    [(0,0,10,10)], a rectangle whose [x] is not a number, and
    [(20,20,5,5)]. *)
Definition nan_between : heap :=
  <[4%nat := mkDisplayObject Subclass [] (Some 1%nat) None false false true 1
               (Point.mk 1 1) 0 0 (Rectangle.mk nan 0 1 1) (matrix_ref 4)
               false None None]>
    (upd 1%nat (set_children [2%nat; 4%nat; 3%nat]) two_visible).

(** The container [1] over the visible leaf [3], which reports
    [(20,20,5,5)], and the visible container [2], which has no children. *)
Definition empty_beside_leaf : heap :=
  <[3%nat := mkDisplayObject Subclass [] (Some 1%nat) None false false true 1
               (Point.mk 1 1) 0 0 (Rectangle.mk 20 20 5 5) (matrix_ref 3)
               false None None]> two_children.

(** Two heaps that differ at most in the [_bounds] rectangles of objects of
    the container class itself. *)
Definition leaf_frame (h h' : heap) : Prop :=
  bounds_frame h h' ∧ ∀ x, class (obj h x) = Subclass → obj h' x = obj h x.

(** The rectangle that [getBounds] stores from the running extrema. *)
Definition rect_of (acc : bounds_acc) : Rectangle.t :=
  Rectangle.mk (minX acc) (minY acc) (maxX acc - minX acc)%float
    (maxY acc - minY acc)%float.

(** The bounds of a tree as a function of what the heap holds before any
    call: a visible child of a subclass counts with its own rectangle, a
    visible child of the container class with the bounds of its subtree,
    and a node without visible child has the empty rectangle. *)
Fixpoint extent (h : heap) (t : tree) : Rectangle.t :=
  match t with
  | Node r ts =>
      let rs := omap (λ t', if visible (obj h (root t'))
                            then Some match class (obj h (root t')) with
                                      | Container => extent h t'
                                      | Subclass => _bounds (obj h (root t'))
                                      end
                            else None) ts in
      if rs is [] then Rectangle.EMPTY else rect_of (foldl bounds_step bounds_init rs)
  end.

(** The rectangles that enter the extrema of a node with the subtrees
    [ts]. *)
Definition reports (h : heap) (ts : list tree) : list Rectangle.t :=
  omap (λ t', if visible (obj h (root t'))
              then Some match class (obj h (root t')) with
                        | Container => extent h t'
                        | Subclass => _bounds (obj h (root t'))
                        end
              else None) ts.

(** The rectangle object that [getBounds] returns on a tree: the shared
    empty one without visible child, the container's own otherwise. *)
Definition extent_ref (h : heap) (t : tree) : RectangleRef :=
  match t with
  | Node r ts => if reports h ts is [] then EMPTY_ref else bounds_ref r
  end.

(** * Properties *)

(** ** The heap *)

Lemma obj_upd (h : heap) (r x : ref) (f : DisplayObject → DisplayObject) :
  obj (upd r f h) x = if decide (x = r) then f (obj h r) else obj h x.
Proof.
  unfold upd, obj at 1. destruct (decide (x = r)) as [->|Hne].
  - by rewrite lookup_insert_eq.
  - by rewrite lookup_insert_ne.
Qed.

Lemma obj_upd_eq (h : heap) (r : ref) f : obj (upd r f h) r = f (obj h r).
Proof. rewrite obj_upd. by destruct (decide (r = r)). Qed.

Lemma obj_upd_ne (h : heap) (r x : ref) f : x ≠ r → obj (upd r f h) x = obj h x.
Proof. intros. rewrite obj_upd. by destruct (decide (x = r)). Qed.

(** ** Outcomes *)

Section Preserves.
Context (R : heap → heap → Prop) `{!Reflexive R} `{!Transitive R}.

Lemma preserves_ret {A} (a : A) : preserves R (ret a).
Proof. intros h. unfold post, ret. reflexivity. Qed.

Lemma preserves_throw {A} e : preserves R (@throw A e).
Proof. intros h. unfold post, throw. reflexivity. Qed.

Lemma preserves_out_of_fuel {A} : preserves R (@out_of_fuel A).
Proof. intros h. exact I. Qed.

Lemma preserves_get r : preserves R (get r).
Proof. intros h. unfold post, get. reflexivity. Qed.

Lemma preserves_child_at this i : preserves R (child_at this i).
Proof. intros h. unfold post, child_at. destruct (_ !! _); reflexivity. Qed.

Lemma preserves_deref b : preserves R (deref b).
Proof. intros h. unfold post, deref. reflexivity. Qed.

Lemma preserves_bind {A B} (m : M A) (k : A → M B) :
  preserves R m → (∀ a, preserves R (k a)) → preserves R (bind m k).
Proof.
  intros Hm Hk h. specialize (Hm h). unfold post, bind in *.
  destruct (m h) as [a h1|e h1|]; [|done..].
  specialize (Hk a h1). unfold post in Hk.
  destruct (k a h1); [| |done]; by etrans.
Qed.

Lemma preserves_for_loop {St} n i (body : nat → St → M St) acc :
  (∀ k a, preserves R (body k a)) → preserves R (for_loop n i body acc).
Proof.
  intros Hb. revert i acc. induction n as [|n IH]; intros i acc; simpl.
  - apply preserves_ret.
  - apply preserves_bind; [apply Hb|]. intros a. apply IH.
Qed.

Lemma preserves_for_each {A} (l : list A) (body : A → M unit) :
  (∀ a, preserves R (body a)) → preserves R (for_each l body).
Proof.
  intros Hb. induction l as [|a l IH]; simpl.
  - apply preserves_ret.
  - apply preserves_bind; [apply Hb|]. intros _. apply IH.
Qed.

Lemma preserves_modify r f :
  (∀ h, R h (upd r f h)) → preserves R (modify r f).
Proof. intros Hf h. unfold post, modify. apply Hf. Qed.

End Preserves.

(** ** What the stage methods leave alone *)

#[local] Instance stage_frame_refl : Reflexive stage_frame.
Proof. by intros h r. Qed.

#[local] Instance stage_frame_trans : Transitive stage_frame.
Proof. intros h1 h2 h3 H12 H23 r. by rewrite H23. Qed.

Lemma stage_frame_children h h' r :
  stage_frame h h' → children (obj h' r) = children (obj h r).
Proof. intros H. exact (f_equal children (H r)). Qed.

Lemma stage_frame_parent h h' r :
  stage_frame h h' → parent (obj h' r) = parent (obj h r).
Proof. intros H. exact (f_equal parent (H r)). Qed.

Lemma stage_frame_interactive h h' r :
  stage_frame h h' → _interactive (obj h' r) = _interactive (obj h r).
Proof. intros H. exact (f_equal _interactive (H r)). Qed.

Lemma stage_frame_set_stage h r s : stage_frame h (upd r (set_stage s) h).
Proof. intros x. rewrite obj_upd. by destruct (decide (x = r)) as [->|]. Qed.

Lemma stage_frame_set_dirty h r b : stage_frame h (upd r (set_dirty b) h).
Proof. intros x. rewrite obj_upd. by destruct (decide (x = r)) as [->|]. Qed.

(** Steps through a method body, one construct of the monad at a time. *)
Ltac pres :=
  repeat match goal with
    | |- preserves _ (ret _) => apply preserves_ret
    | |- preserves _ (throw _) => apply preserves_throw
    | |- preserves _ out_of_fuel => apply preserves_out_of_fuel
    | |- preserves _ (get _) => apply preserves_get
    | |- preserves _ (child_at _ _) => apply preserves_child_at
    | |- preserves _ (deref _) => apply preserves_deref
    | |- preserves _ (bind _ _) => apply preserves_bind
    | |- preserves _ (for_loop _ _ _ _) => apply preserves_for_loop
    | |- preserves _ (for_each _ _) => apply preserves_for_each
    | |- preserves _ (modify _ _) => apply preserves_modify
    | |- Reflexive _ => apply _
    | |- Transitive _ => apply _
    | |- ∀ _, _ => intro
    end.

Lemma mark_stage_dirty_frame this : preserves stage_frame (mark_stage_dirty this).
Proof.
  unfold mark_stage_dirty. pres. destruct (stage a); pres.
  apply stage_frame_set_dirty.
Qed.

Lemma setStageReference_frame fuel this s :
  preserves stage_frame (setStageReference fuel this s).
Proof.
  revert this. induction fuel as [|fuel IH]; intros this; simpl; pres.
  - apply stage_frame_set_stage.
  - destruct (_interactive _); [apply mark_stage_dirty_frame|pres].
  - apply IH.
Qed.

Lemma removeStageReference_frame fuel this :
  preserves stage_frame (removeStageReference fuel this).
Proof.
  revert this. induction fuel as [|fuel IH]; intros this; simpl; pres.
  - apply IH.
  - destruct (_interactive _); [apply mark_stage_dirty_frame|pres].
  - apply stage_frame_set_stage.
Qed.

Lemma post_Ok {A} (R : heap → heap → Prop) (m : M A) h a h' :
  preserves R m → m h = Ok a h' → R h h'.
Proof. intros Hm Heq. specialize (Hm h). unfold post in Hm. by rewrite Heq in Hm. Qed.

(** ** Subtrees of the scene graph *)

Lemma tree_ind' (P : tree → Prop) :
  (∀ r ts, Forall P ts → P (Node r ts)) → ∀ t, P t.
Proof.
  intros H. fix IH 1. intros [r ts]. apply H.
  induction ts as [|t ts IHts]; constructor; [apply IH | exact IHts].
Qed.

Lemma root_in_nodes t : root t ∈ nodes t.
Proof. destruct t; simpl. apply list_elem_of_here. Qed.

Lemma shape_ext ch ch' t :
  (∀ x, x ∈ nodes t → ch' x = ch x) → shape ch t → shape ch' t.
Proof.
  induction t as [r ts IH] using tree_ind'. intros Hext Hs.
  inversion Hs as [r' ts' Hr Hts]; subst. constructor.
  - rewrite Hext; [done|]. apply list_elem_of_here.
  - rewrite Forall_forall in IH, Hts. apply Forall_forall. intros t Ht.
    apply IH; [done| |by apply Hts]. intros x Hx. apply Hext. simpl.
    apply list_elem_of_further, list_elem_of_bind. by exists t.
Qed.

Lemma shape_frame h h' t :
  stage_frame h h' → shape (kids h) t → shape (kids h') t.
Proof.
  intros Hf. apply shape_ext. intros x _. unfold kids.
  by apply stage_frame_children.
Qed.

Lemma drop_cons_inv {A} (l : list A) i x rest :
  drop i l = x :: rest → l !! i = Some x ∧ drop (S i) l = rest.
Proof.
  intros H. split.
  - rewrite <- (Nat.add_0_r i), <- lookup_drop, H. done.
  - replace (S i) with (i + 1)%nat by lia. rewrite <- drop_drop, H. done.
Qed.

Lemma bind_Ok {A B} (m : M A) (k : A → M B) h a h1 :
  m h = Ok a h1 → bind m k h = k a h1.
Proof. intros H. unfold bind. by rewrite H. Qed.

Lemma bind_Throw {A B} (m : M A) (k : A → M B) h e h1 :
  m h = Throw e h1 → bind m k h = Throw e h1.
Proof. intros H. unfold bind. by rewrite H. Qed.

Lemma child_at_Ok this i h c :
  kids h this !! i = Some c → child_at this i h = Ok c h.
Proof. unfold child_at, kids. by intros ->. Qed.

Lemma stage_upd_dirty h s b x :
  stage (obj (upd s (set_dirty b) h) x) = stage (obj h x).
Proof. rewrite obj_upd. by destruct (decide (x = s)) as [->|]. Qed.

(** ** Detaching a subtree from the stage *)

Lemma removeStageReference_children fuel this ts :
  Forall detaches ts →
  ∀ i h,
    drop i (kids h this) = root <$> ts →
    Forall (shape (kids h)) ts → NoDup (ts ≫= nodes) →
    attached_interactive h (ts ≫= nodes) →
    Forall (λ t, (depth t ≤ fuel)%nat) ts →
    ∃ h', for_loop (length ts) i
            (fun i _ => let* c := child_at this i in removeStageReference fuel c)
            tt h = Ok tt h'
          ∧ stage_frame h h'
          ∧ (∀ x, x ∉ ts ≫= nodes → stage (obj h' x) = stage (obj h x))
          ∧ (∀ x, x ∈ ts ≫= nodes → stage (obj h' x) = None).
Proof.
  induction ts as [|t ts IH]; intros Hdet i h Hdrop Hshape Hnd Hatt Hfuel.
  - exists h. simpl. repeat split. intros x Hx. by apply elem_of_nil in Hx.
  - apply Forall_cons in Hdet as [Ht Hdet]. apply Forall_cons in Hshape as [Hst Hshape].
    apply Forall_cons in Hfuel as [Hft Hfuel].
    simpl in Hnd. apply NoDup_app in Hnd as (Hndt & Hdisj & Hndts).
    simpl in Hdrop. apply drop_cons_inv in Hdrop as [Hi Hdrop].
    destruct (Ht fuel h Hst Hndt) as (h1 & Hrun & Hout & Hin); [|done|].
    { intros x Hx. apply Hatt. simpl. apply elem_of_app. by left. }
    pose proof (post_Ok _ _ _ _ _ (removeStageReference_frame fuel (root t)) Hrun) as Hf1.
    destruct (IH Hdet (S i) h1) as (h2 & Hloop & Hf2 & Hout2 & Hin2).
    + unfold kids in *. by rewrite (stage_frame_children _ _ _ Hf1).
    + eapply Forall_impl; [exact Hshape|]. intros t'. by apply shape_frame.
    + done.
    + intros x Hx Hint. rewrite Hout. 2:{ intros Hxt. by apply (Hdisj x). }
      apply Hatt; [simpl; apply elem_of_app; by right|].
      by rewrite <- (stage_frame_interactive _ _ _ Hf1).
    + done.
    + exists h2. split; [|split; [by etrans|split]].
      * simpl. erewrite bind_Ok; [exact Hloop|].
        erewrite bind_Ok; [exact Hrun|]. by apply child_at_Ok.
      * intros x Hx. simpl in Hx. rewrite Hout2, Hout; [done|..];
          intros ?; apply Hx, elem_of_app; auto.
      * intros x Hx. simpl in Hx. apply elem_of_app in Hx as [Hx|Hx].
        -- rewrite Hout2; [by apply Hin|]. intros Hx'. by apply (Hdisj x).
        -- by apply Hin2.
Qed.

Lemma removeStageReference_tree t : detaches t.
Proof.
  induction t as [r ts IH] using tree_ind'.
  intros fuel h Hshape Hnd Hatt Hfuel.
  inversion Hshape as [r' ts' Hr Hts]; subst.
  simpl in Hnd. apply NoDup_cons in Hnd as [Hrts Hnd].
  destruct fuel as [|fuel]; [simpl in Hfuel; lia|]. simpl in Hfuel.
  destruct (removeStageReference_children fuel r ts IH 0%nat h)
    as (h1 & Hloop & Hf1 & Hout1 & Hin1); [done|done|done| | |].
  { intros x Hx. apply Hatt. simpl. by apply list_elem_of_further. }
  { apply Forall_forall. intros t Ht.
    assert (depth t ≤ max_list (depth <$> ts))%nat; [|lia].
    apply max_list_elem_of_le. by apply list_elem_of_fmap_2. }
  assert (Hlen : length (children (obj h r)) = length ts).
  { fold (kids h r). by rewrite Hr, length_fmap. }
  assert (Hstage : stage (obj h1 r) = stage (obj h r)) by by apply Hout1.
  assert (Hint : _interactive (obj h1 r) = _interactive (obj h r))
    by by apply stage_frame_interactive.
  simpl. unfold bind at 1, get at 1. rewrite Hlen.
  erewrite bind_Ok; [|exact Hloop]. unfold bind at 1, get at 1.
  destruct (_interactive (obj h1 r)) eqn:Hi.
  - destruct (Hatt r) as [s Hs]; [apply list_elem_of_here|congruence|].
    unfold mark_stage_dirty, bind, get, modify. rewrite Hstage, Hs.
    eexists. split; [done|]. split.
    + intros x Hx. rewrite obj_upd_ne, stage_upd_dirty.
      * apply Hout1. intros Hx'. apply Hx. simpl. by apply list_elem_of_further.
      * intros ->. apply Hx. apply list_elem_of_here.
    + intros x Hx. simpl in Hx. apply elem_of_cons in Hx as [->|Hx].
      * by rewrite obj_upd_eq.
      * rewrite obj_upd_ne, stage_upd_dirty; [by apply Hin1|]. by intros ->.
  - unfold bind, ret, modify. eexists. split; [done|]. split.
    + intros x Hx. rewrite obj_upd_ne.
      * apply Hout1. intros Hx'. apply Hx. simpl. by apply list_elem_of_further.
      * intros ->. apply Hx. apply list_elem_of_here.
    + intros x Hx. simpl in Hx. apply elem_of_cons in Hx as [->|Hx].
      * by rewrite obj_upd_eq.
      * rewrite obj_upd_ne; [by apply Hin1|]. by intros ->.
Qed.

(** ** Attaching a subtree to the stage *)

Lemma depth_subtrees fuel r ts :
  (depth (Node r ts) ≤ S fuel)%nat → Forall (λ t, (depth t ≤ fuel)%nat) ts.
Proof.
  simpl. intros Hfuel. apply Forall_forall. intros t Ht.
  assert (depth t ≤ max_list (depth <$> ts))%nat; [|lia].
  apply max_list_elem_of_le. by apply list_elem_of_fmap_2.
Qed.

Lemma setStageReference_children s fuel this ts :
  Forall (attaches s) ts →
  ∀ i h,
    drop i (kids h this) = root <$> ts →
    Forall (shape (kids h)) ts →
    Forall (λ t, (depth t ≤ fuel)%nat) ts →
    ∃ h', for_loop (length ts) i
            (fun i _ => let* c := child_at this i in
                        setStageReference fuel c (Some s))
            tt h = Ok tt h'.
Proof.
  induction ts as [|t ts IH]; intros Hatt i h Hdrop Hshape Hfuel.
  - by exists h.
  - apply Forall_cons in Hatt as [Ht Hatt]. apply Forall_cons in Hshape as [Hst Hshape].
    apply Forall_cons in Hfuel as [Hft Hfuel].
    simpl in Hdrop. apply drop_cons_inv in Hdrop as [Hi Hdrop].
    destruct (Ht fuel h Hst Hft) as (h1 & Hrun).
    pose proof (post_Ok _ _ _ _ _ (setStageReference_frame fuel (root t) (Some s)) Hrun)
      as Hf1.
    destruct (IH Hatt (S i) h1) as (h2 & Hloop).
    + unfold kids in *. by rewrite (stage_frame_children _ _ _ Hf1).
    + eapply Forall_impl; [exact Hshape|]. intros t'. by apply shape_frame.
    + done.
    + exists h2. simpl. erewrite bind_Ok; [exact Hloop|].
      erewrite bind_Ok; [exact Hrun|]. by apply child_at_Ok.
Qed.

Lemma setStageReference_tree s t : attaches s t.
Proof.
  induction t as [r ts IH] using tree_ind'.
  intros fuel h Hshape Hfuel.
  inversion Hshape as [r' ts' Hr Hts]; subst.
  destruct fuel as [|fuel]; [simpl in Hfuel; lia|].
  apply depth_subtrees in Hfuel.
  set (h1 := upd r (set_stage (Some s)) h).
  set (h2 := if _interactive (obj h1 r) then upd s (set_dirty true) h1 else h1).
  assert (Hf : stage_frame h h2).
  { etrans; [apply (stage_frame_set_stage h r (Some s))|]. fold h1. unfold h2.
    destruct (_interactive _); [apply stage_frame_set_dirty|done]. }
  destruct (setStageReference_children s fuel r ts IH 0%nat h2) as (h3 & Hloop).
  { simpl. unfold kids in *. by rewrite (stage_frame_children _ _ _ Hf). }
  { eapply Forall_impl; [exact Hts|]. intros t'. by apply shape_frame. }
  { done. }
  exists h3. simpl. unfold bind at 1, modify at 1. fold h1.
  unfold bind at 1, get at 1.
  assert (Hlen : length (children (obj h2 r)) = length ts).
  { rewrite (stage_frame_children _ _ _ Hf). fold (kids h r).
    by rewrite Hr, length_fmap. }
  unfold h2 in *. destruct (_interactive (obj h1 r)).
  - unfold mark_stage_dirty, bind, get, modify. unfold h1 at 1. rewrite obj_upd_eq. simpl.
    fold h1. rewrite Hlen. exact Hloop.
  - unfold bind at 1, ret at 1. unfold bind at 1, get at 1. rewrite Hlen. exact Hloop.
Qed.

(** ** Arrays *)

Lemma indexOf_range l x : indexOf l x = -1 ∨ 0 ≤ indexOf l x < Z.of_nat (length l).
Proof.
  induction l as [|y l IH]; simpl; [by left|].
  destruct (decide (y = x)); [right; lia|].
  destruct (indexOf l x =? -1) eqn:E; [by left|]. right.
  apply Z.eqb_neq in E. lia.
Qed.

Lemma indexOf_not_elem_of l x : indexOf l x = -1 ↔ x ∉ l.
Proof.
  induction l as [|y l IH]; simpl.
  - split; [intros _; apply not_elem_of_nil|done].
  - destruct (decide (y = x)) as [->|Hne].
    + split; [lia|]. intros H. exfalso. apply H, list_elem_of_here.
    + destruct (indexOf_range l x) as [Hr|Hr].
      * rewrite Hr. simpl. split; [|done]. intros _. apply not_elem_of_cons.
        split; [done|]. by apply IH.
      * destruct (indexOf l x =? -1) eqn:E; [apply Z.eqb_eq in E; lia|].
        split; [lia|]. intros H. apply not_elem_of_cons in H as [_ H].
        apply IH in H. lia.
Qed.

Lemma indexOf_lookup l x :
  x ∈ l → l !! Z.to_nat (indexOf l x) = Some x
          ∧ 0 ≤ indexOf l x < Z.of_nat (length l).
Proof.
  induction l as [|y l IH]; simpl; intros Hx; [by apply elem_of_nil in Hx|].
  destruct (decide (y = x)) as [->|Hne]; [split; [done|lia]|].
  apply elem_of_cons in Hx as [->|Hx]; [done|].
  destruct (IH Hx) as [Hl Hr].
  destruct (indexOf l x =? -1) eqn:E; [apply Z.eqb_eq in E; lia|].
  split; [|lia]. replace (Z.to_nat (indexOf l x + 1)) with (S (Z.to_nat (indexOf l x))) by lia.
  done.
Qed.

Lemma splice_nonneg {A} (l : list A) (b n : Z) (items : list A) :
  0 ≤ b → 0 ≤ n →
  splice l b n items =
    (take (Z.to_nat n) (drop (Z.to_nat b) l),
     take (Z.to_nat b) l ++ items ++ drop (Z.to_nat b + Z.to_nat n) l).
Proof.
  intros Hb Hn. unfold splice, splice_start, splice_count.
  destruct (b <? 0) eqn:E; [apply Z.ltb_lt in E; lia|].
  remember (Z.to_nat b) as B eqn:HB. remember (Z.to_nat n) as N eqn:HN.
  remember (length l) as L eqn:HL.
  replace (Z.to_nat (b `min` Z.of_nat L)) with (B `min` L)%nat by lia.
  replace (Z.to_nat ((n `max` 0) `min` (Z.of_nat L - Z.of_nat (B `min` L)%nat)))
    with (N `min` (L - B `min` L))%nat by lia.
  destruct (decide (B ≤ L)%nat) as [Hle|Hgt].
  - replace (B `min` L)%nat with B by lia.
    destruct (decide (N ≤ L - B)%nat) as [Hn'|Hn'].
    + by replace (N `min` (L - B))%nat with N by lia.
    + replace (N `min` (L - B))%nat with (L - B)%nat by lia. f_equal.
      * rewrite !take_ge; [done|rewrite length_drop; lia..].
      * rewrite !drop_ge; [done|lia..].
  - replace (B `min` L)%nat with L by lia.
    replace (N `min` (L - L))%nat with 0%nat by lia.
    rewrite (drop_ge l L), (drop_ge l (L + 0)), (drop_ge l B), (drop_ge l (B + N))
      by lia.
    rewrite (take_ge l L), (take_ge l B) by lia. by rewrite !take_nil.
Qed.

Lemma splice_insert {A} (l : list A) (i : Z) (x : A) :
  0 ≤ i →
  (splice l i 0 [x]).2 = take (Z.to_nat i) l ++ x :: drop (Z.to_nat i) l.
Proof.
  intros Hi. rewrite splice_nonneg by lia. change (Z.to_nat 0) with 0%nat.
  cbn [snd app]. by rewrite Nat.add_0_r.
Qed.

Lemma splice_delete {A} (l : list A) (i : Z) :
  0 ≤ i → (splice l i 1 []).2 = delete (Z.to_nat i) l.
Proof.
  intros Hi. rewrite splice_nonneg by lia. change (Z.to_nat 1) with 1%nat.
  cbn [snd app]. rewrite delete_take_drop.
  by replace (Z.to_nat i + 1)%nat with (S (Z.to_nat i)) by lia.
Qed.

(** ** Field reads after field writes *)

Lemma kids_upd_parent h r v x : kids (upd r (set_parent v) h) x = kids h x.
Proof. unfold kids. rewrite obj_upd. by destruct (decide (x = r)) as [->|]. Qed.

Lemma kids_upd_children h r (g : DisplayObject → list ref) x :
  kids (upd r (fun o => set_children (g o) o) h) x
  = if decide (x = r) then g (obj h r) else kids h x.
Proof. unfold kids. rewrite obj_upd. by destruct (decide (x = r)) as [->|]. Qed.

Lemma parent_upd_parent h r v x :
  parent (obj (upd r (set_parent v) h) x)
  = if decide (x = r) then v else parent (obj h x).
Proof. rewrite obj_upd. by destruct (decide (x = r)) as [->|]. Qed.

Lemma parent_upd_children h r (g : DisplayObject → list ref) x :
  parent (obj (upd r (fun o => set_children (g o) o) h) x) = parent (obj h x).
Proof. rewrite obj_upd. by destruct (decide (x = r)) as [->|]. Qed.

Lemma stage_upd_parent h r v x :
  stage (obj (upd r (set_parent v) h) x) = stage (obj h x).
Proof. rewrite obj_upd. by destruct (decide (x = r)) as [->|]. Qed.

Lemma interactive_upd_parent h r v x :
  _interactive (obj (upd r (set_parent v) h) x) = _interactive (obj h x).
Proof. rewrite obj_upd. by destruct (decide (x = r)) as [->|]. Qed.

(** ** Insertion out of bounds *)

Lemma addChildAt_Throw fuel this child index h :
  index < 0 ∨ index > Z.of_nat (length (children (obj h this))) →
  addChildAt fuel this child index h
  = Throw (Error_addChildAt child index (length (children (obj h this)))) h.
Proof.
  intros Hidx. unfold addChildAt, bind, get.
  destruct (index >=? 0) eqn:E1; simpl; [|done].
  destruct (index <=? _) eqn:E2; [|done].
  apply Z.leb_le in E2. apply Z.geb_le in E1. lia.
Qed.

(** C4: for an index below zero or above the number of children,
    [addChildAt] throws the out-of-bounds error, and the heap at the throw is
    the heap of the call: the child list of the container, the parent
    reference of the child and the child list of its previous parent are
    all as before (no detach has happened). *)
Theorem addChildAt_out_of_bounds fuel this child index h :
  index < 0 ∨ index > Z.of_nat (length (children (obj h this))) →
  ∃ h', addChildAt fuel this child index h
        = Throw (Error_addChildAt child index (length (children (obj h this)))) h'
        ∧ h' = h
        ∧ children (obj h' this) = children (obj h this)
        ∧ parent (obj h' child) = parent (obj h child)
        ∧ ∀ p, parent (obj h child) = Some p →
               children (obj h' p) = children (obj h p).
Proof.
  intros Hidx. exists h. by rewrite addChildAt_Throw.
Qed.

Lemma addChildAt_out_of_bounds_witness :
  (3 < 0 ∨ 3 > Z.of_nat (length (children (obj two_children 1%nat))))
  ∧ ∃ h', addChildAt 5 1%nat 2%nat 3 two_children
          = Throw (Error_addChildAt 2%nat 3 2) h'
          ∧ h' = two_children.
Proof.
  split; [right; vm_compute; reflexivity|].
  destruct (addChildAt_out_of_bounds 5 1%nat 2%nat 3 two_children) as (h' & Hrun & Heq & _).
  { right. vm_compute. reflexivity. }
  exists h'. split; [exact Hrun|exact Heq].
Defined.

(** ** Empty bounds *)

Lemma for_loop_skip {St} n i (body : nat → St → M St) acc h :
  (∀ k, (i ≤ k < i + n)%nat → body k acc h = Ok acc h) →
  for_loop n i body acc h = Ok acc h.
Proof.
  revert i. induction n as [|n IH]; intros i Hb; simpl; [done|].
  erewrite bind_Ok; [|apply Hb; lia]. apply IH. intros k Hk. apply Hb. lia.
Qed.

(** C2: on a container without children, or whose direct children all have
    the visibility flag off, [getBounds] returns the reference to the shared
    [math.Rectangle.EMPTY] itself (not the container's own rectangle) and
    writes nothing. *)
Theorem getBounds_empty fuel this h :
  children (obj h this) = []
  ∨ (∀ c, c ∈ children (obj h this) → visible (obj h c) = false) →
  getBounds (S fuel) this h = Ok EMPTY_ref h.
Proof.
  intros Hcase. simpl. unfold bind at 1, get at 1.
  destruct (Z.of_nat (length (children (obj h this))) =? 0) eqn:E; [done|].
  destruct Hcase as [Hnil|Hinv]; [rewrite Hnil in E; done|].
  rewrite (bind_Ok _ _ h bounds_init h); [done|].
  apply for_loop_skip. intros k Hk.
  destruct (lookup_lt_is_Some_2 (children (obj h this)) k) as [c Hc]; [lia|].
  unfold bind, child_at, get. rewrite Hc.
  rewrite Hinv; [done|]. by eapply list_elem_of_lookup_2.
Qed.

Lemma getBounds_empty_witness :
  (children (obj two_invisible 1%nat) = []
   ∨ (∀ c, c ∈ children (obj two_invisible 1%nat)
           → visible (obj two_invisible c) = false))
  ∧ getBounds 1 1%nat two_invisible = Ok EMPTY_ref two_invisible.
Proof.
  assert (H : ∀ c, c ∈ children (obj two_invisible 1%nat)
                   → visible (obj two_invisible c) = false).
  { intros c Hc. change (children (obj two_invisible 1%nat)) with [2%nat; 3%nat] in Hc.
    apply elem_of_cons in Hc as [->|Hc]; [reflexivity|].
    apply list_elem_of_singleton in Hc as ->. reflexivity. }
  split; [right; exact H|].
  apply (getBounds_empty 0 1%nat two_invisible). right. exact H.
Defined.

(** ** The [width] and [height] setters *)

(** C9: once [getLocalBounds] has reported a rectangle, the [width] setter
    stores 1 in [scale.x] when the reported width equals zero (no division
    takes place) and [value / width] otherwise, leaves [scale.y] alone and
    records the value in [_width]; the [height] setter does the same with
    [scale.y], the reported height and [_height]. *)
Theorem size_setters_guard_zero ext fuel this value h b h1 :
  getLocalBounds ext fuel this h = Ok b h1 →
  (∃ h', width_set ext fuel this value h = Ok tt h'
         ∧ ((Rectangle.width (rect h1 b) =? 0)%float = true
            → Point.x (scale (obj h' this)) = 1%float)
         ∧ ((Rectangle.width (rect h1 b) =? 0)%float = false
            → Point.x (scale (obj h' this))
              = (value / Rectangle.width (rect h1 b))%float)
         ∧ Point.y (scale (obj h' this)) = Point.y (scale (obj h1 this))
         ∧ _width (obj h' this) = value)
  ∧ (∃ h', height_set ext fuel this value h = Ok tt h'
           ∧ ((Rectangle.height (rect h1 b) =? 0)%float = true
              → Point.y (scale (obj h' this)) = 1%float)
           ∧ ((Rectangle.height (rect h1 b) =? 0)%float = false
              → Point.y (scale (obj h' this))
                = (value / Rectangle.height (rect h1 b))%float)
           ∧ Point.x (scale (obj h' this)) = Point.x (scale (obj h1 this))
           ∧ _height (obj h' this) = value).
Proof.
  intros Hlb. split.
  - unfold width_set. rewrite (bind_Ok _ _ _ _ _ Hlb).
    unfold bind at 1, read_rect at 1, bind at 1, deref at 1, ret at 1.
    destruct (Rectangle.width (rect h1 b) =? 0)%float eqn:E; simpl;
      unfold bind, modify; eexists; (split; [reflexivity|]);
      rewrite !obj_upd_eq; simpl; repeat split; congruence.
  - unfold height_set. rewrite (bind_Ok _ _ _ _ _ Hlb).
    unfold bind at 1, read_rect at 1, bind at 1, deref at 1, ret at 1.
    destruct (Rectangle.height (rect h1 b) =? 0)%float eqn:E; simpl;
      unfold bind, modify; eexists; (split; [reflexivity|]);
      rewrite !obj_upd_eq; simpl; repeat split; congruence.
Qed.

Lemma size_setters_guard_zero_witness :
  ∃ h1,
    getLocalBounds no_transform 2 1%nat two_visible = Ok (bounds_ref 1%nat) h1
    ∧ (∃ h', width_set no_transform 2 1%nat 50 two_visible = Ok tt h'
             ∧ Point.x (scale (obj h' 1%nat)) = 2%float)
    ∧ (∃ h', height_set no_transform 2 1%nat 50 (upd 2%nat (set_bounds (Rectangle.mk 0 0 10 0))
                                                   (upd 3%nat (set_bounds (Rectangle.mk 0 0 5 0))
                                                      two_visible)) = Ok tt h'
             ∧ Point.y (scale (obj h' 1%nat)) = 1%float).
Proof.
  eexists. split; [vm_compute; reflexivity|]. split.
  - destruct (size_setters_guard_zero no_transform 2 1%nat 50 two_visible
                (bounds_ref 1%nat) _ eq_refl) as [(h' & Hrun & _ & Hdiv & _) _].
    exists h'. split; [exact Hrun|]. rewrite Hdiv; vm_compute; reflexivity.
  - destruct (size_setters_guard_zero no_transform 2 1%nat 50
                (upd 2%nat (set_bounds (Rectangle.mk 0 0 10 0))
                   (upd 3%nat (set_bounds (Rectangle.mk 0 0 5 0)) two_visible))
                (bounds_ref 1%nat) _ eq_refl) as [_ (h' & Hrun & Hone & _)].
    exists h'. split; [exact Hrun|]. apply Hone. vm_compute. reflexivity.
Defined.

(** ** Render dispatch *)

(** The WebGL backend returns at once, with no call made and the heap as it
    was, when the container is invisible or its alpha is at or below zero. *)
Lemma renderWebGL_early_return fuel this h :
  visible (obj h this) = false ∨ (alpha (obj h this) <=? 0)%float = true →
  _renderWebGL (S fuel) this h = Ok [] h.
Proof.
  intros [Hv|Ha]; simpl; unfold bind, get; [rewrite Hv|rewrite Ha]; simpl;
    [done|by rewrite orb_true_r].
Qed.

(** The Canvas backend returns at once when the container is invisible or
    its alpha equals zero. *)
Lemma renderCanvas_early_return fuel this h :
  visible (obj h this) = false ∨ (alpha (obj h this) =? 0)%float = true →
  _renderCanvas (S fuel) this h = Ok [] h.
Proof.
  intros [Hv|Ha]; simpl; unfold bind, get; [rewrite Hv|rewrite Ha]; simpl;
    [done|by rewrite orb_true_r].
Qed.

(** C8: on a visible container whose alpha is below zero the two backends
    part ways: the WebGL backend returns at once, the Canvas backend, which
    tests [alpha === 0], goes on to render both children. *)
Theorem render_negative_alpha_diverges :
  visible (obj negative_alpha 1%nat) = true
  ∧ (alpha (obj negative_alpha 1%nat) <=? 0)%float = true
  ∧ _renderWebGL 2 1%nat negative_alpha = Ok [] negative_alpha
  ∧ _renderCanvas 2 1%nat negative_alpha
    = Ok [subclass_renderCanvas 2%nat; subclass_renderCanvas 3%nat] negative_alpha.
Proof. repeat split; vm_compute; reflexivity. Qed.

(** ** Swapping children *)

Lemma indexOf_first l x i :
  l !! i = Some x → (∀ k, (k < i)%nat → l !! k ≠ Some x) →
  indexOf l x = Z.of_nat i.
Proof.
  revert i. induction l as [|y l IH]; intros i Hi Hfirst; [done|]. simpl.
  destruct (decide (y = x)) as [->|Hne].
  - destruct i as [|i]; [done|]. exfalso. by apply (Hfirst 0%nat); [lia|].
  - destruct i as [|i]; [simpl in Hi; congruence|]. simpl in Hi.
    rewrite (IH i Hi).
    + destruct (Z.of_nat i =? -1) eqn:E; [apply Z.eqb_eq in E; lia|lia].
    + intros k Hk. apply (Hfirst (S k)). lia.
Qed.

Lemma set_children_id o : set_children (children o) o = o.
Proof. by destruct o. Qed.

Lemma set_children_twice l l' o :
  set_children l (set_children l' o) = set_children l o.
Proof. done. Qed.

Lemma getChildIndex_Ok this child h :
  child ∈ children (obj h this) →
  getChildIndex this child h = Ok (indexOf (children (obj h this)) child) h.
Proof.
  intros Hin. unfold getChildIndex, bind, get.
  destruct (indexOf_lookup _ _ Hin) as [_ Hr].
  destruct (_ =? -1) eqn:E; [apply Z.eqb_eq in E; lia|done].
Qed.

Lemma getChildIndex_Throw this child h :
  child ∉ children (obj h this) →
  getChildIndex this child h = Throw Error_getChildIndex h.
Proof.
  intros Hin. unfold getChildIndex, bind, get.
  apply indexOf_not_elem_of in Hin. by rewrite Hin.
Qed.

Lemma swapChildren_Ok this a b h :
  a ≠ b → a ∈ children (obj h this) → b ∈ children (obj h this) →
  swapChildren this a b h
  = Ok tt (upd this
             (set_children
                (<[Z.to_nat (indexOf (children (obj h this)) b) := a]>
                   (<[Z.to_nat (indexOf (children (obj h this)) a) := b]>
                      (children (obj h this))))) h).
Proof.
  intros Hne Ha Hb. unfold swapChildren. destruct (decide (a = b)); [done|].
  rewrite (bind_Ok _ _ _ _ _ (getChildIndex_Ok this a h Ha)).
  rewrite (bind_Ok _ _ _ _ _ (getChildIndex_Ok this b h Hb)).
  destruct (indexOf_lookup _ _ Ha) as [_ Hra].
  destruct (indexOf_lookup _ _ Hb) as [_ Hrb].
  destruct (_ <? 0) eqn:E1; [apply Z.ltb_lt in E1; lia|].
  destruct (indexOf _ b <? 0) eqn:E2; [apply Z.ltb_lt in E2; lia|]. simpl.
  unfold bind, modify. f_equal. unfold upd at 1. rewrite obj_upd_eq.
  unfold upd. rewrite insert_insert_eq. done.
Qed.

(** C7: swapping a child with itself changes nothing; on a child list
    without repetition, swapping two distinct children twice gives back
    every object of the heap as it was, the child order included; and when
    one of two distinct operands is not a child, the membership error of
    [getChildIndex] is thrown with the heap as it was. *)
Theorem swapChildren_involution this a b h :
  swapChildren this a a h = Ok tt h
  ∧ (a ≠ b → a ∈ children (obj h this) → b ∈ children (obj h this) →
     NoDup (children (obj h this)) →
     ∃ h1 h2, swapChildren this a b h = Ok tt h1
              ∧ swapChildren this a b h1 = Ok tt h2
              ∧ children (obj h2 this) = children (obj h this)
              ∧ ∀ r, obj h2 r = obj h r)
  ∧ (a ≠ b → a ∉ children (obj h this) ∨ b ∉ children (obj h this) →
     swapChildren this a b h = Throw Error_getChildIndex h).
Proof.
  split; [|split].
  - unfold swapChildren. by destruct (decide (a = a)).
  - intros Hne Ha Hb Hnd.
    destruct (indexOf_lookup _ _ Ha) as [Hla Hra].
    destruct (indexOf_lookup _ _ Hb) as [Hlb Hrb].
    set (l := children (obj h this)) in *.
    set (i := Z.to_nat (indexOf l a)) in *. set (j := Z.to_nat (indexOf l b)) in *.
    assert (Hij : i ≠ j).
    { intros Heq. rewrite Heq in Hla. congruence. }
    assert (Hi : (i < length l)%nat) by (unfold i; lia).
    assert (Hj : (j < length l)%nat) by (unfold j; lia).
    set (l' := <[j := a]> (<[i := b]> l)).
    assert (Hl'a : indexOf l' a = Z.of_nat j).
    { apply indexOf_first.
      - unfold l'. apply list_lookup_insert_eq. by rewrite length_insert.
      - intros k Hk. unfold l'. rewrite list_lookup_insert_ne by lia.
        destruct (decide (k = i)) as [->|Hki].
        + rewrite list_lookup_insert_eq by done. congruence.
        + rewrite list_lookup_insert_ne by done. intros Hka.
          apply Hki. eapply NoDup_lookup; eauto. }
    assert (Hl'b : indexOf l' b = Z.of_nat i).
    { apply indexOf_first.
      - unfold l'. rewrite list_lookup_insert_ne by done.
        by apply list_lookup_insert_eq.
      - intros k Hk. unfold l'. destruct (decide (k = j)) as [->|Hkj].
        + rewrite list_lookup_insert_eq by (by rewrite length_insert). congruence.
        + rewrite list_lookup_insert_ne by done.
          rewrite list_lookup_insert_ne by lia. intros Hkb.
          apply Hkj. eapply NoDup_lookup; eauto. }
    eexists _, _. split; [by apply swapChildren_Ok|].
    fold l i j l'.
    assert (Hkids : children (obj (upd this (set_children l') h) this) = l')
      by by rewrite obj_upd_eq.
    split.
    { apply swapChildren_Ok; [done|rewrite Hkids..].
      - apply list_elem_of_lookup. exists j. unfold l'.
        apply list_lookup_insert_eq. by rewrite length_insert.
      - apply list_elem_of_lookup. exists i. unfold l'.
        rewrite list_lookup_insert_ne by done. by apply list_lookup_insert_eq. }
    rewrite Hkids, Hl'a, Hl'b, !Nat2Z.id.
    assert (Hback : <[i := a]> (<[j := b]> l') = l).
    { apply list_eq. intros k. unfold l'.
      destruct (decide (k = i)) as [->|Hki].
      - rewrite list_lookup_insert_eq by (by rewrite !length_insert). done.
      - rewrite list_lookup_insert_ne by done.
        destruct (decide (k = j)) as [->|Hkj].
        + rewrite list_lookup_insert_eq by (by rewrite !length_insert). done.
        + by rewrite !list_lookup_insert_ne by done. }
    rewrite Hback. split.
    + by rewrite !obj_upd_eq.
    + intros r. rewrite obj_upd. destruct (decide (r = this)) as [->|]; [|by rewrite obj_upd_ne].
      rewrite !obj_upd_eq, set_children_twice. unfold l. apply set_children_id.
  - intros Hne Hnot. unfold swapChildren. destruct (decide (a = b)); [done|].
    destruct (decide (a ∈ children (obj h this))) as [Ha|Ha].
    + destruct Hnot as [Hnot|Hnot]; [done|].
      rewrite (bind_Ok _ _ _ _ _ (getChildIndex_Ok this a h Ha)).
      by rewrite (bind_Throw _ _ _ _ _ (getChildIndex_Throw this b h Hnot)).
    + by rewrite (bind_Throw _ _ _ _ _ (getChildIndex_Throw this a h Ha)).
Qed.

Lemma swapChildren_involution_witness :
  (2%nat ≠ 3%nat ∧ 2%nat ∈ children (obj two_children 1%nat)
   ∧ 3%nat ∈ children (obj two_children 1%nat)
   ∧ NoDup (children (obj two_children 1%nat)))
  ∧ ∃ h1 h2, swapChildren 1%nat 2%nat 3%nat two_children = Ok tt h1
             ∧ swapChildren 1%nat 2%nat 3%nat h1 = Ok tt h2
             ∧ children (obj h2 1%nat) = children (obj two_children 1%nat)
             ∧ ∀ r, obj h2 r = obj two_children r.
Proof.
  assert (H : 2%nat ≠ 3%nat ∧ 2%nat ∈ children (obj two_children 1%nat)
              ∧ 3%nat ∈ children (obj two_children 1%nat)
              ∧ NoDup (children (obj two_children 1%nat))).
  { change (children (obj two_children 1%nat)) with [2%nat; 3%nat].
    split; [lia|]. split; [apply list_elem_of_here|].
    split; [apply list_elem_of_further, list_elem_of_here|].
    apply NoDup_cons. split; [|apply NoDup_singleton].
    intros Hin. apply list_elem_of_singleton in Hin. lia. }
  split; [exact H|]. destruct H as (H1 & H2 & H3 & H4).
  destruct (swapChildren_involution 1%nat 2%nat 3%nat two_children) as (_ & Hswap & _).
  exact (Hswap H1 H2 H3 H4).
Defined.

(** ** Inverting and running a sequence *)

Lemma bind_Ok_inv {A B} (m : M A) (k : A → M B) h b h' :
  bind m k h = Ok b h' → ∃ a h1, m h = Ok a h1 ∧ k a h1 = Ok b h'.
Proof. unfold bind. destruct (m h) as [a h1| |]; [|done..]. eauto. Qed.

Lemma getChildAt_Ok this index h :
  0 ≤ index < Z.of_nat (length (children (obj h this))) →
  getChildAt this index h = Ok (children (obj h this) !! Z.to_nat index) h.
Proof.
  intros Hr. unfold getChildAt, bind, get.
  destruct (index <? 0) eqn:E1; [apply Z.ltb_lt in E1; lia|].
  destruct (index >=? _) eqn:E2; [apply Z.geb_le in E2; lia|]. done.
Qed.

Lemma getChildAt_Throw this index h :
  index < 0 ∨ Z.of_nat (length (children (obj h this))) ≤ index →
  getChildAt this index h = Throw (Error_getChildAt index) h.
Proof.
  intros Hr. unfold getChildAt, bind, get.
  destruct (index <? 0) eqn:E1; [done|]. apply Z.ltb_ge in E1.
  destruct (index >=? _) eqn:E2; [done|].
  rewrite Z.geb_leb in E2. apply Z.leb_gt in E2. lia.
Qed.

Lemma detach_if_staged_frame fuel this c :
  preserves stage_frame (detach_if_staged fuel this c).
Proof.
  intros h. unfold post, detach_if_staged. destruct (stage _).
  - apply removeStageReference_frame.
  - done.
Qed.

Lemma removeChildAt_run fuel this index c h :
  0 ≤ index < Z.of_nat (length (children (obj h this))) →
  children (obj h this) !! Z.to_nat index = Some c →
  removeChildAt fuel this index h
  = match detach_if_staged fuel this c h with
    | Ok _ h0 => Ok c (unlink this c (Z.to_nat index) h0)
    | Throw e h0 => Throw e h0
    | OutOfFuel => OutOfFuel
    end.
Proof.
  intros Hr Hc. unfold removeChildAt.
  rewrite (bind_Ok _ _ _ _ _ (getChildAt_Ok this index h Hr)), Hc.
  unfold bind at 1, get at 1. unfold detach_if_staged.
  assert (Hrest : ∀ h0,
    (let* _ := modify c (set_parent None) in
     let* _ := modify this
                 (fun o => set_children (splice (children o) index 1 []).2 o) in
     ret c) h0 = Ok c (unlink this c (Z.to_nat index) h0)).
  { intros h0. unfold bind, modify, ret, unlink. f_equal. unfold upd at 1 3.
    by rewrite splice_delete by lia. }
  destruct (stage (obj h this)).
  - unfold bind at 1. destruct (removeStageReference fuel c h); [apply Hrest|done..].
  - unfold bind at 1, ret at 1. apply Hrest.
Qed.


Lemma removeChild_absent fuel this child h :
  child ∉ children (obj h this) → removeChild fuel this child h = Ok None h.
Proof.
  intros Hin. unfold removeChild, bind, get.
  apply indexOf_not_elem_of in Hin. by rewrite Hin.
Qed.

Lemma removeChild_present fuel this child h :
  child ∈ children (obj h this) →
  removeChild fuel this child h
  = match detach_if_staged fuel this child h with
    | Ok _ h0 =>
        Ok (Some child)
          (unlink this child (Z.to_nat (indexOf (children (obj h this)) child)) h0)
    | Throw e h0 => Throw e h0
    | OutOfFuel => OutOfFuel
    end.
Proof.
  intros Hin. unfold removeChild. unfold bind at 1, get at 1.
  destruct (indexOf_lookup _ _ Hin) as [Hl Hr].
  destruct (_ =? -1) eqn:E; [apply Z.eqb_eq in E; lia|].
  unfold bind. rewrite (removeChildAt_run _ _ _ _ _ Hr Hl).
  by destruct (detach_if_staged fuel this child h).
Qed.

(** ** Trees have no back edges *)

Lemma nodes_subtree t ts x : t ∈ ts → x ∈ nodes t → x ∈ ts ≫= nodes.
Proof. intros Ht Hx. apply list_elem_of_bind. by exists t. Qed.

Lemma shape_child_in ch t x y :
  shape ch t → x ∈ nodes t → y ∈ ch x →
  y ∈ match t with Node _ ts => ts ≫= nodes end.
Proof.
  revert x y. induction t as [r ts IH] using tree_ind'. intros x y Hs Hx Hy.
  inversion Hs as [r' ts' Hr Hts]; subst. simpl in Hx.
  rewrite Forall_forall in IH, Hts.
  assert (Hsub : ∀ t x, t ∈ ts → x ∈ nodes t → y ∈ ch x → y ∈ ts ≫= nodes).
  { intros t x' Ht Hx' Hy'. specialize (IH t Ht x' y (Hts t Ht) Hx' Hy').
    apply (nodes_subtree t); [done|]. destruct t as [r' ts']. simpl.
    by apply list_elem_of_further. }
  apply elem_of_cons in Hx as [->|Hx].
  - rewrite Hr in Hy. apply list_elem_of_fmap in Hy as (t & -> & Ht).
    apply (nodes_subtree t); [done|apply root_in_nodes].
  - apply list_elem_of_bind in Hx as (t & Hx & Ht). by apply (Hsub t x).
Qed.

Lemma shape_no_back_edge ch t x :
  shape ch t → NoDup (nodes t) → x ∈ nodes t → root t ∉ ch x.
Proof.
  intros Hs Hnd Hx Hroot. pose proof (shape_child_in _ _ _ _ Hs Hx Hroot) as Hin.
  destruct t as [r ts]. simpl in *. apply NoDup_cons in Hnd as [Hr _]. done.
Qed.

(** ** The single-parent invariant *)


Lemma children_unlink this c i h x :
  children (obj (unlink this c i h) x)
  = if decide (x = this) then delete i (children (obj h this))
    else children (obj h x).
Proof.
  unfold unlink. fold (kids (upd this (fun o => set_children (delete i (children o)) o)
                               (upd c (set_parent None) h)) x).
  rewrite kids_upd_children. destruct (decide (x = this)) as [->|].
  - fold (kids (upd c (set_parent None) h) this). by rewrite kids_upd_parent.
  - by rewrite kids_upd_parent.
Qed.

Lemma parent_unlink this c i h x :
  parent (obj (unlink this c i h) x)
  = if decide (x = c) then None else parent (obj h x).
Proof. unfold unlink. by rewrite parent_upd_children, parent_upd_parent. Qed.

Lemma children_link this c i h x :
  children (obj (link this c i h) x)
  = if decide (x = this)
    then take i (children (obj h this)) ++ c :: drop i (children (obj h this))
    else children (obj h x).
Proof.
  unfold link.
  fold (kids (upd this (fun o => set_children
                                   (take i (children o) ++ c :: drop i (children o)) o)
                (upd c (set_parent (Some this)) h)) x).
  rewrite kids_upd_children. destruct (decide (x = this)) as [->|].
  - fold (kids (upd c (set_parent (Some this)) h) this). by rewrite kids_upd_parent.
  - by rewrite kids_upd_parent.
Qed.

Lemma parent_link this c i h x :
  parent (obj (link this c i h) x)
  = if decide (x = c) then Some this else parent (obj h x).
Proof. unfold link. by rewrite parent_upd_children, parent_upd_parent. Qed.

Lemma elem_of_delete_NoDup (l : list ref) i c x :
  NoDup l → l !! i = Some c → x ∈ delete i l ↔ x ∈ l ∧ x ≠ c.
Proof.
  intros Hnd Hi. rewrite <- (take_drop_middle l i c Hi) in Hnd |- * at 2.
  rewrite delete_take_drop. apply NoDup_app in Hnd as (_ & Hdis & Hnd').
  apply NoDup_cons in Hnd' as [Hc _].
  rewrite !elem_of_app, elem_of_cons. split.
  - intros [Hx|Hx]; (split; [tauto|]); intros ->.
    + apply (Hdis c Hx), list_elem_of_here.
    + done.
  - intros [[Hx|[->|Hx]] Hne]; tauto.
Qed.




(** ** Running [addChildAt] *)

Lemma addChildAt_run fuel this child index h :
  0 ≤ index ≤ Z.of_nat (length (children (obj h this))) →
  addChildAt fuel this child index h
  = bind (leave_parent fuel child)
      (fun _ => enter_parent fuel this child (Z.to_nat index)) h.
Proof.
  intros Hr. unfold addChildAt, leave_parent, enter_parent, link.
  unfold bind, get, modify, ret.
  destruct (index >=? 0) eqn:E1; [|rewrite Z.geb_leb in E1; apply Z.leb_gt in E1; lia].
  destruct (index <=? _) eqn:E2; [|apply Z.leb_gt in E2; lia]. cbn [andb].
  assert (Hsplice : ∀ h1,
    upd this (fun o => set_children (splice (children o) index 0 [child]).2 o) h1
    = upd this
        (fun o => set_children
                    (take (Z.to_nat index) (children o)
                       ++ child :: drop (Z.to_nat index) (children o)) o) h1).
  { intros h1. unfold upd. by rewrite splice_insert by lia. }
  destruct (parent (obj h child)) as [p|].
  - destruct (removeChild fuel p child h) as [v h1| |]; [|done..].
    rewrite Hsplice. destruct (stage _); [|done].
    by destruct (setStageReference _ _ _ _) as [[] ?| |].
  - rewrite Hsplice. destruct (stage _); [|done].
    by destruct (setStageReference _ _ _ _) as [[] ?| |].
Qed.

Lemma leave_parent_Ok fuel child h t :
  root t = child → shape (kids h) t → NoDup (nodes t) →
  (∀ q, parent (obj h child) = Some q → is_Some (stage (obj h q)) →
        attached_interactive h (nodes t)) →
  (depth t ≤ fuel)%nat →
  ∃ h1, leave_parent fuel child h = Ok tt h1
        ∧ (∀ q, parent (obj h child) = Some q → child ∈ children (obj h q) →
                parent (obj h1 child) = None
                ∧ children (obj h1 q)
                  = delete (Z.to_nat (indexOf (children (obj h q)) child))
                      (children (obj h q)))
        ∧ (∀ x, parent (obj h child) ≠ Some x ∨ child ∉ children (obj h x) →
                children (obj h1 x) = children (obj h x))
        ∧ (∀ x, x ≠ child → parent (obj h1 x) = parent (obj h x))
        ∧ (∀ x, x ∈ nodes t → children (obj h1 x) = children (obj h x)).
Proof.
  intros Hroot Hshape Hnd Hatt Hfuel. unfold leave_parent, bind at 1, get at 1.
  destruct (parent (obj h child)) as [q|] eqn:Hpar.
  2:{ exists h. unfold ret. split; [done|]. split; [done|]. done. }
  destruct (decide (child ∈ children (obj h q))) as [Hin|Hin].
  2:{ exists h. unfold bind. rewrite removeChild_absent by done. unfold ret.
      split; [done|]. split; [intros ? [= <-] ?; done|]. done. }
  assert (Hq : q ∉ nodes t).
  { intros Hq. apply (shape_no_back_edge _ _ _ Hshape Hnd Hq). by rewrite Hroot. }
  assert (Hdet : ∃ h0, detach_if_staged fuel q child h = Ok tt h0 ∧ stage_frame h h0).
  { unfold detach_if_staged. destruct (stage (obj h q)) eqn:Hst; [|by exists h].
    destruct (removeStageReference_tree t fuel h Hshape Hnd) as (h0 & Hrun & _);
      [by eapply Hatt|done|].
    rewrite Hroot in Hrun. exists h0. split; [done|].
    exact (post_Ok _ _ _ _ _ (removeStageReference_frame fuel child) Hrun). }
  destruct Hdet as (h0 & Hdet & Hf).
  eexists. unfold bind. rewrite removeChild_present, Hdet by done. unfold ret.
  split; [done|].
  assert (Hkids : ∀ x, children (obj h0 x) = children (obj h x))
    by (intros x; by apply stage_frame_children).
  split; [|split; [|split]].
  - intros q' [= <-] _. rewrite parent_unlink, children_unlink, Hkids.
    by destruct (decide (child = child)); destruct (decide (q = q)).
  - intros x [Hx|Hx]; rewrite children_unlink;
      (destruct (decide (x = q)) as [->|]; [done|apply Hkids]).
  - intros x Hx. rewrite parent_unlink. destruct (decide (x = child)); [done|].
    by apply stage_frame_parent.
  - intros x Hx. rewrite children_unlink.
    destruct (decide (x = q)) as [->|]; [done|apply Hkids].
Qed.

Lemma enter_parent_Ok fuel this child i h t :
  root t = child → shape (kids h) t → this ∉ nodes t → (depth t ≤ fuel)%nat →
  ∃ h', enter_parent fuel this child i h = Ok child h'
        ∧ stage_frame (link this child i h) h'.
Proof.
  intros Hroot Hshape Hthis Hfuel. unfold enter_parent.
  destruct (stage (obj (link this child i h) this)) as [s|]; [|by eexists].
  destruct (setStageReference_tree s t fuel (link this child i h)) as (h3 & Hrun);
    [|done|].
  { eapply shape_ext; [|exact Hshape]. intros x Hx. unfold kids.
    rewrite children_link. destruct (decide (x = this)) as [->|]; done. }
  rewrite Hroot in Hrun. rewrite Hrun. exists h3. split; [done|].
  exact (post_Ok _ _ _ _ _ (setStageReference_frame fuel child (Some s)) Hrun).
Qed.

Lemma addChildAt_Ok fuel this child index h t :
  0 ≤ index ≤ Z.of_nat (length (children (obj h this))) →
  parent (obj h child) ≠ Some this →
  root t = child → shape (kids h) t → NoDup (nodes t) → this ∉ nodes t →
  (∀ q, parent (obj h child) = Some q → is_Some (stage (obj h q)) →
        attached_interactive h (nodes t)) →
  (depth t ≤ fuel)%nat →
  ∃ h', addChildAt fuel this child index h = Ok child h'
        ∧ parent (obj h' child) = Some this
        ∧ children (obj h' this)
          = take (Z.to_nat index) (children (obj h this))
              ++ child :: drop (Z.to_nat index) (children (obj h this))
        ∧ (∀ q, parent (obj h child) = Some q → child ∈ children (obj h q) →
                children (obj h' q)
                = delete (Z.to_nat (indexOf (children (obj h q)) child))
                    (children (obj h q)))
        ∧ (∀ x, x ≠ this →
                parent (obj h child) ≠ Some x ∨ child ∉ children (obj h x) →
                children (obj h' x) = children (obj h x))
        ∧ (∀ x, x ≠ child → parent (obj h' x) = parent (obj h x)).
Proof.
  intros Hidx Hown Hroot Hshape Hnd Hthis Hatt Hfuel.
  destruct (leave_parent_Ok fuel child h t Hroot Hshape Hnd Hatt Hfuel)
    as (h1 & Hleave & Hq & Hother & Hpar & Hin).
  destruct (enter_parent_Ok fuel this child (Z.to_nat index) h1 t) as (h' & Henter & Hf);
    [done| |done|done|].
  { eapply shape_ext; [|exact Hshape]. intros x Hx. unfold kids. by apply Hin. }
  exists h'. rewrite addChildAt_run by done.
  rewrite (bind_Ok _ _ _ _ _ Hleave). split; [done|].
  assert (Hchild : child ≠ this).
  { intros ->. apply Hthis. rewrite <- Hroot. apply root_in_nodes. }
  split; [|split; [|split; [|split]]].
  - rewrite (stage_frame_parent _ _ _ Hf), parent_link.
    by destruct (decide (child = child)).
  - rewrite (stage_frame_children _ _ _ Hf), children_link.
    destruct (decide (this = this)); [|done]. rewrite Hother; [done|by left].
  - intros q Hpq Hcq. rewrite (stage_frame_children _ _ _ Hf), children_link.
    destruct (decide (q = this)) as [->|]; [done|]. by apply Hq.
  - intros x Hx Hcase. rewrite (stage_frame_children _ _ _ Hf), children_link.
    destruct (decide (x = this)); [done|]. by apply Hother.
  - intros x Hx. rewrite (stage_frame_parent _ _ _ Hf), parent_link.
    destruct (decide (x = child)); [done|]. by apply Hpar.
Qed.

(** ** Insertion within bounds *)

(** C1, on the code: a child that the container already owns is first
    taken out of the list, so inserting it again leaves the length as it
    was, and at the append position the child ends one place before the
    index asked for. *)
Lemma addChildAt_own_child_counterexample :
  0 ≤ 2 ≤ Z.of_nat (length (children (obj two_children 1%nat)))
  ∧ ¬ ∃ fuel h',
        addChildAt fuel 1%nat 2%nat 2 two_children = Ok 2%nat h'
        ∧ parent (obj h' 2%nat) = Some 1%nat
        ∧ getChildAt 1%nat 2 h' = Ok (Some 2%nat) h'
        ∧ length (children (obj h' 1%nat))
          = S (length (children (obj two_children 1%nat))).
Proof.
  split; [vm_compute; split; discriminate|].
  intros (fuel & h' & Hrun & _ & _ & Hlen).
  vm_compute in Hrun. injection Hrun as <-. vm_compute in Hlen. discriminate.
Qed.

(** C1, amended: for an index in [[0, length]] and a child whose parent is
    not already this container, where the child heads a finite subtree
    without repeated nodes that does not contain the container (and, when
    the previous parent is on a stage, whose interactive nodes are on a
    stage too), [addChildAt] returns the child once the fuel covers the
    depth of the subtree; afterwards the child's parent is the container,
    [getChildAt] at the index returns the child, and the container has one
    child more. *)
Theorem addChildAt_inserts fuel this child index h t :
  0 ≤ index ≤ Z.of_nat (length (children (obj h this))) →
  parent (obj h child) ≠ Some this →
  root t = child → shape (kids h) t → NoDup (nodes t) → this ∉ nodes t →
  (∀ q, parent (obj h child) = Some q → is_Some (stage (obj h q)) →
        attached_interactive h (nodes t)) →
  (depth t ≤ fuel)%nat →
  ∃ h', addChildAt fuel this child index h = Ok child h'
        ∧ parent (obj h' child) = Some this
        ∧ getChildAt this index h' = Ok (Some child) h'
        ∧ length (children (obj h' this)) = S (length (children (obj h this))).
Proof.
  intros Hidx Hown Hroot Hshape Hnd Hthis Hatt Hfuel.
  destruct (addChildAt_Ok fuel this child index h t Hidx Hown Hroot Hshape Hnd
              Hthis Hatt Hfuel) as (h' & Hrun & Hpar & Hkids & _).
  exists h'. split; [done|]. split; [done|].
  assert (Hlen : length (children (obj h' this)) = S (length (children (obj h this)))).
  { rewrite Hkids, length_app, length_cons, length_take, length_drop. lia. }
  split; [|done]. rewrite getChildAt_Ok by lia. f_equal. rewrite Hkids.
  rewrite lookup_app_r; rewrite length_take; [|lia].
  by replace (Z.to_nat index - Z.to_nat index `min` length (children (obj h this)))%nat
    with 0%nat by lia.
Qed.

Lemma addChildAt_inserts_witness :
  ∃ h', addChildAt 1 5%nat 2%nat 0 two_children = Ok 2%nat h'
        ∧ parent (obj h' 2%nat) = Some 5%nat
        ∧ getChildAt 5%nat 0 h' = Ok (Some 2%nat) h'
        ∧ length (children (obj h' 5%nat))
          = S (length (children (obj two_children 5%nat))).
Proof.
  apply (addChildAt_inserts 1 5%nat 2%nat 0 two_children (Node 2%nat [])).
  - vm_compute. split; discriminate.
  - vm_compute. discriminate.
  - reflexivity.
  - constructor; [reflexivity|constructor].
  - apply NoDup_singleton.
  - intros Hin. apply list_elem_of_singleton in Hin. discriminate.
  - intros q Hq [s Hs]. vm_compute in Hq. injection Hq as <-.
    vm_compute in Hs. discriminate.
  - simpl. lia.
Defined.

(** ** Mutations keep the single-parent invariant *)



Lemma upd_upd_children this (g1 g2 : list ref → list ref) h :
  upd this (fun o => set_children (g2 (children o)) o)
    (upd this (fun o => set_children (g1 (children o)) o) h)
  = upd this (set_children (g2 (g1 (children (obj h this))))) h.
Proof. unfold upd at 1. rewrite obj_upd_eq. unfold upd. by rewrite insert_insert_eq. Qed.








(** ** Running [removeChildren] *)

Lemma orphan_run fuel this child h :
  orphan fuel this child h
  = match detach_if_staged fuel this child h with
    | Ok _ h0 => Ok tt (upd child (set_parent None) h0)
    | Throw e h0 => Throw e h0
    | OutOfFuel => OutOfFuel
    end.
Proof.
  unfold orphan, detach_if_staged, bind, get, modify, ret.
  destruct (stage (obj h this)); [|done].
  by destruct (removeStageReference fuel child h).
Qed.

Lemma eqb_zero_not_positive x : (x =? 0)%float = true → (0 <? x)%float = false.
Proof.
  rewrite FloatAxioms.eqb_spec, FloatAxioms.ltb_spec.
  change (Prim2SF 0) with (S754_zero false). unfold SFeqb, SFltb.
  by destruct (Prim2SF x) as [[]|[]| |[] m e].
Qed.

Lemma splice_numbers_integers {A} (l : list A) (start count : float) b n items :
  ToIntegerOrInfinity start = integer b → ToIntegerOrInfinity count = integer n →
  splice_numbers l start count items = splice l b n items.
Proof.
  intros Hb Hn. unfold splice_numbers, splice_start_number, splice_count_number, splice.
  by rewrite Hb, Hn.
Qed.

Lemma removeChildren_run fuel this beginIndex endIndex h :
  let l := children (obj h this) in
  let begin := or_zero beginIndex in
  let end_ := default (length_number l) endIndex in
  let range := (end_ - begin)%float in
  let b := splice_start_number (length l) begin in
  let n := splice_count_number (length l) b range in
  (0 <? range)%float = true → (range <=? end_)%float = true →
  removeChildren fuel this beginIndex endIndex h
  = bind (for_each (take n (drop b l)) (orphan fuel this))
      (fun _ => ret (take n (drop b l)))
      (upd this (set_children (take b l ++ drop (b + n) l)) h).
Proof.
  intros l begin end_ range b n H1 H2. unfold removeChildren.
  unfold bind at 1, get at 1. fold l. fold begin. fold end_. fold range.
  rewrite H1, H2. cbn [andb]. unfold bind at 1, modify at 1. reflexivity.
Qed.

Lemma removeChildren_guard fuel this beginIndex endIndex h :
  let l := children (obj h this) in
  let begin := or_zero beginIndex in
  let end_ := default (length_number l) endIndex in
  let range := (end_ - begin)%float in
  (0 <? range)%float && (range <=? end_)%float = false →
  removeChildren fuel this beginIndex endIndex h
  = if (range =? 0)%float && (length l =? 0)%nat then Ok [] h
    else Throw RangeError_removeChildren h.
Proof.
  intros l begin end_ range E. unfold removeChildren, bind, get.
  fold l. fold begin. fold end_. fold range. rewrite E.
  by destruct ((range =? 0)%float && (length l =? 0)%nat).
Qed.

Lemma orphans_inv fuel this l h h' :
  for_each l (orphan fuel this) h = Ok tt h' →
  (∀ x, children (obj h' x) = children (obj h x))
  ∧ (∀ x, x ∈ l → parent (obj h' x) = None)
  ∧ (∀ x, x ∉ l → parent (obj h' x) = parent (obj h x)).
Proof.
  revert h. induction l as [|c l IH]; intros h Hrun; simpl in Hrun.
  - injection Hrun as <-. split; [done|]. split; [|done].
    intros x Hx. by apply elem_of_nil in Hx.
  - apply bind_Ok_inv in Hrun as ([] & h1 & Hbody & Hrest).
    rewrite orphan_run in Hbody.
    destruct (detach_if_staged fuel this c h) as [[] h0| |] eqn:Hdet; [|done..].
    injection Hbody as <-.
    pose proof (post_Ok _ _ _ _ _ (detach_if_staged_frame fuel this c) Hdet) as Hf.
    destruct (IH _ Hrest) as (Hk & Hin & Hout).
    split; [|split].
    + intros x. rewrite Hk. fold (kids (upd c (set_parent None) h0) x).
      rewrite kids_upd_parent. by apply stage_frame_children.
    + intros x Hx. destruct (decide (x ∈ l)) as [Hxl|Hxl]; [by apply Hin|].
      apply elem_of_cons in Hx as [->|Hx]; [|done].
      rewrite Hout, parent_upd_parent by done. by destruct (decide (c = c)).
    + intros x Hx. apply not_elem_of_cons in Hx as [Hxc Hxl].
      rewrite Hout, parent_upd_parent by done.
      destruct (decide (x = c)); [done|]. by apply stage_frame_parent.
Qed.

Lemma orphans_unstaged fuel this l h :
  stage (obj h this) = None → ∃ h', for_each l (orphan fuel this) h = Ok tt h'.
Proof.
  revert h. induction l as [|c l IH]; intros h Hst; simpl; [by eexists|].
  assert (Hbody : orphan fuel this c h = Ok tt (upd c (set_parent None) h)).
  { rewrite orphan_run. unfold detach_if_staged. by rewrite Hst. }
  destruct (IH (upd c (set_parent None) h)) as (h' & Hrest).
  { by rewrite stage_upd_parent. }
  exists h'. by rewrite (bind_Ok _ _ _ _ _ Hbody).
Qed.

Lemma orphans_staged fuel this ts h :
  Forall (shape (kids h)) ts → NoDup (ts ≫= nodes) → this ∉ ts ≫= nodes →
  attached_interactive h (ts ≫= nodes) →
  Forall (λ t, (depth t ≤ fuel)%nat) ts →
  ∃ h', for_each (root <$> ts) (orphan fuel this) h = Ok tt h'.
Proof.
  revert h. induction ts as [|t ts IH]; intros h Hshape Hnd Hthis Hatt Hfuel; simpl;
    [by eexists|].
  apply Forall_cons in Hshape as [Hst Hshape]. apply Forall_cons in Hfuel as [Hft Hfuel].
  simpl in Hnd, Hthis, Hatt. apply NoDup_app in Hnd as (Hndt & Hdisj & Hndts).
  apply not_elem_of_app in Hthis as [Hthis1 Hthis2].
  assert (Hdet : ∃ h0, detach_if_staged fuel this (root t) h = Ok tt h0
                       ∧ stage_frame h h0
                       ∧ ∀ x, x ∉ nodes t → stage (obj h0 x) = stage (obj h x)).
  { unfold detach_if_staged. destruct (stage (obj h this)); [|by exists h].
    destruct (removeStageReference_tree t fuel h Hst Hndt) as (h0 & Hrun & Hout & _);
      [|done|].
    { intros x Hx. apply Hatt, elem_of_app. by left. }
    exists h0. split; [done|]. split; [|done].
    exact (post_Ok _ _ _ _ _ (removeStageReference_frame fuel (root t)) Hrun). }
  destruct Hdet as (h0 & Hdet & Hf & Hout).
  set (h1 := upd (root t) (set_parent None) h0).
  assert (Hbody : orphan fuel this (root t) h = Ok tt h1).
  { by rewrite orphan_run, Hdet. }
  destruct (IH h1) as (h' & Hrest); [| done | done | | done |].
  - eapply Forall_impl; [exact Hshape|]. intros t' Ht'.
    eapply shape_ext; [|exact Ht']. intros x _. unfold h1.
    rewrite kids_upd_parent. unfold kids. by apply stage_frame_children.
  - intros x Hx Hint. unfold h1 in *. rewrite stage_upd_parent.
    rewrite interactive_upd_parent in Hint.
    rewrite Hout. 2:{ intros Hxt. by apply (Hdisj x). }
    apply Hatt; [apply elem_of_app; by right|].
    by rewrite <- (stage_frame_interactive _ _ _ Hf).
  - exists h'. by rewrite (bind_Ok _ _ _ _ _ Hbody).
Qed.



Lemma removeChildren_Ok fuel this beginIndex endIndex h :
  let l := children (obj h this) in
  let begin := or_zero beginIndex in
  let end_ := default (length_number l) endIndex in
  let range := (end_ - begin)%float in
  let removed := (splice_numbers l begin range []).1 in
  (0 <? range)%float = true → (range <=? end_)%float = true →
  (stage (obj h this) = None
   ∨ (∃ ts, removed = root <$> ts
            ∧ Forall (shape (kids h)) ts ∧ NoDup (ts ≫= nodes)
            ∧ (this ∉ ts ≫= nodes) ∧ attached_interactive h (ts ≫= nodes)
            ∧ Forall (λ t, (depth t ≤ fuel)%nat) ts)) →
  ∃ h', removeChildren fuel this beginIndex endIndex h = Ok removed h'
        ∧ children (obj h' this) = (splice_numbers l begin range []).2
        ∧ ∀ c, c ∈ removed → parent (obj h' c) = None.
Proof.
  intros l begin end_ range removed H1 H2 Hcase.
  set (h1 := upd this (set_children (splice_numbers l begin range []).2) h).
  assert (Hloop : ∃ h', for_each removed (orphan fuel this) h1 = Ok tt h').
  { destruct Hcase as [Hst|(ts & Hts & Hshape & Hnd & Hthis & Hatt & Hfuel)].
    - apply orphans_unstaged. unfold h1. rewrite obj_upd_eq. exact Hst.
    - rewrite Hts. apply orphans_staged; [|done|done| |done].
      + rewrite Forall_forall in Hshape. apply Forall_forall. intros t Ht.
        eapply shape_ext; [|by apply Hshape]. intros x Hx. unfold kids, h1.
        rewrite obj_upd. destruct (decide (x = this)) as [->|]; [|done].
        exfalso. by apply Hthis, (nodes_subtree t).
      + intros x Hx. unfold h1. rewrite obj_upd.
        destruct (decide (x = this)) as [->|]; by apply Hatt. }
  destruct Hloop as (h' & Hloop). exists h'.
  rewrite removeChildren_run by done. fold l begin end_ range.
  change (bind (for_each removed (orphan fuel this)) (fun _ => ret removed) h1
          = Ok removed h' ∧ children (obj h' this) = (splice_numbers l begin range []).2
            ∧ ∀ c, c ∈ removed → parent (obj h' c) = None).
  rewrite (bind_Ok _ _ _ _ _ Hloop). split; [done|].
  apply orphans_inv in Hloop as (Hk & Hin & _). split; [|done].
  rewrite Hk. unfold h1. by rewrite obj_upd_eq.
Qed.

(** ** Removing a range of children *)

(** C3, on the code: the slice is what [splice(begin, range)] cuts out, and
    [splice] stops at the end of the list: [removeChildren(1, 5)] on two
    children passes the test ([range = 4], [0 < 4 ≤ 5]) and removes one
    child, not four. *)
Lemma removeChildren_short_slice_counterexample :
  (0 <? 5 - 1)%float = true ∧ (5 - 1 <=? 5)%float = true
  ∧ ToIntegerOrInfinity (5 - 1)%float = integer 4
  ∧ length (children (obj two_children 1%nat)) = 2%nat
  ∧ (∀ fuel, ∃ h', removeChildren fuel 1%nat (Some 1%float) (Some 5%float) two_children
                   = Ok [3%nat] h')
  ∧ ¬ ∃ fuel removed h',
        removeChildren fuel 1%nat (Some 1%float) (Some 5%float) two_children
        = Ok removed h'
        ∧ length removed = 4%nat.
Proof.
  split; [reflexivity|]. split; [reflexivity|]. split; [reflexivity|].
  split; [reflexivity|]. split.
  - intros fuel. eexists. vm_compute. reflexivity.
  - intros (fuel & removed & h' & Hrun & Hlen).
    vm_compute in Hrun. injection Hrun as <- _. discriminate.
Qed.

(** C3, amended: with [begin = beginIndex || 0], [end] the argument or the
    length, and [range = end - begin] computed on doubles: when
    [range > 0] and [range ≤ end], [removeChildren] returns what
    [splice(begin, range)] cuts out and leaves the rest in the list, and
    the parent link of every removed child is cleared, provided the
    container holds no stage reference or the removed children head
    disjoint finite subtrees, not containing the container, whose
    interactive nodes hold a stage reference.  For whole numbers
    [begin ≥ 0] and [range] what is cut out are the children from [begin]
    on, [range] of them when that many exist from [begin] on and those that
    exist otherwise.  When [range == 0] on an empty container it returns
    the empty sequence and writes nothing; in every other case it throws
    the RangeError with the heap as it was.  The test is [range ≤ end]:
    nothing compares [end] with the length. *)
Theorem removeChildren_cases fuel this beginIndex endIndex h :
  let l := children (obj h this) in
  let begin := or_zero beginIndex in
  let end_ := default (length_number l) endIndex in
  let range := (end_ - begin)%float in
  let removed := (splice_numbers l begin range []).1 in
  let rest := (splice_numbers l begin range []).2 in
  ((0 <? range)%float = true → (range <=? end_)%float = true →
   (stage (obj h this) = None
    ∨ (∃ ts, removed = root <$> ts
             ∧ Forall (shape (kids h)) ts ∧ NoDup (ts ≫= nodes)
             ∧ (this ∉ ts ≫= nodes) ∧ attached_interactive h (ts ≫= nodes)
             ∧ Forall (λ t, (depth t ≤ fuel)%nat) ts)) →
   ∃ h', removeChildren fuel this beginIndex endIndex h = Ok removed h'
         ∧ children (obj h' this) = rest
         ∧ (∀ c, c ∈ removed → parent (obj h' c) = None)
         ∧ (∀ b n,
              ToIntegerOrInfinity begin = integer b →
              ToIntegerOrInfinity range = integer n → 0 ≤ b → 0 ≤ n →
              removed = take (Z.to_nat n) (drop (Z.to_nat b) l)
              ∧ rest = take (Z.to_nat b) l ++ drop (Z.to_nat b + Z.to_nat n) l
              ∧ (b + n ≤ Z.of_nat (length l) → length removed = Z.to_nat n)
              ∧ (Z.of_nat (length l) < b + n →
                 length removed = (length l - Z.to_nat b)%nat)))
  ∧ ((range =? 0)%float = true → l = [] →
     removeChildren fuel this beginIndex endIndex h = Ok [] h)
  ∧ (¬ ((0 <? range)%float = true ∧ (range <=? end_)%float = true) →
     ¬ ((range =? 0)%float = true ∧ l = []) →
     removeChildren fuel this beginIndex endIndex h
     = Throw RangeError_removeChildren h).
Proof.
  intros l begin end_ range removed rest. split; [|split].
  - intros H1 H2 Hcase.
    destruct (removeChildren_Ok fuel this beginIndex endIndex h H1 H2 Hcase)
      as (h' & Hrun & Hkids & Hpar).
    exists h'. split; [done|]. split; [done|]. split; [done|].
    intros b n Hb Hn Hb0 Hn0. unfold removed, rest.
    rewrite (splice_numbers_integers _ _ _ _ _ _ Hb Hn), splice_nonneg by done.
    cbn [fst snd app]. split; [done|]. split; [done|].
    rewrite length_take, length_drop. split; lia.
  - intros Hrange Hl. rewrite removeChildren_guard.
    + fold l begin end_ range. by rewrite Hrange, Hl.
    + fold l begin end_ range. by rewrite (eqb_zero_not_positive _ Hrange).
  - intros Hr Hz. rewrite removeChildren_guard.
    + fold l begin end_ range.
      destruct ((range =? 0)%float && (length l =? 0)%nat) eqn:E; [|done].
      apply andb_true_iff in E as [E1 E2]. apply Nat.eqb_eq in E2.
      exfalso. apply Hz. split; [done|]. by apply length_zero_iff_nil.
    + fold l begin end_ range.
      destruct (0 <? range)%float eqn:E1; [|done].
      destruct (range <=? end_)%float eqn:E2; [|done]. exfalso. by apply Hr.
Qed.

(** The slice [[1, 2)] of two children; and a range that the subtraction
    rounds: [2^53 - (-1)] is [2^53], which passes the test, and the splice
    from [-1] takes the last child. *)
Lemma removeChildren_cases_witness :
  ((0 <? 2 - 1)%float = true ∧ (2 - 1 <=? 2)%float = true
   ∧ stage (obj two_children 1%nat) = None
   ∧ ∃ h', removeChildren 0 1%nat (Some 1%float) (Some 2%float) two_children
           = Ok [3%nat] h'
           ∧ children (obj h' 1%nat) = [2%nat]
           ∧ ∀ c, c ∈ [3%nat] → parent (obj h' c) = None)
  ∧ ((9007199254740992 - -1)%float = 9007199254740992%float
     ∧ ∃ h', removeChildren 0 1%nat (Some (-1)%float) (Some 9007199254740992%float)
               two_children
             = Ok [3%nat] h'
             ∧ children (obj h' 1%nat) = [2%nat]).
Proof.
  split.
  - split; [reflexivity|]. split; [reflexivity|]. split; [reflexivity|].
    destruct (removeChildren_cases 0 1%nat (Some 1%float) (Some 2%float) two_children)
      as (H & _).
    destruct H as (h' & Hrun & Hkids & Hpar & _);
      [reflexivity|reflexivity|left; reflexivity|].
    exists h'. split; [exact Hrun|]. split; [exact Hkids|exact Hpar].
  - split; [reflexivity|].
    destruct (removeChildren_cases 0 1%nat (Some (-1)%float)
                (Some 9007199254740992%float) two_children) as (H & _).
    destruct H as (h' & Hrun & Hkids & _);
      [reflexivity|reflexivity|left; reflexivity|].
    exists h'. split; [exact Hrun|exact Hkids].
Defined.

(** ** The single-parent invariant under every mutation *)






















(** ** Detaching needs a stage on interactive nodes *)

#[local] Instance keeps_unstaged_refl : Reflexive keeps_unstaged.
Proof. by intros h x. Qed.

#[local] Instance keeps_unstaged_trans : Transitive keeps_unstaged.
Proof. intros h1 h2 h3 H12 H23 x Hx. by apply H23, H12. Qed.










(** ** The order of doubles *)

Lemma SFcompare_key f1 f2 :
  f1 ≠ S754_nan → f2 ≠ S754_nan →
  ∃ c, SFcompare f1 f2 = Some c
       ∧ match c with
         | Lt => key_lt (sf_key f1) (sf_key f2)
         | Eq => sf_key f1 = sf_key f2
         | Gt => key_lt (sf_key f2) (sf_key f1)
         end.
Proof.
  intros H1 H2.
  destruct f1 as [s1|s1| |s1 m1 e1], f2 as [s2|s2| |s2 m2 e2]; try done;
    try destruct s1; try destruct s2; simpl; eexists; (split; [reflexivity|]);
    simpl; try lia; try reflexivity.
  - destruct (Z.compare_spec e1 e2); simpl; try lia.
    rewrite Pos.compare_cont_spec. simpl.
    destruct (Pos.compare_spec m1 m2); simpl; subst; try lia. done.
  - destruct (Z.compare_spec e1 e2); simpl; try lia.
    rewrite Pos.compare_cont_spec. simpl.
    destruct (Pos.compare_spec m1 m2); simpl; subst; try lia. done.
Qed.

Lemma not_nan_spec v : not_nan v → Prim2SF v ≠ S754_nan.
Proof.
  unfold not_nan. rewrite FloatAxioms.eqb_spec. intros H Hnan. rewrite Hnan in H. done.
Qed.

Lemma key_lt_cases a b : key_lt a b ∨ a = b ∨ key_lt b a.
Proof.
  destruct a as [[a1 a2] a3], b as [[b1 b2] b3]. unfold key_lt.
  destruct (decide (a1 = b1)), (decide (a2 = b2)), (decide (a3 = b3)); subst;
    try (right; left; reflexivity); lia.
Qed.

Lemma key_lt_asym a b : key_lt a b → ¬ (a = b ∨ key_lt b a).
Proof.
  destruct a as [[a1 a2] a3], b as [[b1 b2] b3]. unfold key_lt.
  intros H [[= -> -> ->]|H']; lia.
Qed.

Lemma key_lt_trans a b c : key_lt a b → key_lt b c → key_lt a c.
Proof.
  destruct a as [[a1 a2] a3], b as [[b1 b2] b3], c as [[c1 c2] c3]. unfold key_lt. lia.
Qed.

Lemma ltb_key a b :
  not_nan a → not_nan b → (a <? b)%float = true ↔ key_lt (key a) (key b).
Proof.
  intros Ha%not_nan_spec Hb%not_nan_spec. rewrite FloatAxioms.ltb_spec. unfold SFltb, key.
  destruct (SFcompare_key _ _ Ha Hb) as (c & -> & Hc).
  destruct c; split; try done; intros H.
  - exfalso. apply (key_lt_asym _ _ H). by left.
  - exfalso. apply (key_lt_asym _ _ H). by right.
Qed.

Lemma leb_key a b :
  not_nan a → not_nan b →
  (a <=? b)%float = true ↔ key_lt (key a) (key b) ∨ key a = key b.
Proof.
  intros Ha%not_nan_spec Hb%not_nan_spec. rewrite FloatAxioms.leb_spec. unfold SFleb, key.
  destruct (SFcompare_key _ _ Ha Hb) as (c & -> & Hc).
  destruct c; split; try done; try tauto; intros [H|H].
  - exfalso. apply (key_lt_asym _ _ Hc). by right.
  - exfalso. apply (key_lt_asym _ _ Hc). by left.
Qed.

Lemma leb_refl a : not_nan a → (a <=? a)%float = true.
Proof. intros Ha. apply leb_key; [done..|]. by right. Qed.

Lemma leb_trans a b c :
  not_nan a → not_nan b → not_nan c →
  (a <=? b)%float = true → (b <=? c)%float = true → (a <=? c)%float = true.
Proof.
  intros Ha Hb Hc Hab%leb_key Hbc%leb_key; [|done..]. apply leb_key; [done..|].
  destruct Hab as [Hab|Hab], Hbc as [Hbc|Hbc].
  - left. by eapply key_lt_trans.
  - left. by rewrite <- Hbc.
  - left. by rewrite Hab.
  - right. congruence.
Qed.

Lemma ltb_leb a b :
  not_nan a → not_nan b → (a <? b)%float = true → (a <=? b)%float = true.
Proof. intros Ha Hb Hlt%ltb_key; [|done..]. apply leb_key; [done..|]. by left. Qed.

Lemma not_ltb_leb a b :
  not_nan a → not_nan b → (a <? b)%float = false → (b <=? a)%float = true.
Proof.
  intros Ha Hb Hlt. apply leb_key; [done..|].
  destruct (key_lt_cases (key a) (key b)) as [H|[H|H]]; [|by right|by left].
  apply ltb_key in H; [congruence|done..].
Qed.

Lemma infinity_not_ltb v : (infinity <? v)%float = false.
Proof.
  rewrite FloatAxioms.ltb_spec. unfold SFltb. change (Prim2SF infinity) with (S754_infinity false).
  by destruct (Prim2SF v) as [|[]| |].
Qed.

Lemma not_ltb_neg_infinity v : (v <? neg_infinity)%float = false.
Proof.
  rewrite FloatAxioms.ltb_spec. unfold SFltb.
  change (Prim2SF neg_infinity) with (S754_infinity true).
  by destruct (Prim2SF v) as [[]|[]| |[]].
Qed.

(** ** Running extrema *)

Lemma foldl_js_min vs m0 :
  not_nan m0 → Forall not_nan vs →
  let m := foldl js_min m0 vs in
  not_nan m ∧ (m = m0 ∨ m ∈ vs) ∧ (m <=? m0)%float = true
  ∧ ∀ v, v ∈ vs → (m <=? v)%float = true.
Proof.
  revert m0. induction vs as [|v vs IH]; intros m0 Hm0 Hvs; simpl.
  - split; [done|]. split; [by left|]. split; [by apply leb_refl|].
    intros v Hv. by apply elem_of_nil in Hv.
  - apply Forall_cons in Hvs as [Hv Hvs].
    assert (Hstep : not_nan (js_min m0 v)
                    ∧ (js_min m0 v <=? m0)%float = true
                    ∧ (js_min m0 v <=? v)%float = true
                    ∧ (js_min m0 v = m0 ∨ js_min m0 v = v)).
    { unfold js_min. destruct (m0 <? v)%float eqn:E.
      - split; [done|]. split; [by apply leb_refl|]. split; [by apply ltb_leb|by left].
      - split; [done|]. split; [by apply not_ltb_leb|]. split; [by apply leb_refl|by right]. }
    destruct Hstep as (Hn & Hle0 & Hlev & Hcase).
    destruct (IH (js_min m0 v) Hn Hvs) as (Hn' & Hin & Hle & Hall).
    split; [done|]. split; [|split].
    + destruct Hin as [->|Hin]; [|right; by apply list_elem_of_further].
      destruct Hcase as [->| ->]; [by left|right; apply list_elem_of_here].
    + by apply (leb_trans _ (js_min m0 v)).
    + intros w Hw. apply elem_of_cons in Hw as [->|Hw]; [|by apply Hall].
      by apply (leb_trans _ (js_min m0 v)).
Qed.

Lemma foldl_js_max vs m0 :
  not_nan m0 → Forall not_nan vs →
  let m := foldl js_max m0 vs in
  not_nan m ∧ (m = m0 ∨ m ∈ vs) ∧ (m0 <=? m)%float = true
  ∧ ∀ v, v ∈ vs → (v <=? m)%float = true.
Proof.
  revert m0. induction vs as [|v vs IH]; intros m0 Hm0 Hvs; simpl.
  - split; [done|]. split; [by left|]. split; [by apply leb_refl|].
    intros v Hv. by apply elem_of_nil in Hv.
  - apply Forall_cons in Hvs as [Hv Hvs].
    assert (Hstep : not_nan (js_max m0 v)
                    ∧ (m0 <=? js_max m0 v)%float = true
                    ∧ (v <=? js_max m0 v)%float = true
                    ∧ (js_max m0 v = m0 ∨ js_max m0 v = v)).
    { unfold js_max. destruct (v <? m0)%float eqn:E.
      - split; [done|]. split; [by apply leb_refl|]. split; [by apply ltb_leb|by left].
      - split; [done|]. split; [by apply not_ltb_leb|]. split; [by apply leb_refl|by right]. }
    destruct Hstep as (Hn & Hle0 & Hlev & Hcase).
    destruct (IH (js_max m0 v) Hn Hvs) as (Hn' & Hin & Hle & Hall).
    split; [done|]. split; [|split].
    + destruct Hin as [->|Hin]; [|right; by apply list_elem_of_further].
      destruct Hcase as [->| ->]; [by left|right; apply list_elem_of_here].
    + by apply (leb_trans _ (js_max m0 v)).
    + intros w Hw. apply elem_of_cons in Hw as [->|Hw]; [|by apply Hall].
      by apply (leb_trans _ (js_max m0 v)).
Qed.

Lemma foldl_js_min_infinity vs :
  vs ≠ [] → Forall not_nan vs → is_min (foldl js_min infinity vs) vs.
Proof.
  destruct vs as [|v vs]; [done|]. intros _ Hvs. simpl.
  unfold js_min at 2. rewrite infinity_not_ltb.
  apply Forall_cons in Hvs as [Hv Hvs].
  destruct (foldl_js_min vs v Hv Hvs) as (_ & Hin & Hle & Hall). split.
  - destruct Hin as [->|Hin]; [apply list_elem_of_here|by apply list_elem_of_further].
  - intros w Hw. apply elem_of_cons in Hw as [->|Hw]; [done|by apply Hall].
Qed.

Lemma foldl_js_max_neg_infinity vs :
  vs ≠ [] → Forall not_nan vs → is_max (foldl js_max neg_infinity vs) vs.
Proof.
  destruct vs as [|v vs]; [done|]. intros _ Hvs. simpl.
  unfold js_max at 2. rewrite not_ltb_neg_infinity.
  apply Forall_cons in Hvs as [Hv Hvs].
  destruct (foldl_js_max vs v Hv Hvs) as (_ & Hin & Hle & Hall). split.
  - destruct Hin as [->|Hin]; [apply list_elem_of_here|by apply list_elem_of_further].
  - intros w Hw. apply elem_of_cons in Hw as [->|Hw]; [done|by apply Hall].
Qed.

(** ** Bounds of a container with visible children *)

#[local] Instance bounds_frame_refl : Reflexive bounds_frame.
Proof. by intros h r. Qed.

#[local] Instance bounds_frame_trans : Transitive bounds_frame.
Proof. intros h1 h2 h3 H12 H23 r. by rewrite H23. Qed.

Lemma bounds_frame_children h h' r :
  bounds_frame h h' → children (obj h' r) = children (obj h r).
Proof. intros H. exact (f_equal children (H r)). Qed.

Lemma getBounds_frame fuel this : preserves bounds_frame (getBounds fuel this).
Proof.
  revert this. induction fuel as [|fuel IH]; intros this; simpl; pres.
  destruct (_ =? 0); pres.
  - destruct (negb _); pres. destruct (class _); pres. apply IH.
  - destruct (negb _); pres. intros r. rewrite obj_upd.
    by destruct (decide (r = this)) as [->|].
Qed.

Lemma child_getBounds_frame fuel c : preserves bounds_frame (child_getBounds fuel c).
Proof. unfold child_getBounds. pres. destruct (class _); pres. apply getBounds_frame. Qed.

Lemma getBounds_unfold fuel this h :
  getBounds (S fuel) this h
  = (let* o := get this in
     if Z.of_nat (length (children o)) =? 0 then ret EMPTY_ref
     else
       let* acc := for_loop (length (children o)) 0 (bounds_body fuel this)
                     bounds_init in
       if negb (childVisible acc) then ret EMPTY_ref
       else
         let* _ := modify this
                     (set_bounds
                        (Rectangle.mk (minX acc) (minY acc)
                           (maxX acc - minX acc) (maxY acc - minY acc))) in
         ret (bounds_ref this)) h.
Proof. reflexivity. Qed.

Lemma getBounds_loop fuel this cs :
  ∀ i h acc rs h1,
    drop i (children (obj h this)) = cs →
    child_bounds fuel cs h = Ok rs h1 →
    for_loop (length cs) i (bounds_body fuel this) acc h
    = Ok (foldl bounds_step acc rs) h1.
Proof.
  induction cs as [|c cs IH]; intros i h acc rs h1 Hdrop Hcb; simpl in *.
  - by injection Hcb as <- <-.
  - apply drop_cons_inv in Hdrop as [Hi Hdrop].
    unfold bind at 1, get at 1 in Hcb.
    assert (Hat : child_at this i h = Ok c h) by by apply child_at_Ok.
    destruct (visible (obj h c)) eqn:Hvis.
    + apply bind_Ok_inv in Hcb as (b & h2 & Hb & Hcb).
      apply bind_Ok_inv in Hcb as (r & h2' & Hr & Hcb).
      unfold deref in Hr. injection Hr as <- <-.
      apply bind_Ok_inv in Hcb as (rs' & h3 & Hrs & Hret).
      injection Hret as <- <-.
      pose proof (post_Ok _ _ _ _ _ (child_getBounds_frame fuel c) Hb) as Hf.
      assert (Hbody : bounds_body fuel this i acc h
                      = Ok (bounds_step acc (rect h2 b)) h2).
      { unfold bounds_body. rewrite (bind_Ok _ _ _ _ _ Hat).
        unfold bind at 1, get at 1. rewrite Hvis. cbn [negb].
        rewrite (bind_Ok _ _ _ _ _ Hat). unfold bind at 1, get at 1.
        unfold child_getBounds, bind at 1, get at 1 in Hb.
        rewrite (bind_Ok _ _ _ _ _ Hb). done. }
      rewrite (bind_Ok _ _ _ _ _ Hbody). simpl. apply IH; [|done].
      by rewrite (bounds_frame_children _ _ _ Hf).
    + assert (Hbody : bounds_body fuel this i acc h = Ok acc h).
      { unfold bounds_body. rewrite (bind_Ok _ _ _ _ _ Hat).
        unfold bind at 1, get at 1. by rewrite Hvis. }
      rewrite (bind_Ok _ _ _ _ _ Hbody). by apply IH.
Qed.

Lemma childVisible_foldl acc rs :
  childVisible (foldl bounds_step acc rs)
  = if rs is [] then childVisible acc else true.
Proof.
  revert acc. induction rs as [|r rs IH]; intros acc; [done|]. simpl.
  rewrite IH. by destruct rs.
Qed.

Lemma minX_foldl acc rs :
  minX (foldl bounds_step acc rs) = foldl js_min (minX acc) (Rectangle.x <$> rs).
Proof. revert acc. induction rs as [|r rs IH]; intros acc; [done|]. simpl. by rewrite IH. Qed.

Lemma minY_foldl acc rs :
  minY (foldl bounds_step acc rs) = foldl js_min (minY acc) (Rectangle.y <$> rs).
Proof. revert acc. induction rs as [|r rs IH]; intros acc; [done|]. simpl. by rewrite IH. Qed.

Lemma maxX_foldl acc rs :
  maxX (foldl bounds_step acc rs)
  = foldl js_max (maxX acc)
      ((fun r => (Rectangle.width r + Rectangle.x r)%float) <$> rs).
Proof. revert acc. induction rs as [|r rs IH]; intros acc; [done|]. simpl. by rewrite IH. Qed.

Lemma maxY_foldl acc rs :
  maxY (foldl bounds_step acc rs)
  = foldl js_max (maxY acc)
      ((fun r => (Rectangle.height r + Rectangle.y r)%float) <$> rs).
Proof. revert acc. induction rs as [|r rs IH]; intros acc; [done|]. simpl. by rewrite IH. Qed.

Lemma getBounds_run fuel this h rs h1 :
  child_bounds fuel (children (obj h this)) h = Ok rs h1 →
  getBounds (S fuel) this h
  = if rs is [] then Ok EMPTY_ref h1
    else
      let acc := foldl bounds_step bounds_init rs in
      Ok (bounds_ref this)
        (upd this
           (set_bounds
              (Rectangle.mk (minX acc) (minY acc)
                 (maxX acc - minX acc) (maxY acc - minY acc))) h1).
Proof.
  intros Hcb. rewrite getBounds_unfold. unfold bind at 1, get at 1.
  destruct (Z.of_nat (length (children (obj h this))) =? 0) eqn:E.
  - apply Z.eqb_eq in E. destruct (children (obj h this)); [|simpl in E; lia].
    simpl in Hcb. by injection Hcb as <- <-.
  - rewrite (bind_Ok _ _ _ _ _
               (getBounds_loop fuel this _ 0%nat h bounds_init rs h1 eq_refl Hcb)).
    rewrite childVisible_foldl. by destruct rs.
Qed.

Lemma child_bounds_nonempty fuel cs h rs h1 :
  child_bounds fuel cs h = Ok rs h1 →
  (∃ c, c ∈ cs ∧ visible (obj h c) = true) → rs ≠ [].
Proof.
  revert rs. induction cs as [|c cs IH]; intros rs Hcb (c' & Hc' & Hvis).
  { by apply elem_of_nil in Hc'. }
  simpl in Hcb. unfold bind at 1, get at 1 in Hcb.
  destruct (visible (obj h c)) eqn:Hv.
  - apply bind_Ok_inv in Hcb as (b & h2 & _ & Hcb).
    apply bind_Ok_inv in Hcb as (r & h2' & _ & Hcb).
    apply bind_Ok_inv in Hcb as (rs' & h3 & _ & Hret). by injection Hret as <- _.
  - apply IH; [done|]. exists c'. split; [|done].
    apply elem_of_cons in Hc' as [->|Hc']; [congruence|done].
Qed.

Lemma child_bounds_forest fuel ts :
  Forall measures ts →
  ∀ h, Forall (shape (kids h)) ts → Forall (λ t, (depth t ≤ fuel)%nat) ts →
       ∃ rs h1, child_bounds fuel (root <$> ts) h = Ok rs h1.
Proof.
  induction ts as [|t ts IH]; intros Hm h Hshape Hfuel; simpl; [by eexists _, _|].
  apply Forall_cons in Hm as [Ht Hm]. apply Forall_cons in Hshape as [Hst Hshape].
  apply Forall_cons in Hfuel as [Hft Hfuel].
  unfold bind at 1, get at 1. destruct (visible (obj h (root t))); [|by apply IH].
  assert (Hb : ∃ b h2, child_getBounds fuel (root t) h = Ok b h2).
  { unfold child_getBounds, bind, get. destruct (class _); [by apply Ht|by eexists _, _]. }
  destruct Hb as (b & h2 & Hb).
  pose proof (post_Ok _ _ _ _ _ (child_getBounds_frame fuel (root t)) Hb) as Hf.
  destruct (IH Hm h2) as (rs & h1 & Hrs); [|done|].
  { eapply Forall_impl; [exact Hshape|]. intros t'. apply shape_ext.
    intros x _. unfold kids. by apply bounds_frame_children. }
  exists (rect h2 b :: rs), h1. rewrite (bind_Ok _ _ _ _ _ Hb).
  unfold bind at 1, deref at 1. by rewrite (bind_Ok _ _ _ _ _ Hrs).
Qed.

Lemma child_bounds_tree r ts fuel h :
  Forall measures ts → shape (kids h) (Node r ts) →
  (depth (Node r ts) ≤ S fuel)%nat →
  ∃ rs h1, child_bounds fuel (children (obj h r)) h = Ok rs h1.
Proof.
  intros Hm Hshape Hfuel. inversion Hshape as [r' ts' Hr Hts]; subst.
  fold (kids h r). rewrite Hr. apply child_bounds_forest; [done|done|].
  by apply (depth_subtrees fuel r).
Qed.

Lemma getBounds_tree t : measures t.
Proof.
  induction t as [r ts IH] using tree_ind'. intros fuel h Hshape Hfuel.
  destruct fuel as [|fuel]; [simpl in Hfuel; lia|].
  destruct (child_bounds_tree r ts fuel h IH Hshape Hfuel) as (rs & h1 & Hcb).
  simpl root. rewrite (getBounds_run _ _ _ _ _ Hcb). destruct rs; by eexists _, _.
Qed.

(** C6, on the code: the running minimum [minX < x ? minX : x] takes the
    [x] of a child that is not a number and then the [x] of the next child,
    whatever came before.  Over visible children at [x = 0], at an [x] that
    is not a number and at [x = 20], [getBounds] returns [x = 20], which is
    not the least of the three: the child at 0 lies left of the bounds. *)
Lemma getBounds_extrema_nan_counterexample :
  (∃ c, c ∈ children (obj nan_between 1%nat) ∧ visible (obj nan_between c) = true)
  ∧ child_bounds 0 (children (obj nan_between 1%nat)) nan_between
    = Ok [Rectangle.mk 0 0 10 10; Rectangle.mk nan 0 1 1; Rectangle.mk 20 20 5 5]
        nan_between
  ∧ (∀ fuel, ∃ h', getBounds (S fuel) 1%nat nan_between = Ok (bounds_ref 1%nat) h'
                   ∧ Rectangle.x (rect h' (bounds_ref 1%nat)) = 20%float)
  ∧ (0 <? 20)%float = true
  ∧ ¬ ∃ fuel b h',
        getBounds fuel 1%nat nan_between = Ok b h'
        ∧ is_min (Rectangle.x (rect h' b)) [0; nan; 20]%float.
Proof.
  split. { exists 2%nat. split; [apply list_elem_of_here|reflexivity]. }
  split; [reflexivity|].
  split. { intros fuel. eexists. split; [vm_compute; reflexivity|reflexivity]. }
  split; [reflexivity|].
  intros (fuel & b & h' & Hrun & _ & Hle).
  destruct fuel as [|fuel]; vm_compute in Hrun; [discriminate|].
  injection Hrun as <- <-.
  specialize (Hle 0%float (list_elem_of_here _ _)). vm_compute in Hle. discriminate.
Qed.

(** C6, amended: on a container that heads a finite tree and has a visible
    direct child, [getBounds] returns the container's own rectangle, set to
    [(minX, minY, maxX - minX, maxY - minY)]; over the rectangles [rs] that
    the visible children report, [minX] and [minY] are least among the [x]
    and [y] components, and [maxX] and [maxY] greatest among the sums
    [width + x] and [height + y], whenever those components are numbers.
    When the children report [(0,0,10,10)] and [(20,20,5,5)] the rectangle
    is [(0,0,25,25)]. *)
Theorem getBounds_extrema fuel this h t :
  root t = this → shape (kids h) t → (depth t ≤ S fuel)%nat →
  (∃ c, c ∈ children (obj h this) ∧ visible (obj h c) = true) →
  ∃ rs h1 h' mnX mnY mxX mxY,
    child_bounds fuel (children (obj h this)) h = Ok rs h1
    ∧ rs ≠ []
    ∧ getBounds (S fuel) this h = Ok (bounds_ref this) h'
    ∧ rect h' (bounds_ref this)
      = Rectangle.mk mnX mnY (mxX - mnX)%float (mxY - mnY)%float
    ∧ (Forall not_nan (Rectangle.x <$> rs) → is_min mnX (Rectangle.x <$> rs))
    ∧ (Forall not_nan (Rectangle.y <$> rs) → is_min mnY (Rectangle.y <$> rs))
    ∧ (Forall not_nan ((fun r => (Rectangle.width r + Rectangle.x r)%float) <$> rs) →
       is_max mxX ((fun r => (Rectangle.width r + Rectangle.x r)%float) <$> rs))
    ∧ (Forall not_nan ((fun r => (Rectangle.height r + Rectangle.y r)%float) <$> rs) →
       is_max mxY ((fun r => (Rectangle.height r + Rectangle.y r)%float) <$> rs))
    ∧ (rs = [Rectangle.mk 0 0 10 10; Rectangle.mk 20 20 5 5] →
       rect h' (bounds_ref this) = Rectangle.mk 0 0 25 25).
Proof.
  intros Hroot Hshape Hfuel Hvis. destruct t as [r ts]. simpl in Hroot. subst r.
  assert (Hm : Forall measures ts).
  { apply Forall_forall. intros t _. apply getBounds_tree. }
  destruct (child_bounds_tree this ts fuel h Hm Hshape Hfuel) as (rs & h1 & Hcb).
  pose proof (child_bounds_nonempty _ _ _ _ _ Hcb Hvis) as Hne.
  set (acc := foldl bounds_step bounds_init rs).
  exists rs, h1,
    (upd this
       (set_bounds
          (Rectangle.mk (minX acc) (minY acc)
             (maxX acc - minX acc) (maxY acc - minY acc))) h1),
    (minX acc), (minY acc), (maxX acc), (maxY acc).
  split; [done|]. split; [done|].
  split. { rewrite (getBounds_run _ _ _ _ _ Hcb). destruct rs; [done|]. reflexivity. }
  split. { simpl. by rewrite obj_upd_eq. }
  assert (Hne' : ∀ {B} (f : Rectangle.t → B), f <$> rs ≠ []).
  { intros B f Heq. apply fmap_nil_inv in Heq. done. }
  split. { intros Hn. unfold acc. rewrite minX_foldl. by apply foldl_js_min_infinity. }
  split. { intros Hn. unfold acc. rewrite minY_foldl. by apply foldl_js_min_infinity. }
  split. { intros Hn. unfold acc. rewrite maxX_foldl. by apply foldl_js_max_neg_infinity. }
  split. { intros Hn. unfold acc. rewrite maxY_foldl. by apply foldl_js_max_neg_infinity. }
  intros Hrs. simpl. rewrite obj_upd_eq. unfold acc. rewrite Hrs. reflexivity.
Qed.

Lemma getBounds_extrema_witness :
  ∃ h', getBounds 2 1%nat two_visible = Ok (bounds_ref 1%nat) h'
        ∧ rect h' (bounds_ref 1%nat) = Rectangle.mk 0 0 25 25.
Proof.
  destruct (getBounds_extrema 1 1%nat two_visible
              (Node 1%nat [Node 2%nat []; Node 3%nat []]))
    as (rs & h1 & h' & mnX & mnY & mxX & mxY & Hcb & _ & Hrun & _ & _ & _ & _ & _ & Hex).
  - reflexivity.
  - constructor; [reflexivity|].
    repeat constructor.
  - simpl. lia.
  - exists 2%nat. split; [apply list_elem_of_here|reflexivity].
  - exists h'. split; [exact Hrun|]. apply Hex.
    vm_compute in Hcb. by injection Hcb as <- _.
Defined.

(** * Further properties of the container *)

(** ** Looking children up *)

Lemma indexOf_le l x i : l !! i = Some x → 0 ≤ indexOf l x ≤ Z.of_nat i.
Proof.
  revert i. induction l as [|y l IH]; intros i Hi; [done|]. simpl.
  destruct (decide (y = x)) as [->|Hne]; [lia|].
  destruct i as [|i]; [simpl in Hi; congruence|]. simpl in Hi.
  specialize (IH i Hi). destruct (indexOf l x =? -1) eqn:E; [apply Z.eqb_eq in E|]; lia.
Qed.

Lemma indexOf_before l x k :
  (Z.of_nat k < indexOf l x) → l !! k ≠ Some x.
Proof.
  intros Hk Hl. apply indexOf_le in Hl. lia.
Qed.

(** X1: [getChildIndex] and [getChildAt] are inverse to each other on the
    children of a container: the index found for a child reads back that
    child, and the child read at an index is found at that index when the
    list has no repetition (at an index no greater in general, the first
    occurrence).  Outside the list one throws the membership error, the
    other the index error, and neither writes. *)
Theorem getChildIndex_getChildAt_inverse this h :
  (∀ child, child ∈ children (obj h this) →
     ∃ i, getChildIndex this child h = Ok i h
          ∧ getChildAt this i h = Ok (Some child) h)
  ∧ (∀ i c, getChildAt this i h = Ok (Some c) h →
       ∃ j, getChildIndex this c h = Ok j h ∧ 0 ≤ j ≤ i
            ∧ (NoDup (children (obj h this)) → j = i))
  ∧ (∀ child, child ∉ children (obj h this) →
       getChildIndex this child h = Throw Error_getChildIndex h)
  ∧ (∀ i, i < 0 ∨ Z.of_nat (length (children (obj h this))) ≤ i →
       getChildAt this i h = Throw (Error_getChildAt i) h).
Proof.
  split; [|split; [|split]].
  - intros child Hin. destruct (indexOf_lookup _ _ Hin) as [Hl Hr].
    exists (indexOf (children (obj h this)) child).
    split; [by apply getChildIndex_Ok|]. rewrite getChildAt_Ok by done. by rewrite Hl.
  - intros i c Hat.
    destruct (decide (0 ≤ i < Z.of_nat (length (children (obj h this))))) as [Hr|Hr].
    2:{ rewrite getChildAt_Throw in Hat by lia. done. }
    rewrite getChildAt_Ok in Hat by done. injection Hat as Hat.
    assert (Hin : c ∈ children (obj h this)) by by eapply list_elem_of_lookup_2.
    exists (indexOf (children (obj h this)) c).
    split; [by apply getChildIndex_Ok|].
    pose proof (indexOf_le _ _ _ Hat) as Hle. split; [lia|].
    intros Hnd. destruct (indexOf_lookup _ _ Hin) as [Hl _].
    assert (Z.to_nat (indexOf (children (obj h this)) c) = Z.to_nat i); [|lia].
    eapply NoDup_lookup; eauto.
  - intros child. apply getChildIndex_Throw.
  - intros i. apply getChildAt_Throw.
Qed.

Lemma getChildIndex_getChildAt_inverse_witness :
  3%nat ∈ children (obj two_children 1%nat)
  ∧ ∃ i, getChildIndex 1%nat 3%nat two_children = Ok i two_children
         ∧ getChildAt 1%nat i two_children = Ok (Some 3%nat) two_children.
Proof.
  assert (H : 3%nat ∈ children (obj two_children 1%nat)).
  { apply list_elem_of_further, list_elem_of_here. }
  split; [exact H|].
  destruct (getChildIndex_getChildAt_inverse 1%nat two_children) as (Hinv & _).
  exact (Hinv 3%nat H).
Defined.

(** ** Moving a child to another index *)

Lemma take_drop_delete {A} (l : list A) i c :
  l !! i = Some c → take i (delete i l) ++ c :: drop i (delete i l) = l.
Proof.
  intros Hi. pose proof (lookup_lt_Some _ _ _ Hi) as Hlt.
  rewrite delete_take_drop.
  rewrite take_app_length' by (rewrite length_take; lia).
  rewrite drop_app_length' by (rewrite length_take; lia).
  by apply take_drop_middle.
Qed.

(** X2: for an index in [[0, length)] and a child of the container,
    [setChildIndex] takes the child out at its (first) position and puts it
    back at the index: the child is then read at that index, the length is
    as before, the other children keep their relative order, and no other
    object is written.  An index outside [[0, length)] throws the index
    error, and a non-member the membership error, both before any write. *)
Theorem setChildIndex_moves this child index h :
  (0 ≤ index < Z.of_nat (length (children (obj h this))) →
   child ∈ children (obj h this) →
   let rest := delete (Z.to_nat (indexOf (children (obj h this)) child))
                 (children (obj h this)) in
   ∃ h', setChildIndex this child index h = Ok tt h'
         ∧ children (obj h' this)
           = take (Z.to_nat index) rest ++ child :: drop (Z.to_nat index) rest
         ∧ getChildAt this index h' = Ok (Some child) h'
         ∧ length (children (obj h' this)) = length (children (obj h this))
         ∧ delete (Z.to_nat index) (children (obj h' this)) = rest
         ∧ ∀ r, r ≠ this → obj h' r = obj h r)
  ∧ (index < 0 ∨ Z.of_nat (length (children (obj h this))) ≤ index →
     setChildIndex this child index h = Throw Error_setChildIndex h)
  ∧ (0 ≤ index < Z.of_nat (length (children (obj h this))) →
     child ∉ children (obj h this) →
     setChildIndex this child index h = Throw Error_getChildIndex h).
Proof.
  split; [|split].
  - intros Hr Hin rest.
    destruct (indexOf_lookup _ _ Hin) as [Hl Hri].
    assert (Hlen : length rest = (length (children (obj h this)) - 1)%nat).
    { unfold rest. rewrite length_delete; [done|by eexists]. }
    set (l' := take (Z.to_nat index) rest ++ child :: drop (Z.to_nat index) rest).
    assert (Hrun : setChildIndex this child index h
                   = Ok tt (upd this (set_children l') h)).
    { unfold setChildIndex. unfold bind at 1, get at 1.
      destruct (index <? 0) eqn:E1; [apply Z.ltb_lt in E1; lia|].
      destruct (index >=? _) eqn:E2; [apply Z.geb_le in E2; lia|]. cbn [orb].
      rewrite (bind_Ok _ _ _ _ _ (getChildIndex_Ok this child h Hin)).
      unfold bind, modify. f_equal.
      rewrite (upd_upd_children this
                 (fun l => (splice l (indexOf (children (obj h this)) child) 1 []).2)
                 (fun l => (splice l index 0 [child]).2)).
      by rewrite splice_insert, splice_delete by lia. }
    exists (upd this (set_children l') h). split; [done|].
    assert (Hkids : children (obj (upd this (set_children l') h) this) = l')
      by by rewrite obj_upd_eq.
    assert (Hl'len : length l' = length (children (obj h this))).
    { unfold l'. rewrite length_app, length_cons, length_take, length_drop. lia. }
    assert (Hat : l' !! Z.to_nat index = Some child).
    { unfold l'. rewrite lookup_app_r; rewrite length_take; [|lia].
      by replace (Z.to_nat index - Z.to_nat index `min` length rest)%nat
        with 0%nat by lia. }
    split; [done|]. split; [|split; [|split]].
    + rewrite getChildAt_Ok by (rewrite Hkids; lia). by rewrite Hkids, Hat.
    + by rewrite Hkids.
    + rewrite Hkids. unfold l'. rewrite delete_take_drop.
      rewrite take_app_length' by (rewrite length_take; lia).
      replace (S (Z.to_nat index))
        with (length (take (Z.to_nat index) rest) + 1)%nat by (rewrite length_take; lia).
      rewrite <- drop_drop, drop_app_length. simpl. rewrite drop_0. apply take_drop.
    + intros r Hne. by rewrite obj_upd_ne.
  - intros Hr. unfold setChildIndex, bind, get.
    destruct (index <? 0) eqn:E1; [done|]. apply Z.ltb_ge in E1.
    destruct (index >=? _) eqn:E2; [done|].
    rewrite Z.geb_leb in E2. apply Z.leb_gt in E2. lia.
  - intros Hr Hin. unfold setChildIndex. unfold bind at 1, get at 1.
    destruct (index <? 0) eqn:E1; [apply Z.ltb_lt in E1; lia|].
    destruct (index >=? _) eqn:E2; [apply Z.geb_le in E2; lia|]. cbn [orb].
    by rewrite (bind_Throw _ _ _ _ _ (getChildIndex_Throw this child h Hin)).
Qed.

Lemma setChildIndex_moves_witness :
  (0 ≤ 1 < Z.of_nat (length (children (obj two_children 1%nat)))
   ∧ 2%nat ∈ children (obj two_children 1%nat))
  ∧ ∃ h', setChildIndex 1%nat 2%nat 1 two_children = Ok tt h'
          ∧ children (obj h' 1%nat) = [3%nat; 2%nat].
Proof.
  assert (H1 : 0 ≤ 1 < Z.of_nat (length (children (obj two_children 1%nat)))).
  { vm_compute. split; [discriminate|reflexivity]. }
  assert (H2 : 2%nat ∈ children (obj two_children 1%nat)) by apply list_elem_of_here.
  split; [by split|].
  destruct (setChildIndex_moves 1%nat 2%nat 1 two_children) as (Hmove & _).
  destruct (Hmove H1 H2) as (h' & Hrun & Hkids & _).
  exists h'. split; [exact Hrun|]. exact Hkids.
Defined.

(** ** Exchanging two children *)

(** X3: on a child list without repetition, [swapChildren] of two distinct
    children exchanges their indices and leaves every other child at its
    index; no other object is written. *)
Theorem swapChildren_exchanges_indices this a b h :
  a ≠ b → a ∈ children (obj h this) → b ∈ children (obj h this) →
  NoDup (children (obj h this)) →
  ∃ h', swapChildren this a b h = Ok tt h'
        ∧ getChildIndex this a h' = Ok (indexOf (children (obj h this)) b) h'
        ∧ getChildIndex this b h' = Ok (indexOf (children (obj h this)) a) h'
        ∧ (∀ c, c ≠ a → c ≠ b → c ∈ children (obj h this) →
                getChildIndex this c h' = Ok (indexOf (children (obj h this)) c) h')
        ∧ length (children (obj h' this)) = length (children (obj h this))
        ∧ ∀ r, r ≠ this → obj h' r = obj h r.
Proof.
  intros Hne Ha Hb Hnd.
  destruct (indexOf_lookup _ _ Ha) as [Hla Hra].
  destruct (indexOf_lookup _ _ Hb) as [Hlb Hrb].
  set (l := children (obj h this)) in *.
  set (i := Z.to_nat (indexOf l a)) in *. set (j := Z.to_nat (indexOf l b)) in *.
  assert (Hij : i ≠ j).
  { intros Heq. rewrite Heq in Hla. congruence. }
  assert (Hi : (i < length l)%nat) by (unfold i; lia).
  assert (Hj : (j < length l)%nat) by (unfold j; lia).
  set (l' := <[j := a]> (<[i := b]> l)).
  assert (Hlook : ∀ k, l' !! k = if decide (k = j) then Some a
                                 else if decide (k = i) then Some b else l !! k).
  { intros k. unfold l'. destruct (decide (k = j)) as [->|Hkj].
    - apply list_lookup_insert_eq. by rewrite length_insert.
    - rewrite list_lookup_insert_ne by done. destruct (decide (k = i)) as [->|Hki].
      + by apply list_lookup_insert_eq.
      + by rewrite list_lookup_insert_ne by done. }
  exists (upd this (set_children l') h).
  split; [by apply swapChildren_Ok|].
  assert (Hkids : children (obj (upd this (set_children l') h) this) = l')
    by by rewrite obj_upd_eq.
  assert (Hidx : ∀ c k, l' !! k = Some c →
                        (∀ m, (m < k)%nat → l' !! m ≠ Some c) →
                        getChildIndex this c (upd this (set_children l') h)
                        = Ok (Z.of_nat k) (upd this (set_children l') h)).
  { intros c k Hk Hfirst. rewrite getChildIndex_Ok; rewrite Hkids.
    - by rewrite (indexOf_first _ _ _ Hk Hfirst).
    - by eapply list_elem_of_lookup_2. }
  split; [|split; [|split; [|split]]].
  - replace (indexOf l b) with (Z.of_nat j) by (unfold j; lia). apply Hidx.
    + rewrite Hlook. by destruct (decide (j = j)).
    + intros m Hm. rewrite Hlook. destruct (decide (m = j)); [lia|].
      destruct (decide (m = i)); [congruence|]. intros Hma.
      assert (m = i); [|done]. eapply NoDup_lookup; eauto.
  - replace (indexOf l a) with (Z.of_nat i) by (unfold i; lia). apply Hidx.
    + rewrite Hlook. destruct (decide (i = j)); [done|]. by destruct (decide (i = i)).
    + intros m Hm. rewrite Hlook. destruct (decide (m = j)); [congruence|].
      destruct (decide (m = i)); [lia|]. intros Hmb.
      assert (m = j); [|done]. eapply NoDup_lookup; eauto.
  - intros c Hca Hcb Hc. destruct (indexOf_lookup _ _ Hc) as [Hlc Hrc]. fold l in Hlc, Hrc.
    replace (indexOf l c) with (Z.of_nat (Z.to_nat (indexOf l c))) by lia. apply Hidx.
    + rewrite Hlook. destruct (decide (_ = j)) as [E|]; [rewrite E in Hlc; congruence|].
      destruct (decide (_ = i)) as [E|]; [rewrite E in Hlc; congruence|]. done.
    + intros m Hm. rewrite Hlook. destruct (decide (m = j)); [congruence|].
      destruct (decide (m = i)); [congruence|]. apply indexOf_before. lia.
  - rewrite Hkids. unfold l'. by rewrite !length_insert.
  - intros r Hr. by rewrite obj_upd_ne.
Qed.

Lemma swapChildren_exchanges_indices_witness :
  ∃ h', swapChildren 1%nat 2%nat 3%nat two_children = Ok tt h'
        ∧ getChildIndex 1%nat 2%nat h' = Ok 1 h'
        ∧ getChildIndex 1%nat 3%nat h' = Ok 0 h'.
Proof.
  destruct (swapChildren_exchanges_indices 1%nat 2%nat 3%nat two_children)
    as (h' & Hrun & Ha & Hb & _).
  - discriminate.
  - apply list_elem_of_here.
  - apply list_elem_of_further, list_elem_of_here.
  - apply NoDup_cons. split; [|apply NoDup_singleton].
    intros Hin. apply list_elem_of_singleton in Hin. discriminate.
  - exists h'. split; [exact Hrun|]. split; [exact Ha|exact Hb].
Defined.

(** ** Removing one child *)

Lemma detach_if_staged_Ok fuel h this c :
  detachable fuel h this c →
  ∃ h0, detach_if_staged fuel this c h = Ok tt h0 ∧ stage_frame h h0.
Proof.
  intros [Hst|(t & Hroot & Hshape & Hnd & Hatt & Hfuel)]; unfold detach_if_staged.
  - rewrite Hst. by exists h.
  - destruct (stage (obj h this)); [|by exists h].
    destruct (removeStageReference_tree t fuel h Hshape Hnd Hatt Hfuel) as (h0 & Hrun & _).
    rewrite Hroot in Hrun. exists h0. split; [done|].
    exact (post_Ok _ _ _ _ _ (removeStageReference_frame fuel c) Hrun).
Qed.

(** X4: [removeChild] of an object that is not a child is a no-op that
    returns [undefined].  Of a child, provided the container holds no stage
    reference or the child heads a finite subtree without repeated nodes
    whose interactive nodes hold one, it returns the child, removes its
    first occurrence from the list (the only one when the list has no
    repetition), clears its parent link and touches no other list or
    parent link. *)
Theorem removeChild_cases fuel this child h :
  (child ∉ children (obj h this) → removeChild fuel this child h = Ok None h)
  ∧ (child ∈ children (obj h this) → detachable fuel h this child →
     ∃ h', removeChild fuel this child h = Ok (Some child) h'
           ∧ children (obj h' this)
             = delete (Z.to_nat (indexOf (children (obj h this)) child))
                 (children (obj h this))
           ∧ S (length (children (obj h' this))) = length (children (obj h this))
           ∧ parent (obj h' child) = None
           ∧ (NoDup (children (obj h this)) → child ∉ children (obj h' this))
           ∧ (∀ x, x ≠ this → children (obj h' x) = children (obj h x))
           ∧ (∀ x, x ≠ child → parent (obj h' x) = parent (obj h x))).
Proof.
  split; [apply removeChild_absent|]. intros Hin Hdet.
  destruct (detach_if_staged_Ok _ _ _ _ Hdet) as (h0 & Hrun & Hf).
  destruct (indexOf_lookup _ _ Hin) as [Hl Hr].
  eexists. rewrite removeChild_present, Hrun by done. split; [done|].
  assert (Hkids : ∀ x, children (obj h0 x) = children (obj h x))
    by (intros x; by apply stage_frame_children).
  assert (Hthis : children (obj (unlink this child
                     (Z.to_nat (indexOf (children (obj h this)) child)) h0) this)
                  = delete (Z.to_nat (indexOf (children (obj h this)) child))
                      (children (obj h this))).
  { rewrite children_unlink, Hkids. by destruct (decide (this = this)). }
  split; [done|]. split; [|split; [|split; [|split]]].
  - rewrite Hthis, length_delete by done. lia.
  - rewrite parent_unlink. by destruct (decide (child = child)).
  - intros Hnd. rewrite Hthis. rewrite (elem_of_delete_NoDup _ _ _ _ Hnd Hl). tauto.
  - intros x Hx. rewrite children_unlink. by destruct (decide (x = this)).
  - intros x Hx. rewrite parent_unlink. destruct (decide (x = child)); [done|].
    by apply stage_frame_parent.
Qed.

Lemma removeChild_cases_witness :
  (2%nat ∈ children (obj two_children 1%nat) ∧ detachable 0 two_children 1%nat 2%nat)
  ∧ ∃ h', removeChild 0 1%nat 2%nat two_children = Ok (Some 2%nat) h'
          ∧ children (obj h' 1%nat) = [3%nat]
          ∧ parent (obj h' 2%nat) = None.
Proof.
  assert (H1 : 2%nat ∈ children (obj two_children 1%nat)) by apply list_elem_of_here.
  assert (H2 : detachable 0 two_children 1%nat 2%nat) by (left; reflexivity).
  split; [by split|].
  destruct (removeChild_cases 0 1%nat 2%nat two_children) as (_ & Hrem).
  destruct (Hrem H1 H2) as (h' & Hrun & Hkids & _ & Hpar & _).
  exists h'. split; [exact Hrun|]. split; [exact Hkids|exact Hpar].
Defined.

(** ** Removing and re-inserting *)

Lemma removeChildAt_Ok fuel this index h t :
  0 ≤ index < Z.of_nat (length (children (obj h this))) →
  children (obj h this) !! Z.to_nat index = Some (root t) →
  shape (kids h) t → NoDup (nodes t) →
  (is_Some (stage (obj h this)) → attached_interactive h (nodes t)) →
  (depth t ≤ fuel)%nat →
  ∃ h0, removeChildAt fuel this index h
        = Ok (root t) (unlink this (root t) (Z.to_nat index) h0)
        ∧ stage_frame h h0
        ∧ (∀ x, x ∉ nodes t → stage (obj h0 x) = stage (obj h x))
        ∧ (is_Some (stage (obj h this)) → ∀ x, x ∈ nodes t → stage (obj h0 x) = None).
Proof.
  intros Hr Hc Hshape Hnd Hatt Hfuel.
  rewrite (removeChildAt_run _ _ _ _ _ Hr Hc). unfold detach_if_staged.
  destruct (stage (obj h this)) as [s|] eqn:Hst.
  - destruct (removeStageReference_tree t fuel h Hshape Hnd) as (h0 & Hrun & Hout & Hin);
      [by apply Hatt|done|].
    rewrite Hrun. exists h0. split; [done|]. split; [|done].
    exact (post_Ok _ _ _ _ _ (removeStageReference_frame fuel (root t)) Hrun).
  - exists h. split; [done|]. split; [done|]. split; [done|]. by intros [? ?].
Qed.

(** X5: taking a child out with [removeChildAt] and putting it back with
    [addChildAt] at the same index gives back every child list, the child's
    parent link to the container included (the child heading a finite
    subtree without repeated nodes, with its interactive nodes on a stage
    when the container is). *)
Theorem removeChildAt_addChildAt_roundtrip fuel this index h t :
  0 ≤ index < Z.of_nat (length (children (obj h this))) →
  children (obj h this) !! Z.to_nat index = Some (root t) →
  shape (kids h) t → NoDup (nodes t) →
  (is_Some (stage (obj h this)) → attached_interactive h (nodes t)) →
  (depth t ≤ fuel)%nat →
  ∃ h1 h2, removeChildAt fuel this index h = Ok (root t) h1
           ∧ addChildAt fuel this (root t) index h1 = Ok (root t) h2
           ∧ (∀ x, children (obj h2 x) = children (obj h x))
           ∧ parent (obj h2 (root t)) = Some this
           ∧ (∀ x, x ≠ root t → parent (obj h2 x) = parent (obj h x)).
Proof.
  intros Hr Hc Hshape Hnd Hatt Hfuel.
  assert (Hthis : this ∉ nodes t).
  { intros Hin. apply (shape_no_back_edge _ _ _ Hshape Hnd Hin).
    unfold kids. by eapply list_elem_of_lookup_2. }
  destruct (removeChildAt_Ok fuel this index h t Hr Hc Hshape Hnd Hatt Hfuel)
    as (h0 & Hrem & Hf & _).
  set (h1 := unlink this (root t) (Z.to_nat index) h0) in *.
  assert (Hk0 : ∀ x, children (obj h0 x) = children (obj h x))
    by (intros x; by apply stage_frame_children).
  assert (Hk1 : children (obj h1 this)
                = delete (Z.to_nat index) (children (obj h this))).
  { unfold h1. rewrite children_unlink, Hk0. by destruct (decide (this = this)). }
  assert (Hp1 : parent (obj h1 (root t)) = None).
  { unfold h1. rewrite parent_unlink. by destruct (decide (root t = root t)). }
  destruct (addChildAt_Ok fuel this (root t) index h1 t)
    as (h2 & Hadd & Hpar & Hkids & _ & Hother & Hparents);
    [|congruence|done| |done|done|intros q Hq; congruence|done|].
  { rewrite Hk1, length_delete by (by eexists). lia. }
  { eapply shape_ext; [|exact Hshape]. intros x Hx. unfold kids, h1.
    rewrite children_unlink, Hk0. destruct (decide (x = this)); [congruence|done]. }
  exists h1, h2. split; [done|]. split; [done|]. split; [|split; [done|]].
  - intros x. destruct (decide (x = this)) as [->|Hx].
    + rewrite Hkids, Hk1. by apply take_drop_delete.
    + rewrite Hother; [|done|left; congruence]. unfold h1.
      rewrite children_unlink, Hk0. by destruct (decide (x = this)).
  - intros x Hx. rewrite Hparents by done. unfold h1. rewrite parent_unlink.
    destruct (decide (x = root t)); [done|]. by apply stage_frame_parent.
Qed.

Lemma removeChildAt_addChildAt_roundtrip_witness :
  ∃ h1 h2, removeChildAt 1 1%nat 0 two_children = Ok 2%nat h1
           ∧ addChildAt 1 1%nat 2%nat 0 h1 = Ok 2%nat h2
           ∧ (∀ x, children (obj h2 x) = children (obj two_children x))
           ∧ parent (obj h2 2%nat) = Some 1%nat.
Proof.
  destruct (removeChildAt_addChildAt_roundtrip 1 1%nat 0 two_children (Node 2%nat []))
    as (h1 & h2 & H1 & H2 & H3 & H4 & _).
  - vm_compute. split; [discriminate|reflexivity].
  - reflexivity.
  - constructor; [reflexivity|constructor].
  - apply NoDup_singleton.
  - intros [s Hs]. vm_compute in Hs. discriminate.
  - simpl. lia.
  - exists h1, h2. split; [exact H1|]. split; [exact H2|]. split; [exact H3|exact H4].
Defined.

(** ** Adding a child the container already owns *)

(** X6: [addChildAt] of a child that the container already owns moves it:
    the child is taken out at its position and spliced back at the index
    asked for, counted in the list without the child (and clamped to its
    end); the length does not change and the parent link is the container
    again.  In particular [addChild] of an own child makes it the last
    child.  The child heads a finite subtree without repeated nodes, whose
    interactive nodes hold a stage reference when the container does. *)
Theorem addChildAt_own_child_moves fuel this child index h t :
  0 ≤ index ≤ Z.of_nat (length (children (obj h this))) →
  parent (obj h child) = Some this → child ∈ children (obj h this) →
  root t = child → shape (kids h) t → NoDup (nodes t) →
  (is_Some (stage (obj h this)) → attached_interactive h (nodes t)) →
  (depth t ≤ fuel)%nat →
  let rest := delete (Z.to_nat (indexOf (children (obj h this)) child))
                (children (obj h this)) in
  ∃ h', addChildAt fuel this child index h = Ok child h'
        ∧ children (obj h' this)
          = take (Z.to_nat index) rest ++ child :: drop (Z.to_nat index) rest
        ∧ length (children (obj h' this)) = length (children (obj h this))
        ∧ parent (obj h' child) = Some this
        ∧ (index = Z.of_nat (length (children (obj h this))) →
           addChild fuel this child h = Ok child h'
           ∧ children (obj h' this) = rest ++ [child]).
Proof.
  intros Hidx Hpar Hin Hroot Hshape Hnd Hatt Hfuel rest.
  assert (Hthis : this ∉ nodes t).
  { intros Hx. apply (shape_no_back_edge _ _ _ Hshape Hnd Hx). by rewrite Hroot. }
  destruct (leave_parent_Ok fuel child h t Hroot Hshape Hnd) as (h1 & Hleave & Hq & _ & _ & Hnodes);
    [|done|].
  { intros q Hq. rewrite Hpar in Hq. injection Hq as <-. exact Hatt. }
  destruct (Hq this Hpar Hin) as [Hp1 Hk1]. fold rest in Hk1.
  destruct (enter_parent_Ok fuel this child (Z.to_nat index) h1 t) as (h' & Henter & Hf);
    [done| |done|done|].
  { eapply shape_ext; [|exact Hshape]. intros x Hx. unfold kids. by apply Hnodes. }
  destruct (indexOf_lookup _ _ Hin) as [Hl Hr].
  assert (Hrest : length rest = (length (children (obj h this)) - 1)%nat).
  { unfold rest. rewrite length_delete; [done|by eexists]. }
  assert (Hkids : children (obj h' this)
                  = take (Z.to_nat index) rest ++ child :: drop (Z.to_nat index) rest).
  { rewrite (stage_frame_children _ _ _ Hf), children_link, Hk1.
    by destruct (decide (this = this)). }
  assert (Hrun : addChildAt fuel this child index h = Ok child h').
  { rewrite addChildAt_run by done. by rewrite (bind_Ok _ _ _ _ _ Hleave). }
  exists h'. split; [done|]. split; [done|]. split; [|split].
  - rewrite Hkids, length_app, length_cons, length_take, length_drop. lia.
  - rewrite (stage_frame_parent _ _ _ Hf), parent_link. by destruct (decide (child = child)).
  - intros ->. split.
    + unfold addChild, bind at 1, get at 1. exact Hrun.
    + rewrite Hkids. rewrite take_ge, drop_ge by lia. done.
Qed.

Lemma addChildAt_own_child_moves_witness :
  ∃ h', addChildAt 1 1%nat 2%nat 2 two_children = Ok 2%nat h'
        ∧ addChild 1 1%nat 2%nat two_children = Ok 2%nat h'
        ∧ children (obj h' 1%nat) = [3%nat; 2%nat].
Proof.
  destruct (addChildAt_own_child_moves 1 1%nat 2%nat 2 two_children (Node 2%nat []))
    as (h' & Hrun & _ & _ & _ & Hlast).
  - vm_compute. split; discriminate.
  - reflexivity.
  - apply list_elem_of_here.
  - reflexivity.
  - constructor; [reflexivity|constructor].
  - apply NoDup_singleton.
  - intros [s Hs]. vm_compute in Hs. discriminate.
  - simpl. lia.
  - destruct (Hlast eq_refl) as [Hadd Hkids].
    exists h'. split; [exact Hrun|]. split; [exact Hadd|exact Hkids].
Defined.

(** ** Removing every child *)

Lemma digits2_pos_iter p k :
  digits2_pos (Pos.iter xO p k) = (digits2_pos p + k)%positive.
Proof.
  induction k as [|k IH] using Pos.peano_ind.
  - simpl. lia.
  - rewrite Pos.iter_succ. simpl. rewrite IH. lia.
Qed.

Lemma Zpos_iter p k : Z.pos (Pos.iter xO p k) = Z.pos p * 2 ^ Z.pos k.
Proof.
  induction k as [|k IH] using Pos.peano_ind.
  - simpl. lia.
  - rewrite Pos.iter_succ, Pos2Z.inj_xO, IH, Pos2Z.inj_succ, Z.pow_succ_r by lia. lia.
Qed.

Lemma digits2_pos_bound p n :
  0 ≤ n → Z.pos p < 2 ^ n → Z.pos (digits2_pos p) ≤ n.
Proof.
  revert n. induction p as [p IH|p IH|]; intros n Hn Hp; simpl.
  - assert (0 < n) by (destruct (decide (n = 0)) as [->|]; [simpl in Hp; lia|lia]).
    replace n with (Z.succ (n - 1)) in Hp by lia. rewrite Z.pow_succ_r in Hp by lia.
    specialize (IH (n - 1)). lia.
  - assert (0 < n) by (destruct (decide (n = 0)) as [->|]; [simpl in Hp; lia|lia]).
    replace n with (Z.succ (n - 1)) in Hp by lia. rewrite Z.pow_succ_r in Hp by lia.
    specialize (IH (n - 1)). lia.
  - destruct (decide (n = 0)) as [->|]; [simpl in Hp; lia|lia].
Qed.

(** A positive integer below [2^53] is a double: rounding leaves it as it
    is. *)
Lemma binary_normalize_integer p :
  Z.pos p < 2 ^ 53 →
  ∃ m e, binary_normalize prec emax (Z.pos p) 0 false = S754_finite false m e
         ∧ e ≤ 0 ∧ Z.pos m = Z.pos p * 2 ^ (- e).
Proof.
  intros Hp. pose proof (digits2_pos_bound p 53 ltac:(lia) Hp) as Hd.
  unfold binary_normalize, binary_round.
  assert (Hfexp : fexp prec emax (Z.pos (digits2_pos p) + 0)
                  = Z.pos (digits2_pos p) - 53).
  { unfold fexp, emin, prec, emax. lia. }
  rewrite Hfexp. unfold shl_align.
  destruct (Z.pos (digits2_pos p) - 53 - 0) as [|q|q] eqn:Hq; [|lia|].
  - exists p, 0. split; [|split; [lia|simpl; lia]].
    unfold binary_round_aux, shr_fexp. cbn [Zdigits2].
    assert (Hf : fexp prec emax (Z.pos (digits2_pos p) + 0) - 0 = 0).
    { unfold fexp, emin, prec, emax. lia. }
    rewrite Hf. cbn. rewrite Hf. cbn. reflexivity.
  - set (mz := Pos.iter xO p q). set (ez := Z.pos (digits2_pos p) - 53).
    assert (Hdz : Z.pos (digits2_pos mz) = 53).
    { unfold mz. rewrite digits2_pos_iter. lia. }
    exists mz, ez. split; [|split; [unfold ez; lia|]].
    + unfold binary_round_aux, shr_fexp. cbn [Zdigits2].
      assert (Hf : fexp prec emax (Z.pos (digits2_pos mz) + ez) - ez = 0).
      { unfold fexp, emin, prec, emax, ez. lia. }
      rewrite Hf.
      cbn [shr shr_record_of_loc shr_m loc_of_shr_record round_nearest_even Zdigits2].
      rewrite Hf. cbn [shr shr_record_of_loc shr_m].
      assert (Hle : (ez <=? emax - prec) = true)
        by (apply Z.leb_le; unfold emax, prec, ez; lia).
      by rewrite Hle.
    + unfold mz. rewrite Zpos_iter. f_equal. f_equal. unfold ez. lia.
Qed.

Lemma length_number_exact {A} (l : list A) :
  l ≠ [] → Z.of_nat (length l) < 2 ^ 53 →
  ∃ m e, Prim2SF (length_number l) = S754_finite false m e
         ∧ e ≤ 0 ∧ Z.pos m = Z.of_nat (length l) * 2 ^ (- e).
Proof.
  intros Hl Hlen. unfold length_number.
  rewrite of_uint63_spec, Uint63.of_Z_spec.
  assert (Hwb : 2 ^ 53 < wB) by reflexivity.
  rewrite Z.mod_small by lia.
  destruct (Z.of_nat (length l)) as [|p|p] eqn:Hp; [|by apply binary_normalize_integer|lia].
  destruct l; [done|simpl in Hp; lia].
Qed.

Lemma length_number_positive {A} (l : list A) :
  l ≠ [] → Z.of_nat (length l) < 2 ^ 53 →
  (0 <? length_number l)%float = true
  ∧ (length_number l <=? length_number l)%float = true
  ∧ ToIntegerOrInfinity (length_number l) = integer (Z.of_nat (length l)).
Proof.
  intros Hl Hlen. destruct (length_number_exact l Hl Hlen) as (m & e & Hsf & He & Hm).
  split; [|split].
  - rewrite FloatAxioms.ltb_spec, Hsf. reflexivity.
  - rewrite FloatAxioms.leb_spec, Hsf. unfold SFleb, SFcompare.
    by rewrite Z.compare_refl, Pos.compare_cont_refl.
  - unfold ToIntegerOrInfinity. rewrite Hsf. f_equal.
    destruct (0 <=? e) eqn:E.
    + apply Z.leb_le in E. assert (e = 0) as -> by lia. simpl in Hm. lia.
    + rewrite Hm. apply Z.div_mul. apply Z.pow_nonzero; lia.
Qed.

Lemma sub_zero (x : float) : (x - 0)%float = x.
Proof.
  apply Prim2SF_inj. rewrite FloatAxioms.sub_spec. change (Prim2SF 0) with (S754_zero false). unfold SF64sub.
  by destruct (Prim2SF x) as [[]|[]| |[] m e].
Qed.

(** X7: [removeChildren()] without arguments empties the container: it
    returns the whole child list (the empty one on an empty container),
    leaves the list empty and clears the parent link of every former child,
    for a list of fewer than [2^53] children, the container holding no
    stage reference or the children heading disjoint finite subtrees whose
    interactive nodes hold one. *)
Theorem removeChildren_all fuel this h :
  Z.of_nat (length (children (obj h this))) < 2 ^ 53 →
  (stage (obj h this) = None
   ∨ (∃ ts, children (obj h this) = root <$> ts
            ∧ Forall (shape (kids h)) ts ∧ NoDup (ts ≫= nodes)
            ∧ (this ∉ ts ≫= nodes) ∧ attached_interactive h (ts ≫= nodes)
            ∧ Forall (λ t, (depth t ≤ fuel)%nat) ts)) →
  ∃ h', removeChildren fuel this None None h = Ok (children (obj h this)) h'
        ∧ children (obj h' this) = []
        ∧ ∀ c, c ∈ children (obj h this) → parent (obj h' c) = None.
Proof.
  intros Hbound Hcase. set (l := children (obj h this)) in *.
  destruct (decide (l = [])) as [Hl|Hl].
  { exists h. split; [|split; [done|]].
    - rewrite removeChildren_guard; fold l; rewrite Hl; reflexivity.
    - rewrite Hl. intros c Hc. by apply elem_of_nil in Hc. }
  destruct (length_number_positive l Hl Hbound) as (Hpos & Hle & Hint).
  assert (Hrange : (default (length_number l) None - or_zero None)%float
                   = length_number l) by apply sub_zero.
  assert (Hsplice : splice_numbers l (or_zero None)
                      (default (length_number l) None - or_zero None)%float []
                    = (l, [])).
  { rewrite Hrange.
    assert (H0 : ToIntegerOrInfinity (or_zero None) = integer 0) by reflexivity.
    rewrite (splice_numbers_integers l _ _ 0 (Z.of_nat (length l)) [] H0 Hint).
    rewrite splice_nonneg by lia. change (Z.to_nat 0) with 0%nat.
    rewrite Nat2Z.id, drop_0, take_0, firstn_all. cbn [app Nat.add].
    by rewrite drop_all. }
  destruct (removeChildren_Ok fuel this None None h) as (h' & Hrun & Hkids & Hpar).
  { fold l. by rewrite Hrange. }
  { fold l. by rewrite Hrange. }
  { fold l. by rewrite Hsplice. }
  fold l in Hrun, Hkids, Hpar. rewrite Hsplice in Hrun, Hkids, Hpar.
  by exists h'.
Qed.

Lemma removeChildren_all_witness :
  ∃ h', removeChildren 0 1%nat None None two_children = Ok [2%nat; 3%nat] h'
        ∧ children (obj h' 1%nat) = []
        ∧ ∀ c, c ∈ [2%nat; 3%nat] → parent (obj h' c) = None.
Proof.
  apply (removeChildren_all 0 1%nat two_children); [reflexivity|]. left. reflexivity.
Defined.

(** ** Stage references over a subtree *)

#[local] Instance dirty_grows_refl : Reflexive dirty_grows.
Proof. by intros h x. Qed.

#[local] Instance dirty_grows_trans : Transitive dirty_grows.
Proof. intros h1 h2 h3 H12 H23 x Hx. by apply H23, H12. Qed.

Lemma dirty_grows_upd_dirty h s : dirty_grows h (upd s (set_dirty true) h).
Proof. intros x Hx. rewrite obj_upd. by destruct (decide (x = s)) as [->|]. Qed.

Lemma dirty_grows_upd_stage h r v : dirty_grows h (upd r (set_stage v) h).
Proof. intros x Hx. rewrite obj_upd. by destruct (decide (x = r)) as [->|]. Qed.

Lemma mark_stage_dirty_grows this : preserves dirty_grows (mark_stage_dirty this).
Proof.
  unfold mark_stage_dirty. pres. destruct (stage a); pres. apply dirty_grows_upd_dirty.
Qed.

Lemma setStageReference_dirty_grows fuel this s :
  preserves dirty_grows (setStageReference fuel this s).
Proof.
  revert this. induction fuel as [|fuel IH]; intros this; simpl; pres.
  - apply dirty_grows_upd_stage.
  - destruct (_interactive _); [apply mark_stage_dirty_grows|pres].
  - apply IH.
Qed.

Lemma removeStageReference_dirty_grows fuel this :
  preserves dirty_grows (removeStageReference fuel this).
Proof.
  revert this. induction fuel as [|fuel IH]; intros this; simpl; pres.
  - apply IH.
  - destruct (_interactive _); [apply mark_stage_dirty_grows|pres].
  - apply dirty_grows_upd_stage.
Qed.

Lemma dirty_upd_stage h r v x :
  dirty (obj (upd r (set_stage v) h) x) = dirty (obj h x).
Proof. rewrite obj_upd. by destruct (decide (x = r)) as [->|]. Qed.

Lemma setStageReference_children_fully s fuel this ts :
  Forall (attaches_fully s) ts →
  ∀ i h,
    drop i (kids h this) = root <$> ts →
    Forall (shape (kids h)) ts →
    Forall (λ t, (depth t ≤ fuel)%nat) ts →
    ∃ h', for_loop (length ts) i
            (fun i _ => let* c := child_at this i in
                        setStageReference fuel c (Some s))
            tt h = Ok tt h'
          ∧ (∀ x, x ∈ ts ≫= nodes → stage (obj h' x) = Some s)
          ∧ (∀ x, x ∉ ts ≫= nodes → stage (obj h' x) = stage (obj h x))
          ∧ ((∃ x, x ∈ ts ≫= nodes ∧ _interactive (obj h x) = true) →
             dirty (obj h' s) = true)
          ∧ ((∀ x, x ∈ ts ≫= nodes → _interactive (obj h x) = false) →
             ∀ y, dirty (obj h' y) = dirty (obj h y)).
Proof.
  induction ts as [|t ts IH]; intros Hatt i h Hdrop Hshape Hfuel.
  - exists h. simpl. split; [done|]. split; [intros x Hx; by apply elem_of_nil in Hx|].
    split; [done|]. split; [|done]. intros (x & Hx & _). by apply elem_of_nil in Hx.
  - apply Forall_cons in Hatt as [Ht Hatt]. apply Forall_cons in Hshape as [Hst Hshape].
    apply Forall_cons in Hfuel as [Hft Hfuel].
    simpl in Hdrop. apply drop_cons_inv in Hdrop as [Hi Hdrop].
    destruct (Ht fuel h Hst Hft) as (h1 & Hrun & Hin1 & Hout1 & Hd1 & Hn1).
    pose proof (post_Ok _ _ _ _ _ (setStageReference_frame fuel (root t) (Some s)) Hrun)
      as Hf1.
    destruct (IH Hatt (S i) h1) as (h2 & Hloop & Hin2 & Hout2 & Hd2 & Hn2).
    { unfold kids in *. by rewrite (stage_frame_children _ _ _ Hf1). }
    { eapply Forall_impl; [exact Hshape|]. intros t'. by apply shape_frame. }
    { done. }
    assert (Hg : dirty_grows h1 h2).
    { eapply post_Ok; [|exact Hloop]. pres. apply setStageReference_dirty_grows. }
    exists h2. split; [|split; [|split; [|split]]].
    + simpl. erewrite bind_Ok; [exact Hloop|].
      erewrite bind_Ok; [exact Hrun|]. by apply child_at_Ok.
    + intros x Hx. destruct (decide (x ∈ ts ≫= nodes)) as [Hx2|Hx2]; [by apply Hin2|].
      rewrite Hout2 by done. apply Hin1. simpl in Hx. apply elem_of_app in Hx. tauto.
    + intros x Hx. simpl in Hx. rewrite Hout2, Hout1; [done|..];
        intros ?; apply Hx, elem_of_app; auto.
    + intros (x & Hx & Hint). simpl in Hx. apply elem_of_app in Hx as [Hx|Hx].
      * apply Hg, Hd1. by exists x.
      * apply Hd2. exists x. split; [done|].
        by rewrite (stage_frame_interactive _ _ _ Hf1).
    + intros Hnone y. rewrite Hn2, Hn1; [done|..].
      * intros x Hx. apply Hnone. simpl. apply elem_of_app. by left.
      * intros x Hx. rewrite (stage_frame_interactive _ _ _ Hf1).
        apply Hnone. simpl. apply elem_of_app. by right.
Qed.

Lemma setStageReference_tree_fully s t : attaches_fully s t.
Proof.
  induction t as [r ts IH] using tree_ind'.
  intros fuel h Hshape Hfuel.
  inversion Hshape as [r' ts' Hr Hts]; subst.
  destruct fuel as [|fuel]; [simpl in Hfuel; lia|].
  apply depth_subtrees in Hfuel.
  set (h1 := upd r (set_stage (Some s)) h).
  set (h2 := if _interactive (obj h1 r) then upd s (set_dirty true) h1 else h1).
  assert (Hf1 : stage_frame h h1) by apply stage_frame_set_stage.
  assert (Hf : stage_frame h h2).
  { etrans; [exact Hf1|]. unfold h2.
    destruct (_interactive _); [apply stage_frame_set_dirty|done]. }
  assert (Hst2 : ∀ x, stage (obj h2 x) = if decide (x = r) then Some s else stage (obj h x)).
  { intros x. unfold h2. destruct (_interactive _); [rewrite stage_upd_dirty|];
      unfold h1; rewrite obj_upd; by destruct (decide (x = r)) as [->|]. }
  destruct (setStageReference_children_fully s fuel r ts IH 0%nat h2)
    as (h3 & Hloop & Hin & Hout & Hd & Hn).
  { simpl. unfold kids in *. by rewrite (stage_frame_children _ _ _ Hf). }
  { eapply Forall_impl; [exact Hts|]. intros t'. by apply shape_frame. }
  { done. }
  assert (Hg : dirty_grows h2 h3).
  { eapply post_Ok; [|exact Hloop]. pres. apply setStageReference_dirty_grows. }
  assert (Hlen : length (children (obj h2 r)) = length ts).
  { rewrite (stage_frame_children _ _ _ Hf). fold (kids h r).
    by rewrite Hr, length_fmap. }
  assert (Hrun : setStageReference (S fuel) r (Some s) h = Ok tt h3).
  { simpl. unfold bind at 1, modify at 1. fold h1. unfold bind at 1, get at 1.
    unfold h2 in *. destruct (_interactive (obj h1 r)).
    - unfold mark_stage_dirty, bind, get, modify. unfold h1 at 1. rewrite obj_upd_eq. simpl.
      fold h1. rewrite Hlen. exact Hloop.
    - unfold bind at 1, ret at 1. unfold bind at 1, get at 1. rewrite Hlen. exact Hloop. }
  exists h3. split; [exact Hrun|]. split; [|split; [|split]].
  - intros x Hx. destruct (decide (x ∈ ts ≫= nodes)) as [Hx2|Hx2]; [by apply Hin|].
    rewrite Hout, Hst2 by done. simpl in Hx. apply elem_of_cons in Hx as [->|Hx]; [|done].
    by destruct (decide (r = r)).
  - intros x Hx. simpl in Hx. apply not_elem_of_cons in Hx as [Hxr Hx].
    rewrite Hout, Hst2 by done. by destruct (decide (x = r)).
  - intros (x & Hx & Hint). simpl in Hx. apply elem_of_cons in Hx as [->|Hx].
    + apply Hg. unfold h2. rewrite <- (stage_frame_interactive _ _ _ Hf1) in Hint.
      rewrite Hint. by rewrite obj_upd_eq.
    + apply Hd. exists x. split; [done|]. by rewrite (stage_frame_interactive _ _ _ Hf).
  - intros Hnone y. rewrite Hn.
    + unfold h2. rewrite (stage_frame_interactive _ _ _ Hf1), Hnone by apply list_elem_of_here.
      unfold h1. apply dirty_upd_stage.
    + intros x Hx. rewrite (stage_frame_interactive _ _ _ Hf). apply Hnone.
      simpl. by apply list_elem_of_further.
Qed.

(** X8: on a finite tree without repeated nodes, [setStageReference] with a
    stage followed by [removeStageReference] both come back normally: in
    between every node of the tree refers to the stage, afterwards every
    node of the tree has a null stage reference, no stage reference outside
    the tree has changed and nothing but stage references and dirty flags
    differs from the start; the stage has been marked dirty when the tree
    has an interactive node, and attaching a tree without one changes no
    dirty flag. *)
Theorem setStageReference_removeStageReference_inverse s fuel h t :
  shape (kids h) t → NoDup (nodes t) → (depth t ≤ fuel)%nat →
  ∃ h1 h2,
    setStageReference fuel (root t) (Some s) h = Ok tt h1
    ∧ (∀ x, x ∈ nodes t → stage (obj h1 x) = Some s)
    ∧ ((∀ x, x ∈ nodes t → _interactive (obj h x) = false) →
       ∀ y, dirty (obj h1 y) = dirty (obj h y))
    ∧ removeStageReference fuel (root t) h1 = Ok tt h2
    ∧ (∀ x, x ∈ nodes t → stage (obj h2 x) = None)
    ∧ (∀ x, x ∉ nodes t → stage (obj h2 x) = stage (obj h x))
    ∧ stage_frame h h2
    ∧ ((∃ x, x ∈ nodes t ∧ _interactive (obj h x) = true) → dirty (obj h2 s) = true).
Proof.
  intros Hshape Hnd Hfuel.
  destruct (setStageReference_tree_fully s t fuel h Hshape Hfuel)
    as (h1 & Hset & Hin1 & Hout1 & Hd1 & Hn1).
  pose proof (post_Ok _ _ _ _ _ (setStageReference_frame fuel (root t) (Some s)) Hset)
    as Hf1.
  destruct (removeStageReference_tree t fuel h1) as (h2 & Hrem & Hout2 & Hin2);
    [by apply (shape_frame h)|done| |done|].
  { intros x Hx _. rewrite Hin1 by done. by eexists. }
  pose proof (post_Ok _ _ _ _ _ (removeStageReference_frame fuel (root t)) Hrem) as Hf2.
  pose proof (post_Ok _ _ _ _ _ (removeStageReference_dirty_grows fuel (root t)) Hrem)
    as Hg2.
  exists h1, h2. split; [done|]. split; [done|]. split; [done|]. split; [done|].
  split; [done|]. split; [|split].
  - intros x Hx. by rewrite Hout2, Hout1.
  - by etrans.
  - intros Hint. by apply Hg2, Hd1.
Qed.

(** The container [1] of [two_children] with its two leaves, put on the
    stage [9] and taken off again. *)
Lemma setStageReference_removeStageReference_inverse_witness :
  ∃ h1 h2,
    setStageReference 2 1%nat (Some 9%nat) two_children = Ok tt h1
    ∧ (∀ x, x ∈ [1%nat; 2%nat; 3%nat] → stage (obj h1 x) = Some 9%nat)
    ∧ removeStageReference 2 1%nat h1 = Ok tt h2
    ∧ (∀ x, x ∈ [1%nat; 2%nat; 3%nat] → stage (obj h2 x) = None).
Proof.
  destruct (setStageReference_removeStageReference_inverse 9%nat 2 two_children
              (Node 1%nat [Node 2%nat []; Node 3%nat []]))
    as (h1 & h2 & H1 & H2 & _ & H3 & H4 & _).
  - constructor; [reflexivity|]. repeat constructor.
  - simpl. apply NoDup_cons. split.
    + intros Hin. apply elem_of_cons in Hin as [Hin|Hin]; [discriminate|].
      apply list_elem_of_singleton in Hin. discriminate.
    + apply NoDup_cons. split; [|apply NoDup_singleton].
      intros Hin. apply list_elem_of_singleton in Hin. discriminate.
  - simpl. lia.
  - exists h1, h2. split; [exact H1|]. split; [exact H2|]. split; [exact H3|exact H4].
Defined.

(** ** Attaching and detaching through the child list *)

Lemma rest_link this c i h x :
  stage (obj (link this c i h) x) = stage (obj h x)
  ∧ _interactive (obj (link this c i h) x) = _interactive (obj h x)
  ∧ dirty (obj (link this c i h) x) = dirty (obj h x).
Proof.
  unfold link. rewrite !obj_upd.
  destruct (decide (x = this)) as [->|]; destruct (decide (this = c)) as [->|];
    try destruct (decide (x = c)) as [->|]; done.
Qed.

Lemma rest_unlink this c i h x :
  stage (obj (unlink this c i h) x) = stage (obj h x)
  ∧ _interactive (obj (unlink this c i h) x) = _interactive (obj h x)
  ∧ dirty (obj (unlink this c i h) x) = dirty (obj h x).
Proof.
  unfold unlink. rewrite !obj_upd.
  destruct (decide (x = this)) as [->|]; destruct (decide (this = c)) as [->|];
    try destruct (decide (x = c)) as [->|]; done.
Qed.

Lemma leave_parent_rest fuel child h t h1 :
  root t = child → shape (kids h) t → NoDup (nodes t) →
  (∀ q, parent (obj h child) = Some q → is_Some (stage (obj h q)) →
        attached_interactive h (nodes t)) →
  (depth t ≤ fuel)%nat →
  leave_parent fuel child h = Ok tt h1 →
  (∀ x, _interactive (obj h1 x) = _interactive (obj h x))
  ∧ (∀ x, x ∉ nodes t → stage (obj h1 x) = stage (obj h x))
  ∧ dirty_grows h h1.
Proof.
  intros Hroot Hshape Hnd Hatt Hfuel. unfold leave_parent, bind at 1, get at 1.
  destruct (parent (obj h child)) as [q|] eqn:Hpar.
  2:{ unfold ret. intros [= <-]. done. }
  destruct (decide (child ∈ children (obj h q))) as [Hin|Hin].
  2:{ unfold bind. rewrite removeChild_absent by done. unfold ret. intros [= <-]. done. }
  unfold bind. rewrite removeChild_present by done. unfold detach_if_staged.
  destruct (stage (obj h q)) eqn:Hst.
  - destruct (removeStageReference_tree t fuel h Hshape Hnd) as (h0 & Hrun & Hout & _);
      [by eapply Hatt|done|].
    rewrite Hroot in Hrun. rewrite Hrun. unfold ret. intros [= <-].
    pose proof (post_Ok _ _ _ _ _ (removeStageReference_frame fuel child) Hrun) as Hf.
    pose proof (post_Ok _ _ _ _ _ (removeStageReference_dirty_grows fuel child) Hrun) as Hg.
    split; [|split].
    + intros x. rewrite (proj1 (proj2 (rest_unlink _ _ _ _ _))).
      by apply stage_frame_interactive.
    + intros x Hx. rewrite (proj1 (rest_unlink _ _ _ _ _)). by apply Hout.
    + intros x Hx. rewrite (proj2 (proj2 (rest_unlink _ _ _ _ _))). by apply Hg.
  - unfold ret. intros [= <-]. split; [|split].
    + intros x. apply rest_unlink.
    + intros x _. apply rest_unlink.
    + intros x Hx. by rewrite (proj2 (proj2 (rest_unlink _ _ _ _ _))).
Qed.

(** X9: [addChildAt] into a container that is on a stage puts the whole
    subtree of the inserted child on that stage: the call comes back with
    the child, every node of the subtree then refers to the stage of the
    container, no stage reference outside the subtree has changed, and the
    stage is marked dirty when the subtree has an interactive node.  The
    child heads a finite subtree without repeated nodes that does not
    contain the container, and when its previous parent holds a stage
    reference the interactive nodes of the subtree hold one. *)
Theorem addChildAt_attaches_subtree fuel this child index h t s :
  stage (obj h this) = Some s →
  0 ≤ index ≤ Z.of_nat (length (children (obj h this))) →
  root t = child → shape (kids h) t → NoDup (nodes t) → this ∉ nodes t →
  (∀ q, parent (obj h child) = Some q → is_Some (stage (obj h q)) →
        attached_interactive h (nodes t)) →
  (depth t ≤ fuel)%nat →
  ∃ h', addChildAt fuel this child index h = Ok child h'
        ∧ (∀ x, x ∈ nodes t → stage (obj h' x) = Some s)
        ∧ (∀ x, x ∉ nodes t → stage (obj h' x) = stage (obj h x))
        ∧ ((∃ x, x ∈ nodes t ∧ _interactive (obj h x) = true) →
           dirty (obj h' s) = true).
Proof.
  intros Hst Hidx Hroot Hshape Hnd Hthis Hatt Hfuel.
  destruct (leave_parent_Ok fuel child h t Hroot Hshape Hnd Hatt Hfuel)
    as (h1 & Hleave & _ & _ & _ & Hin).
  destruct (leave_parent_rest fuel child h t h1 Hroot Hshape Hnd Hatt Hfuel Hleave)
    as (Hint1 & Hout1 & _).
  set (h2 := link this child (Z.to_nat index) h1).
  assert (Hshape2 : shape (kids h2) t).
  { eapply shape_ext; [|exact Hshape]. intros x Hx. unfold kids, h2.
    rewrite children_link. destruct (decide (x = this)) as [->|]; [done|]. by apply Hin. }
  destruct (setStageReference_tree_fully s t fuel h2 Hshape2 Hfuel)
    as (h3 & Hrun & Hin3 & Hout3 & Hd3 & _).
  exists h3. rewrite addChildAt_run by done.
  rewrite (bind_Ok _ _ _ _ _ Hleave). split; [|split; [|split]].
  - unfold enter_parent. fold h2.
    assert (Hs2 : stage (obj h2 this) = Some s).
    { unfold h2. rewrite (proj1 (rest_link _ _ _ _ _)), Hout1; done. }
    rewrite Hs2. rewrite Hroot in Hrun. by rewrite Hrun.
  - done.
  - intros x Hx. rewrite Hout3 by done. unfold h2.
    rewrite (proj1 (rest_link _ _ _ _ _)). by apply Hout1.
  - intros (x & Hx & Hi). apply Hd3. exists x. split; [done|]. unfold h2.
    by rewrite (proj1 (proj2 (rest_link _ _ _ _ _))), Hint1.
Qed.

(** The stage [9] holds the container [1]; the interactive leaf [2] is added
    to it. *)
Lemma addChildAt_attaches_subtree_witness :
  ∃ h', addChildAt 1 1%nat 2%nat 0
          staged_and_loose
        = Ok 2%nat h'
        ∧ stage (obj h' 2%nat) = Some 9%nat
        ∧ dirty (obj h' 9%nat) = true.
Proof.
  destruct (addChildAt_attaches_subtree 1 1%nat 2%nat 0
              staged_and_loose
              (Node 2%nat []) 9%nat)
    as (h' & Hrun & Hin & _ & Hd).
  - reflexivity.
  - vm_compute. split; discriminate.
  - reflexivity.
  - constructor; [reflexivity|constructor].
  - simpl. apply NoDup_singleton.
  - simpl. intros Hin. apply list_elem_of_singleton in Hin. discriminate.
  - intros q Hq. vm_compute in Hq. discriminate.
  - simpl. lia.
  - exists h'. split; [exact Hrun|]. split.
    + apply Hin. simpl. apply list_elem_of_here.
    + apply Hd. exists 2%nat. split; [apply list_elem_of_here|reflexivity].
Defined.

Lemma removeStageReference_children_dirty fuel this ts :
  Forall marks_dirty ts →
  ∀ i h h',
    drop i (kids h this) = root <$> ts →
    Forall (shape (kids h)) ts → NoDup (ts ≫= nodes) →
    attached_interactive h (ts ≫= nodes) →
    Forall (λ t, (depth t ≤ fuel)%nat) ts →
    for_loop (length ts) i
      (fun i _ => let* c := child_at this i in removeStageReference fuel c)
      tt h = Ok tt h' →
    ∀ x s, x ∈ ts ≫= nodes → _interactive (obj h x) = true →
           stage (obj h x) = Some s → dirty (obj h' s) = true.
Proof.
  induction ts as [|t ts IH]; intros Hmd i h h' Hdrop Hshape Hnd Hatt Hfuel Hloop x s Hx.
  - by apply elem_of_nil in Hx.
  - apply Forall_cons in Hmd as [Ht Hmd]. apply Forall_cons in Hshape as [Hst Hshape].
    apply Forall_cons in Hfuel as [Hft Hfuel].
    simpl in Hnd. apply NoDup_app in Hnd as (Hndt & Hdisj & Hndts).
    simpl in Hdrop. apply drop_cons_inv in Hdrop as [Hi Hdrop].
    assert (Hattt : attached_interactive h (nodes t)).
    { intros y Hy. apply Hatt. simpl. apply elem_of_app. by left. }
    destruct (removeStageReference_tree t fuel h Hst Hndt Hattt Hft)
      as (h1 & Hrun & Hout & Hin).
    pose proof (post_Ok _ _ _ _ _ (removeStageReference_frame fuel (root t)) Hrun) as Hf1.
    simpl in Hloop. erewrite bind_Ok in Hloop.
    2:{ erewrite bind_Ok; [exact Hrun|]. by apply child_at_Ok. }
    assert (Hg : dirty_grows h1 h').
    { eapply post_Ok; [|exact Hloop]. pres. apply removeStageReference_dirty_grows. }
    intros Hint Hs. simpl in Hx. apply elem_of_app in Hx as [Hx|Hx].
    + apply Hg. by apply (Ht fuel h h1 Hst Hndt Hattt Hft Hrun x s).
    + assert (Hxt : x ∉ nodes t) by (intros Hxt; by apply (Hdisj x)).
      refine (IH Hmd (S i) h1 h' _ _ Hndts _ Hfuel Hloop x s Hx _ _).
      * unfold kids in *. by rewrite (stage_frame_children _ _ _ Hf1).
      * eapply Forall_impl; [exact Hshape|]. intros t'. by apply shape_frame.
      * intros y Hy Hyi. rewrite Hout. 2:{ intros Hyt. by apply (Hdisj y). }
        apply Hatt; [simpl; apply elem_of_app; by right|].
        by rewrite <- (stage_frame_interactive _ _ _ Hf1).
      * by rewrite (stage_frame_interactive _ _ _ Hf1).
      * by rewrite Hout.
Qed.

Lemma removeStageReference_tree_dirty t : marks_dirty t.
Proof.
  induction t as [r ts IH] using tree_ind'.
  intros fuel h h' Hshape Hnd Hatt Hfuel Hrun x s Hx Hint Hs.
  inversion Hshape as [r' ts' Hr Hts]; subst.
  simpl in Hnd. apply NoDup_cons in Hnd as [Hrts Hnd].
  destruct fuel as [|fuel]; [simpl in Hfuel; lia|].
  apply depth_subtrees in Hfuel.
  assert (Hattts : attached_interactive h (ts ≫= nodes)).
  { intros y Hy. apply Hatt. simpl. by apply list_elem_of_further. }
  assert (Hdet : Forall detaches ts).
  { apply Forall_forall. intros t _. apply removeStageReference_tree. }
  destruct (removeStageReference_children fuel r ts Hdet 0%nat h)
    as (h1 & Hloop & Hf1 & Hout1 & Hin1); [done..|].
  assert (Hlen : length (children (obj h r)) = length ts).
  { fold (kids h r). by rewrite Hr, length_fmap. }
  assert (Hd1 : x ∈ ts ≫= nodes → dirty (obj h1 s) = true).
  { intros Hx'. by apply (removeStageReference_children_dirty fuel r ts IH 0%nat h h1
                            Hr Hts Hnd Hattts Hfuel Hloop x s). }
  simpl in Hrun. unfold bind at 1, get at 1 in Hrun. rewrite Hlen in Hrun.
  rewrite (bind_Ok _ _ _ _ _ Hloop) in Hrun. unfold bind at 1, get at 1 in Hrun.
  assert (Hstage : stage (obj h1 r) = stage (obj h r)) by by apply Hout1.
  rewrite (stage_frame_interactive _ _ _ Hf1) in Hrun.
  simpl in Hx. apply elem_of_cons in Hx as [->|Hx].
  - rewrite Hint in Hrun. unfold mark_stage_dirty, bind, get, modify in Hrun.
    rewrite Hstage, Hs in Hrun. injection Hrun as <-.
    by rewrite dirty_upd_stage, obj_upd_eq.
  - specialize (Hd1 Hx). destruct (_interactive (obj h r)) eqn:Hi.
    + destruct (Hatt r) as [sr Hsr]; [apply list_elem_of_here|done|].
      unfold mark_stage_dirty, bind, get, modify in Hrun.
      rewrite Hstage, Hsr in Hrun. injection Hrun as <-.
      rewrite dirty_upd_stage. by apply dirty_grows_upd_dirty.
    + unfold bind, ret, modify in Hrun. injection Hrun as <-.
      by rewrite dirty_upd_stage.
Qed.

(** X10: [removeChildAt] on a container that is on a stage takes the whole
    subtree of the removed child off the stage: the call comes back with
    the child, every node of the subtree then has a null stage reference,
    no stage reference outside the subtree has changed (the container stays
    on its stage), and the stage of each interactive node of the subtree
    has been marked dirty.  The child heads a finite subtree without
    repeated nodes whose interactive nodes hold a stage reference. *)
Theorem removeChildAt_detaches_subtree fuel this index h t s :
  stage (obj h this) = Some s →
  0 ≤ index < Z.of_nat (length (children (obj h this))) →
  children (obj h this) !! Z.to_nat index = Some (root t) →
  shape (kids h) t → NoDup (nodes t) → attached_interactive h (nodes t) →
  (depth t ≤ fuel)%nat →
  ∃ h', removeChildAt fuel this index h = Ok (root t) h'
        ∧ (∀ x, x ∈ nodes t → stage (obj h' x) = None)
        ∧ (∀ x, x ∉ nodes t → stage (obj h' x) = stage (obj h x))
        ∧ stage (obj h' this) = Some s
        ∧ (∀ x s', x ∈ nodes t → _interactive (obj h x) = true →
                   stage (obj h x) = Some s' → dirty (obj h' s') = true).
Proof.
  intros Hst Hr Hc Hshape Hnd Hatt Hfuel.
  assert (Hthis : this ∉ nodes t).
  { intros Hin. apply (shape_no_back_edge _ _ _ Hshape Hnd Hin).
    unfold kids. by eapply list_elem_of_lookup_2. }
  destruct (removeStageReference_tree t fuel h Hshape Hnd Hatt Hfuel)
    as (h0 & Hrun & Hout & Hin).
  pose proof (removeStageReference_tree_dirty t fuel h h0 Hshape Hnd Hatt Hfuel Hrun)
    as Hdirty.
  exists (unlink this (root t) (Z.to_nat index) h0).
  rewrite (removeChildAt_run _ _ _ _ _ Hr Hc). unfold detach_if_staged.
  rewrite Hst, Hrun. split; [done|]. split; [|split; [|split]].
  - intros x Hx. rewrite (proj1 (rest_unlink _ _ _ _ _)). by apply Hin.
  - intros x Hx. rewrite (proj1 (rest_unlink _ _ _ _ _)). by apply Hout.
  - rewrite (proj1 (rest_unlink _ _ _ _ _)), Hout; done.
  - intros x s' Hx Hi Hs. rewrite (proj2 (proj2 (rest_unlink _ _ _ _ _))).
    by apply (Hdirty x s').
Qed.

(** The interactive child [2] is taken out of the container [1], both on
    the stage [9]. *)
Lemma removeChildAt_detaches_subtree_witness :
  ∃ h', removeChildAt 1 1%nat 0 attached_pair = Ok 2%nat h'
        ∧ stage (obj h' 2%nat) = None
        ∧ stage (obj h' 1%nat) = Some 9%nat
        ∧ dirty (obj h' 9%nat) = true.
Proof.
  destruct (removeChildAt_detaches_subtree 1 1%nat 0 attached_pair (Node 2%nat []) 9%nat)
    as (h' & Hrun & Hin & _ & Hthis & Hd).
  - reflexivity.
  - vm_compute. split; [discriminate|reflexivity].
  - reflexivity.
  - constructor; [reflexivity|constructor].
  - simpl. apply NoDup_singleton.
  - intros x Hx _. simpl in Hx. apply list_elem_of_singleton in Hx. subst x.
    by eexists.
  - simpl. lia.
  - exists h'. split; [exact Hrun|]. split; [|split; [exact Hthis|]].
    + apply Hin. simpl. apply list_elem_of_here.
    + apply (Hd 2%nat 9%nat); [apply list_elem_of_here|reflexivity|reflexivity].
Defined.

(** ** Transform updates *)

#[local] Instance transform_frame_refl : Reflexive transform_frame.
Proof. by intros h r. Qed.

#[local] Instance transform_frame_trans : Transitive transform_frame.
Proof. intros h1 h2 h3 H12 H23 r. by rewrite H23. Qed.

#[local] Instance keeps_transform_refl this : Reflexive (keeps_transform this).
Proof. by intros h. Qed.

#[local] Instance keeps_transform_trans this : Transitive (keeps_transform this).
Proof. unfold keeps_transform. intros h1 h2 h3 H12 H23. by rewrite H23. Qed.

Lemma transform_frame_children h h' r :
  transform_frame h h' → children (obj h' r) = children (obj h r).
Proof. intros Hf. exact (f_equal children (Hf r)). Qed.

Lemma transform_frame_visible h h' r :
  transform_frame h h' → visible (obj h' r) = visible (obj h r).
Proof. intros Hf. exact (f_equal visible (Hf r)). Qed.

Lemma transform_frame_cacheAsBitmap h h' r :
  transform_frame h h' → _cacheAsBitmap (obj h' r) = _cacheAsBitmap (obj h r).
Proof. intros Hf. exact (f_equal _cacheAsBitmap (Hf r)). Qed.

Lemma transform_frame_upd h r m : transform_frame h (upd r (set_worldTransform m) h).
Proof. intros x. rewrite obj_upd. by destruct (decide (x = r)) as [->|]. Qed.

Lemma active_frame h h' t : transform_frame h h' → active h' t = active h t.
Proof.
  intros Hf. induction t as [r ts IH] using tree_ind'. simpl.
  rewrite (transform_frame_visible _ _ _ Hf), (transform_frame_cacheAsBitmap _ _ _ Hf).
  destruct (visible _); [|done]. destruct (_cacheAsBitmap _); [done|]. f_equal.
  induction IH as [|t ts Ht _ IHts]; [done|]. by rewrite !bind_cons, Ht, IHts.
Qed.

Lemma active_forest_frame h h' ts :
  transform_frame h h' → ts ≫= active h' = ts ≫= active h.
Proof.
  intros Hf. induction ts as [|t ts IH]; [done|].
  by rewrite !bind_cons, (active_frame _ _ _ Hf), IH.
Qed.

Lemma active_nodes h t x : x ∈ active h t → x ∈ nodes t.
Proof.
  revert x. induction t as [r ts IH] using tree_ind'. intros x. simpl.
  destruct (visible _); [|by intros ?%elem_of_nil].
  intros [->|Hx]%elem_of_cons; [apply list_elem_of_here|].
  apply list_elem_of_further. destruct (_cacheAsBitmap _); [by apply elem_of_nil in Hx|].
  apply list_elem_of_bind in Hx as (t & Hx & Ht). apply list_elem_of_bind.
  exists t. split; [|done]. rewrite Forall_forall in IH. by apply IH.
Qed.

Lemma for_each_app {A} (l1 l2 : list A) (body : A → M unit) h :
  for_each (l1 ++ l2) body h = bind (for_each l1 body) (fun _ => for_each l2 body) h.
Proof.
  revert h. induction l1 as [|a l1 IH]; intros h; simpl; [done|].
  unfold bind. destruct (body a h) as [[] h1|e h1|]; [|done..]. by rewrite IH.
Qed.

Lemma bind_OutOfFuel {A B} (m : M A) (k : A → M B) h :
  m h = OutOfFuel → bind m k h = OutOfFuel.
Proof. intros H. unfold bind. by rewrite H. Qed.

Lemma bind_cong_l {A B} (m m' : M A) (k : A → M B) h :
  m h = m' h → bind m k h = bind m' k h.
Proof. intros H. unfold bind. by rewrite H. Qed.

Section TransformProperties.

Variable ext : ref → M unit.
Hypothesis ext_frame : ∀ r, preserves transform_frame (ext r).

Lemma updateTransform_frame fuel this :
  preserves transform_frame (updateTransform ext fuel this).
Proof.
  revert this. induction fuel as [|fuel IH]; intros this; simpl; pres.
  destruct (negb _); pres; [apply ext_frame|]. destruct (_cacheAsBitmap _); pres.
  apply IH.
Qed.

Lemma updateTransform_children fuel this ts :
  Forall (λ t, ∀ fuel h, shape (kids h) t → (depth t ≤ fuel)%nat →
                 updateTransform ext fuel (root t) h = for_each (active h t) ext h) ts →
  ∀ i h,
    drop i (kids h this) = root <$> ts →
    Forall (shape (kids h)) ts →
    Forall (λ t, (depth t ≤ fuel)%nat) ts →
    for_loop (length ts) i
      (fun i _ => let* c := child_at this i in updateTransform ext fuel c) tt h
    = for_each (ts ≫= active h) ext h.
Proof.
  induction ts as [|t ts IH]; intros Hall i h Hdrop Hshape Hfuel; [done|].
  apply Forall_cons in Hall as [Ht Hall]. apply Forall_cons in Hshape as [Hst Hshape].
  apply Forall_cons in Hfuel as [Hft Hfuel].
  simpl in Hdrop. apply drop_cons_inv in Hdrop as [Hi Hdrop].
  rewrite bind_cons, for_each_app. cbn [length for_loop].
  assert (Hbody : bind (child_at this i) (fun c => updateTransform ext fuel c) h
                  = for_each (active h t) ext h).
  { rewrite (bind_Ok _ _ _ _ _ (child_at_Ok _ _ _ _ Hi)). by apply Ht. }
  destruct (for_each (active h t) ext h) as [[] h1|e h1|] eqn:Hrun.
  2:{ by rewrite (bind_Throw _ _ _ _ _ Hbody), (bind_Throw _ _ _ _ _ Hrun). }
  2:{ by rewrite (bind_OutOfFuel _ _ _ Hbody), (bind_OutOfFuel _ _ _ Hrun). }
  rewrite (bind_Ok _ _ _ _ _ Hbody), (bind_Ok _ _ _ _ _ Hrun).
  assert (Hf : transform_frame h h1).
  { eapply post_Ok; [|exact Hrun]. by apply preserves_for_each; [apply _..|]. }
  rewrite <- (active_forest_frame _ _ _ Hf). apply IH; [done| | |done].
  - unfold kids in *. by rewrite (transform_frame_children _ _ _ Hf).
  - eapply Forall_impl; [exact Hshape|]. intros t'. apply shape_ext.
    intros x _. unfold kids. by apply transform_frame_children.
Qed.

Lemma updateTransform_tree t fuel h :
  shape (kids h) t → (depth t ≤ fuel)%nat →
  updateTransform ext fuel (root t) h = for_each (active h t) ext h.
Proof.
  revert fuel h. induction t as [r ts IH] using tree_ind'. intros fuel h Hshape Hfuel.
  inversion Hshape as [r' ts' Hr Hts]; subst.
  destruct fuel as [|fuel]; [simpl in Hfuel; lia|].
  apply depth_subtrees in Hfuel.
  cbn [updateTransform root active]. unfold bind at 1, get at 1.
  destruct (visible (obj h r)); cbn [negb]; [|done]. cbn [for_each].
  destruct (ext r h) as [[] h1|e h1|] eqn:Hrun.
  2:{ by rewrite !(bind_Throw _ _ _ _ _ Hrun). }
  2:{ by rewrite !(bind_OutOfFuel _ _ _ Hrun). }
  rewrite !(bind_Ok _ _ _ _ _ Hrun).
  pose proof (post_Ok _ _ _ _ _ (ext_frame r) Hrun) as Hf.
  unfold bind at 1, get at 1.
  rewrite (transform_frame_cacheAsBitmap _ _ _ Hf).
  destruct (_cacheAsBitmap (obj h r)); [done|].
  rewrite (transform_frame_children _ _ _ Hf). fold (kids h r). rewrite Hr, length_fmap.
  rewrite <- (active_forest_frame _ _ _ Hf).
  apply updateTransform_children; [done| | |done].
  - simpl. unfold kids in *. by rewrite (transform_frame_children _ _ _ Hf).
  - eapply Forall_impl; [exact Hts|]. intros t'. apply shape_ext.
    intros x _. unfold kids. by apply transform_frame_children.
Qed.

Lemma for_each_keeps_transform this (l : list ref) :
  this ∉ l →
  (∀ r, r ≠ this → preserves (keeps_transform this) (ext r)) →
  preserves (keeps_transform this) (for_each l ext).
Proof.
  intros Hl Hext. induction l as [|a l IH]; [by intros h|].
  cbn [for_each]. apply preserves_bind; try apply _.
  - apply Hext. intros ->. apply Hl, list_elem_of_here.
  - intros _. apply IH. intros Hin. by apply Hl, list_elem_of_further.
Qed.

End TransformProperties.

Lemma active_visible h t x : x ∈ active h t → visible (obj h x) = true.
Proof.
  revert x. induction t as [r ts IH] using tree_ind'. intros x. cbn [active].
  destruct (visible (obj h r)) eqn:Hv; [|by intros ?%elem_of_nil].
  intros [->|Hx]%elem_of_cons; [done|].
  destruct (_cacheAsBitmap _); [by apply elem_of_nil in Hx|].
  apply list_elem_of_bind in Hx as (t & Hx & Ht).
  rewrite Forall_forall in IH. by apply (IH t).
Qed.

Lemma active_all h t :
  (∀ x, x ∈ nodes t → visible (obj h x) = true ∧ _cacheAsBitmap (obj h x) = false) →
  active h t = nodes t.
Proof.
  induction t as [r ts IH] using tree_ind'. intros Hall. cbn [active nodes].
  destruct (Hall r) as [-> ->]; [apply list_elem_of_here|]. f_equal.
  assert (Hts : ∀ t, t ∈ ts → active h t = nodes t).
  { intros t Ht. rewrite Forall_forall in IH. apply IH; [done|].
    intros x Hx. apply Hall. cbn [nodes]. apply list_elem_of_further.
    apply list_elem_of_bind. by exists t. }
  clear IH Hall. induction ts as [|t ts IHts]; [done|].
  rewrite !bind_cons, Hts by apply list_elem_of_here. f_equal.
  apply IHts. intros t' Ht'. apply Hts. by apply list_elem_of_further.
Qed.

Lemma own_transform_frame r : preserves transform_frame (own_transform r).
Proof. apply preserves_modify. intros h. apply transform_frame_upd. Qed.

Lemma failing_transform_frame r : preserves transform_frame (failing_transform r).
Proof.
  unfold failing_transform. destruct (decide _); [|apply own_transform_frame].
  by intros h.
Qed.

(** X11: on a finite tree, [updateTransform] runs the base-class update
    once for each node that is visible and lies below neither an invisible
    node nor one cached as a bitmap, a node before its children and the
    children in list order, stopping at the first update that throws; it
    does nothing at all on an invisible root, and on a tree whose nodes are
    all visible and uncached it updates every node in pre-order.  The
    base-class update is taken to write world transforms only. *)
Theorem updateTransform_preorder ext fuel h t :
  (∀ r, preserves transform_frame (ext r)) →
  shape (kids h) t → (depth t ≤ fuel)%nat →
  updateTransform ext fuel (root t) h = for_each (active h t) ext h
  ∧ (∀ x, x ∈ active h t → x ∈ nodes t ∧ visible (obj h x) = true)
  ∧ (visible (obj h (root t)) = false → updateTransform ext fuel (root t) h = Ok tt h)
  ∧ ((∀ x, x ∈ nodes t →
           visible (obj h x) = true ∧ _cacheAsBitmap (obj h x) = false) →
     updateTransform ext fuel (root t) h = for_each (nodes t) ext h).
Proof.
  intros Hext Hshape Hfuel.
  pose proof (updateTransform_tree ext Hext t fuel h Hshape Hfuel) as Hrun.
  split; [done|]. split; [|split].
  - intros x Hx. split; [by eapply active_nodes|by eapply active_visible].
  - intros Hv. rewrite Hrun. destruct t as [r ts]. cbn [active root] in *. by rewrite Hv.
  - intros Hall. by rewrite Hrun, active_all.
Qed.

Lemma updateTransform_preorder_witness :
  updateTransform own_transform 2 1%nat two_children
  = for_each [1%nat; 2%nat; 3%nat] own_transform two_children.
Proof.
  destruct (updateTransform_preorder own_transform 2 two_children
              (Node 1%nat [Node 2%nat []; Node 3%nat []]))
    as (_ & _ & _ & Hall).
  - apply own_transform_frame.
  - constructor; [reflexivity|]. repeat constructor.
  - simpl. lia.
  - apply Hall. intros x Hx. cbn in Hx.
    repeat (apply elem_of_cons in Hx as [->|Hx]; [split; reflexivity|]).
    by apply elem_of_nil in Hx.
Defined.

Lemma bounds_frame_worldTransform h h' r :
  bounds_frame h h' → worldTransform (obj h' r) = worldTransform (obj h r).
Proof. intros Hf. exact (f_equal worldTransform (Hf r)). Qed.

Lemma getLocalBounds_run ext fuel this ts h :
  (∀ r, preserves transform_frame (ext r)) →
  shape (kids h) (Node this ts) → (depth (Node this ts) ≤ fuel)%nat →
  getLocalBounds ext fuel this h
  = bind (for_each (ts ≫= active h) ext)
      (fun _ => bind (modify this (set_worldTransform (worldTransform (obj h this))))
                  (fun _ => getBounds fuel this))
      (upd this (set_worldTransform IDENTITY_ref) h).
Proof.
  intros Hext Hshape Hfuel. inversion Hshape as [r' ts' Hr Hts]; subst.
  destruct fuel as [|fuel]; [simpl in Hfuel; lia|].
  apply depth_subtrees in Hfuel.
  set (h0 := upd this (set_worldTransform IDENTITY_ref) h).
  assert (Hf0 : transform_frame h h0) by apply transform_frame_upd.
  unfold getLocalBounds. unfold bind at 1, get at 1. unfold bind at 1, modify at 1.
  fold h0. unfold bind at 1, get at 1.
  rewrite (transform_frame_children _ _ _ Hf0). fold (kids h this).
  rewrite Hr, length_fmap. apply bind_cong_l.
  rewrite <- (active_forest_frame _ _ _ Hf0).
  apply (updateTransform_children ext Hext (S fuel) this ts).
  - apply Forall_forall. intros t _ fuel' h' Hs Hd. by apply updateTransform_tree.
  - simpl. unfold kids in *. by rewrite (transform_frame_children _ _ _ Hf0).
  - eapply Forall_impl; [exact Hts|]. intros t'. apply shape_ext.
    intros x _. unfold kids. by apply transform_frame_children.
  - eapply Forall_impl; [exact Hfuel|]. intros t' Ht'. simpl in Ht'. lia.
Qed.

(** X12: [getLocalBounds] on a container that heads a finite tree updates
    the transforms below its visible children while its own world transform
    reads as the identity.  When those updates come back normally it
    returns what [getBounds] then reports, with the world transform of the
    container as it was before the call.  When one of them throws, the call
    throws with the heap as the failed update left it: the saved transform
    is not put back, so with a base-class update that writes no transform
    but its receiver's, the container is left with the identity.  The
    base-class update is taken to write world transforms only. *)
Theorem getLocalBounds_restores_transform ext fuel this ts h :
  (∀ r, preserves transform_frame (ext r)) →
  shape (kids h) (Node this ts) → (depth (Node this ts) ≤ fuel)%nat →
  (∀ h1, for_each (ts ≫= active h) ext (upd this (set_worldTransform IDENTITY_ref) h)
         = Ok tt h1 →
     ∃ b h', getLocalBounds ext fuel this h = Ok b h'
             ∧ getBounds fuel this
                 (upd this (set_worldTransform (worldTransform (obj h this))) h1)
               = Ok b h'
             ∧ worldTransform (obj h' this) = worldTransform (obj h this))
  ∧ (∀ e h1, for_each (ts ≫= active h) ext (upd this (set_worldTransform IDENTITY_ref) h)
             = Throw e h1 →
     getLocalBounds ext fuel this h = Throw e h1
     ∧ (this ∉ ts ≫= nodes →
        (∀ r, r ≠ this → preserves (keeps_transform this) (ext r)) →
        worldTransform (obj h1 this) = IDENTITY_ref)).
Proof.
  intros Hext Hshape Hfuel.
  rewrite (getLocalBounds_run ext fuel this ts h Hext Hshape Hfuel).
  set (h0 := upd this (set_worldTransform IDENTITY_ref) h).
  assert (Hf0 : transform_frame h h0) by apply transform_frame_upd.
  split.
  - intros h1 Hrun. rewrite (bind_Ok _ _ _ _ _ Hrun).
    assert (Hf1 : transform_frame h0 h1).
    { eapply post_Ok; [|exact Hrun]. by apply preserves_for_each; [apply _..|]. }
    unfold bind at 1, modify at 1.
    set (h2 := upd this (set_worldTransform (worldTransform (obj h this))) h1).
    assert (Hf2 : transform_frame h h2).
    { etrans; [exact Hf0|]. etrans; [exact Hf1|]. apply transform_frame_upd. }
    destruct (getBounds_tree (Node this ts) fuel h2) as (b & h' & Hgb); [|done|].
    { eapply shape_ext; [|exact Hshape]. intros x _. unfold kids.
      by apply transform_frame_children. }
    simpl root in Hgb. exists b, h'. split; [done|]. split; [done|].
    rewrite (bounds_frame_worldTransform _ _ _
               (post_Ok _ _ _ _ _ (getBounds_frame fuel this) Hgb)).
    unfold h2. by rewrite obj_upd_eq.
  - intros e h1 Hrun. rewrite (bind_Throw _ _ _ _ _ Hrun). split; [done|].
    intros Hthis Hkeep.
    assert (Hk : preserves (keeps_transform this) (for_each (ts ≫= active h) ext)).
    { apply for_each_keeps_transform; [|done]. intros Hin. apply Hthis.
      apply list_elem_of_bind in Hin as (t & Hx & Ht). apply list_elem_of_bind.
      exists t. split; [by eapply active_nodes|done]. }
    specialize (Hk h0). unfold post in Hk. rewrite Hrun in Hk.
    unfold keeps_transform in Hk. rewrite Hk. unfold h0. by rewrite obj_upd_eq.
Qed.

(** The container [1] over the visible leaves [2] and [3]: with an update
    that succeeds the transform of [1] is put back, with one that fails on
    [3] the container is left with the identity. *)
Lemma getLocalBounds_restores_transform_witness :
  (∃ b h', getLocalBounds own_transform 2 1%nat two_visible = Ok b h'
           ∧ worldTransform (obj h' 1%nat) = matrix_ref 1%nat)
  ∧ (∃ h1, getLocalBounds failing_transform 2 1%nat two_visible = Throw TypeError h1
           ∧ worldTransform (obj h1 1%nat) = IDENTITY_ref).
Proof.
  split.
  - destruct (getLocalBounds_restores_transform own_transform 2 1%nat
                [Node 2%nat []; Node 3%nat []] two_visible) as [HOk _].
    + apply own_transform_frame.
    + constructor; [reflexivity|]. repeat constructor.
    + simpl. lia.
    + edestruct HOk as (b & h' & Hrun & _ & Hw); [vm_compute; reflexivity|].
      exists b, h'. split; [exact Hrun|exact Hw].
  - destruct (getLocalBounds_restores_transform failing_transform 2 1%nat
                [Node 2%nat []; Node 3%nat []] two_visible) as [_ HThrow].
    + apply failing_transform_frame.
    + constructor; [reflexivity|]. repeat constructor.
    + simpl. lia.
    + edestruct HThrow as (Hrun & Hw); [vm_compute; reflexivity|].
      eexists. split; [exact Hrun|]. reflexivity.
Defined.

(** ** The size of a container without children *)

Lemma set_worldTransform_back (o : DisplayObject) m :
  set_worldTransform (worldTransform o) (set_worldTransform m o) = o.
Proof. by destruct o. Qed.

Lemma getLocalBounds_childless ext fuel this h :
  children (obj h this) = [] →
  ∃ h1, getLocalBounds ext (S fuel) this h = Ok EMPTY_ref h1
        ∧ ∀ r, obj h1 r = obj h r.
Proof.
  intros Hnil. unfold getLocalBounds, bind, get, modify.
  rewrite obj_upd_eq. cbn [children set_worldTransform]. rewrite Hnil.
  cbn [length for_loop ret].
  set (h1 := upd this _ (upd this _ h)).
  assert (Hobj : ∀ r, obj h1 r = obj h r).
  { intros r. unfold h1. rewrite !obj_upd. destruct (decide (r = this)) as [->|]; [|done].
    destruct (decide (this = this)); [|done]. apply set_worldTransform_back. }
  exists h1. split; [|done].
  cbn [getBounds]. unfold bind, get, ret. by rewrite Hobj, Hnil.
Qed.

(** X13: on a container without children the local bounds are the empty
    rectangle, so the [width] getter returns [scale.x * 0] and the [height]
    getter [scale.y * 0]; the [width] setter stores 1 in [scale.x] and the
    value in [_width] and changes nothing else, after which the getter
    returns 0 whatever value was set; and likewise for [height]. *)
Theorem empty_container_size ext fuel this value h :
  children (obj h this) = [] →
  (∃ h1, width_get ext (S fuel) this h
         = Ok (Point.x (scale (obj h this)) * 0)%float h1
         ∧ ∀ r, obj h1 r = obj h r)
  ∧ (∃ h1, height_get ext (S fuel) this h
           = Ok (Point.y (scale (obj h this)) * 0)%float h1
           ∧ ∀ r, obj h1 r = obj h r)
  ∧ (∃ h1 h2, width_set ext (S fuel) this value h = Ok tt h1
              ∧ (∀ r, obj h1 r
                      = if decide (r = this)
                        then set_width value
                               (set_scale (Point.mk 1 (Point.y (scale (obj h this))))
                                  (obj h this))
                        else obj h r)
              ∧ width_get ext (S fuel) this h1 = Ok 0%float h2)
  ∧ (∃ h1 h2, height_set ext (S fuel) this value h = Ok tt h1
              ∧ (∀ r, obj h1 r
                      = if decide (r = this)
                        then set_height value
                               (set_scale (Point.mk (Point.x (scale (obj h this))) 1)
                                  (obj h this))
                        else obj h r)
              ∧ height_get ext (S fuel) this h1 = Ok 0%float h2).
Proof.
  intros Hnil.
  destruct (getLocalBounds_childless ext fuel this h Hnil) as (h0 & Hlb & Hobj).
  split; [|split; [|split]].
  - exists h0. unfold width_get. unfold bind at 1, get at 1.
    rewrite (bind_Ok _ _ _ _ _ Hlb). done.
  - exists h0. unfold height_get. unfold bind at 1, get at 1.
    rewrite (bind_Ok _ _ _ _ _ Hlb). done.
  - set (h1 := upd this (set_width value)
                 (upd this (fun o => set_scale (Point.mk 1%float (Point.y (scale o))) o)
                    h0)).
    assert (Hobj1 : ∀ r, obj h1 r
                         = if decide (r = this)
                           then set_width value
                                  (set_scale (Point.mk 1 (Point.y (scale (obj h this))))
                                     (obj h this))
                           else obj h r).
    { intros r. unfold h1. rewrite !obj_upd. destruct (decide (r = this)) as [->|]; [|done].
      destruct (decide (this = this)); [|done]. by rewrite Hobj. }
    destruct (getLocalBounds_childless ext fuel this h1) as (h2 & Hlb2 & _).
    { rewrite Hobj1. by destruct (decide (this = this)). }
    exists h1, h2. split; [|split; [done|]].
    + unfold width_set. rewrite (bind_Ok _ _ _ _ _ Hlb). done.
    + unfold width_get. unfold bind at 1, get at 1.
      rewrite (bind_Ok _ _ _ _ _ Hlb2). rewrite Hobj1.
      by destruct (decide (this = this)).
  - set (h1 := upd this (set_height value)
                 (upd this (fun o => set_scale (Point.mk (Point.x (scale o)) 1%float) o)
                    h0)).
    assert (Hobj1 : ∀ r, obj h1 r
                         = if decide (r = this)
                           then set_height value
                                  (set_scale (Point.mk (Point.x (scale (obj h this))) 1)
                                     (obj h this))
                           else obj h r).
    { intros r. unfold h1. rewrite !obj_upd. destruct (decide (r = this)) as [->|]; [|done].
      destruct (decide (this = this)); [|done]. by rewrite Hobj. }
    destruct (getLocalBounds_childless ext fuel this h1) as (h2 & Hlb2 & _).
    { rewrite Hobj1. by destruct (decide (this = this)). }
    exists h1, h2. split; [|split; [done|]].
    + unfold height_set. rewrite (bind_Ok _ _ _ _ _ Hlb). done.
    + unfold height_get. unfold bind at 1, get at 1.
      rewrite (bind_Ok _ _ _ _ _ Hlb2). rewrite Hobj1.
      by destruct (decide (this = this)).
Qed.

(** The leaf [2] of [two_children], asked to be 50 wide. *)
Lemma empty_container_size_witness :
  ∃ h1 h2, width_set no_transform 1 2%nat 50 two_children = Ok tt h1
           ∧ Point.x (scale (obj h1 2%nat)) = 1%float
           ∧ _width (obj h1 2%nat) = 50%float
           ∧ width_get no_transform 1 2%nat h1 = Ok 0%float h2.
Proof.
  destruct (empty_container_size no_transform 0 2%nat 50 two_children)
    as (_ & _ & (h1 & h2 & Hset & Hobj & Hget) & _); [reflexivity|].
  exists h1, h2. split; [exact Hset|]. split; [|split; [|exact Hget]].
  - rewrite Hobj. reflexivity.
  - rewrite Hobj. reflexivity.
Defined.

(** ** Render passes *)

Lemma nesting_app st a b :
  nesting st (a ++ b) = nesting st a ≫= λ st', nesting st' b.
Proof.
  revert st. induction a as [|c a IH]; intros st; [done|].
  destruct c; simpl; try apply IH.
  - destruct st as [|[] ?]; [done|apply IH|done].
  - destruct st as [|[] ?]; [done|done|]. destruct (decide _); [apply IH|done].
  - destruct st as [|[] ?]; [done|done|apply IH].
Qed.

Lemma batch_app b0 a b :
  batch b0 (a ++ b) = batch b0 a ≫= λ b1, batch b1 b.
Proof.
  revert b0. induction a as [|c a IH]; intros b0; [done|].
  destruct c, b0; simpl; try done; apply IH.
Qed.

Lemma nesting_app_closed st a b :
  (∀ st, nesting st a = Some st) → nesting st (a ++ b) = nesting st b.
Proof. intros Ha. by rewrite nesting_app, Ha. Qed.

Lemma batch_app_closed a b :
  batch true a = Some true → batch true (a ++ b) = batch true b.
Proof. intros Ha. by rewrite batch_app, Ha. Qed.

Lemma renderWebGL_children fuel this ts :
  Forall (λ t, ∀ fuel h, shape (kids h) t → (depth t ≤ fuel)%nat →
                 ∃ cs, _renderWebGL fuel (root t) h = Ok cs h
                       ∧ (∀ st, nesting st cs = Some st)
                       ∧ batch true cs = Some true) ts →
  ∀ i h acc,
    drop i (kids h this) = root <$> ts →
    Forall (shape (kids h)) ts →
    Forall (λ t, (depth t ≤ fuel)%nat) ts →
    (∀ st, nesting st acc = Some st) → batch true acc = Some true →
    ∃ cs, for_loop (length ts) i
            (fun i calls =>
               let* c := child_at this i in
               let* co := get c in
               let* cs := match class co with
                          | Container => _renderWebGL fuel c
                          | Subclass => ret [subclass_renderWebGL c]
                          end in
               ret (calls ++ cs)) acc h = Ok cs h
          ∧ (∀ st, nesting st cs = Some st)
          ∧ batch true cs = Some true.
Proof.
  induction ts as [|t ts IH]; intros Hall i h acc Hdrop Hshape Hfuel Hn Hb.
  - exists acc. by split.
  - apply Forall_cons in Hall as [Ht Hall]. apply Forall_cons in Hshape as [Hst Hshape].
    apply Forall_cons in Hfuel as [Hft Hfuel].
    simpl in Hdrop. apply drop_cons_inv in Hdrop as [Hi Hdrop].
    assert (Hc : ∃ cs, match class (obj h (root t)) with
                       | Container => _renderWebGL fuel (root t)
                       | Subclass => ret [subclass_renderWebGL (root t)]
                       end h = Ok cs h
                       ∧ (∀ st, nesting st cs = Some st)
                       ∧ batch true cs = Some true).
    { destruct (class _); [by apply Ht|]. by eexists. }
    destruct Hc as (cs1 & Hrun & Hn1 & Hb1).
    destruct (IH Hall (S i) h (acc ++ cs1) Hdrop Hshape Hfuel) as (cs & Hloop & Hn2 & Hb2).
    { intros st. by rewrite nesting_app_closed. }
    { by rewrite batch_app_closed. }
    exists cs. split; [|done]. cbn [length for_loop].
    erewrite bind_Ok; [exact Hloop|].
    rewrite (bind_Ok _ _ _ _ _ (child_at_Ok _ _ _ _ Hi)).
    unfold bind at 1, get at 1. by rewrite (bind_Ok _ _ _ _ _ Hrun).
Qed.

(** X14: on a finite tree a WebGL render pass comes back normally and
    leaves the heap as it was; in the calls it makes, every filter or mask
    pop meets the push of its kind that is innermost open, a mask pop names
    the mask that was pushed, and nothing pushed stays open; the sprite
    batch is stopped and started in turn and ends started, masks are
    pushed and masks and filters popped while it is stopped, and children
    and cached sprites are rendered while it is started. *)
Theorem renderWebGL_pushes_nest fuel h t :
  shape (kids h) t → (depth t ≤ fuel)%nat →
  ∃ cs, _renderWebGL fuel (root t) h = Ok cs h
        ∧ (∀ st, nesting st cs = Some st)
        ∧ batch true cs = Some true.
Proof.
  revert fuel h. induction t as [r ts IH] using tree_ind'. intros fuel h Hshape Hfuel.
  inversion Hshape as [r' ts' Hr Hts]; subst.
  destruct fuel as [|fuel]; [simpl in Hfuel; lia|].
  apply depth_subtrees in Hfuel.
  destruct (renderWebGL_children fuel r ts IH 0%nat h [] Hr Hts Hfuel)
    as (cs & Hloop & Hn & Hb); [done..|].
  cbn [_renderWebGL root]. unfold bind at 1, get at 1.
  destruct (negb (visible (obj h r)) || (alpha (obj h r) <=? 0)%float); [by exists []|].
  destruct (_cacheAsBitmap (obj h r)); [by eexists|].
  fold (kids h r). rewrite Hr, length_fmap.
  destruct (_mask (obj h r)) as [m|] eqn:Hm; destruct (_filters (obj h r)) as [f|] eqn:Hf;
    cbn [truthy orb].
  - rewrite (bind_Ok _ _ _ _ _ Hloop). unfold bind, get, ret. rewrite Hm, Hf.
    cbn [truthy]. eexists. split; [done|]. split.
    + intros st. cbn [app nesting]. rewrite nesting_app_closed by done. simpl.
      by destruct (decide (Some m = Some m)).
    + cbn [app batch]. by rewrite batch_app_closed.
  - rewrite (bind_Ok _ _ _ _ _ Hloop). unfold bind, get, ret. rewrite Hm, Hf.
    cbn [truthy]. eexists. split; [done|]. split.
    + intros st. cbn [app nesting]. rewrite nesting_app_closed by done. simpl.
      by destruct (decide (Some m = Some m)).
    + cbn [app batch]. by rewrite batch_app_closed.
  - rewrite (bind_Ok _ _ _ _ _ Hloop). unfold bind, get, ret. rewrite Hm, Hf.
    cbn [truthy]. eexists. split; [done|]. split.
    + intros st. cbn [app nesting]. by rewrite nesting_app_closed.
    + cbn [app batch]. by rewrite batch_app_closed.
  - by exists cs.
Qed.

Lemma renderWebGL_pushes_nest_witness :
  _renderWebGL 2 1%nat masked_container
  = Ok [spriteBatch_flush; filterManager_pushFilter 1%nat; spriteBatch_stop;
        maskManager_pushMask (Some 7%nat); spriteBatch_start;
        subclass_renderWebGL 2%nat; spriteBatch_stop;
        maskManager_popMask (Some 7%nat); filterManager_popFilter;
        spriteBatch_start] masked_container
  ∧ ∃ cs, _renderWebGL 2 1%nat masked_container = Ok cs masked_container
          ∧ nesting [] cs = Some [] ∧ batch true cs = Some true.
Proof.
  split; [reflexivity|].
  destruct (renderWebGL_pushes_nest 2 masked_container (Node 1%nat [Node 2%nat []]))
    as (cs & Hrun & Hn & Hb).
  - constructor; [reflexivity|]. repeat constructor.
  - simpl. lia.
  - exists cs. split; [exact Hrun|]. split; [apply Hn|exact Hb].
Defined.

Lemma renderCanvas_children fuel this ts :
  Forall (λ t, ∀ fuel h, shape (kids h) t → (depth t ≤ fuel)%nat →
                 ∃ cs, _renderCanvas fuel (root t) h = Ok cs h
                       ∧ ∀ st, nesting st cs = Some st) ts →
  ∀ i h acc,
    drop i (kids h this) = root <$> ts →
    Forall (shape (kids h)) ts →
    Forall (λ t, (depth t ≤ fuel)%nat) ts →
    (∀ st, nesting st acc = Some st) →
    ∃ cs, for_loop (length ts) i
            (fun i calls =>
               let* c := child_at this i in
               let* co := get c in
               let* cs := match class co with
                          | Container => _renderCanvas fuel c
                          | Subclass => ret [subclass_renderCanvas c]
                          end in
               ret (calls ++ cs)) acc h = Ok cs h
          ∧ ∀ st, nesting st cs = Some st.
Proof.
  induction ts as [|t ts IH]; intros Hall i h acc Hdrop Hshape Hfuel Hn.
  - exists acc. by split.
  - apply Forall_cons in Hall as [Ht Hall]. apply Forall_cons in Hshape as [Hst Hshape].
    apply Forall_cons in Hfuel as [Hft Hfuel].
    simpl in Hdrop. apply drop_cons_inv in Hdrop as [Hi Hdrop].
    assert (Hc : ∃ cs, match class (obj h (root t)) with
                       | Container => _renderCanvas fuel (root t)
                       | Subclass => ret [subclass_renderCanvas (root t)]
                       end h = Ok cs h
                       ∧ ∀ st, nesting st cs = Some st).
    { destruct (class _); [by apply Ht|]. by eexists. }
    destruct Hc as (cs1 & Hrun & Hn1).
    destruct (IH Hall (S i) h (acc ++ cs1) Hdrop Hshape Hfuel) as (cs & Hloop & Hn2).
    { intros st. by rewrite nesting_app_closed. }
    exists cs. split; [|done]. cbn [length for_loop].
    erewrite bind_Ok; [exact Hloop|].
    rewrite (bind_Ok _ _ _ _ _ (child_at_Ok _ _ _ _ Hi)).
    unfold bind at 1, get at 1. by rewrite (bind_Ok _ _ _ _ _ Hrun).
Qed.

(** X15: on a finite tree a Canvas render pass comes back normally and
    leaves the heap as it was; every mask pop it makes meets a mask push
    that is innermost open, and no push stays open. *)
Theorem renderCanvas_pushes_nest fuel h t :
  shape (kids h) t → (depth t ≤ fuel)%nat →
  ∃ cs, _renderCanvas fuel (root t) h = Ok cs h ∧ ∀ st, nesting st cs = Some st.
Proof.
  revert fuel h. induction t as [r ts IH] using tree_ind'. intros fuel h Hshape Hfuel.
  inversion Hshape as [r' ts' Hr Hts]; subst.
  destruct fuel as [|fuel]; [simpl in Hfuel; lia|].
  apply depth_subtrees in Hfuel.
  destruct (renderCanvas_children fuel r ts IH 0%nat h [] Hr Hts Hfuel)
    as (cs & Hloop & Hn); [done|].
  cbn [_renderCanvas root]. unfold bind at 1, get at 1.
  destruct (negb (visible (obj h r)) || (alpha (obj h r) =? 0)%float); [by exists []|].
  destruct (_cacheAsBitmap (obj h r)); [by eexists|].
  fold (kids h r). rewrite Hr, length_fmap.
  rewrite (bind_Ok _ _ _ _ _ Hloop). unfold bind, get, ret.
  eexists. split; [done|]. intros st.
  destruct (_mask (obj h r)) as [m|]; cbn [truthy app nesting].
  - rewrite nesting_app_closed by done. done.
  - rewrite nesting_app_closed by done. done.
Qed.

Lemma renderCanvas_pushes_nest_witness :
  _renderCanvas 2 1%nat masked_container
  = Ok [maskManager_pushMask (Some 7%nat); subclass_renderCanvas 2%nat;
        maskManager_popMask_session] masked_container
  ∧ ∃ cs, _renderCanvas 2 1%nat masked_container = Ok cs masked_container
          ∧ nesting [] cs = Some [].
Proof.
  split; [reflexivity|].
  destruct (renderCanvas_pushes_nest 2 masked_container (Node 1%nat [Node 2%nat []]))
    as (cs & Hrun & Hn).
  - constructor; [reflexivity|]. repeat constructor.
  - simpl. lia.
  - exists cs. split; [exact Hrun|apply Hn].
Defined.

(** ** Bounds over children without content or without a position *)

Lemma bounds_frame_visible h h' r :
  bounds_frame h h' → visible (obj h' r) = visible (obj h r).
Proof. intros Hf. exact (f_equal visible (Hf r)). Qed.

Lemma bounds_frame_class h h' r :
  bounds_frame h h' → class (obj h' r) = class (obj h r).
Proof. intros Hf. exact (f_equal class (Hf r)). Qed.

Lemma child_bounds_childless fuel cs c :
  ∀ h rs h1,
    child_bounds (S fuel) cs h = Ok rs h1 →
    c ∈ cs → visible (obj h c) = true → class (obj h c) = Container →
    children (obj h c) = [] →
    Rectangle.EMPTY ∈ rs.
Proof.
  induction cs as [|a cs IH]; intros h rs h1 Hcb Hc Hv Hcl Hnil.
  { by apply elem_of_nil in Hc. }
  cbn [child_bounds] in Hcb. unfold bind at 1, get at 1 in Hcb.
  destruct (visible (obj h a)) eqn:Hva.
  - apply bind_Ok_inv in Hcb as (b & h2 & Hb & Hcb).
    apply bind_Ok_inv in Hcb as (r & h2' & Hr & Hcb).
    unfold deref in Hr. injection Hr as <- <-.
    apply bind_Ok_inv in Hcb as (rs' & h3 & Hrs & Hret).
    injection Hret as <- <-.
    pose proof (post_Ok _ _ _ _ _ (child_getBounds_frame (S fuel) a) Hb) as Hf.
    apply elem_of_cons in Hc as [->|Hc].
    + unfold child_getBounds, bind at 1, get at 1 in Hb. rewrite Hcl in Hb.
      rewrite getBounds_unfold in Hb. unfold bind at 1, get at 1 in Hb.
      rewrite Hnil in Hb. cbn in Hb. injection Hb as <- <-. apply list_elem_of_here.
    + apply list_elem_of_further. apply (IH h2 rs' _ Hrs Hc).
      * by rewrite (bounds_frame_visible _ _ _ Hf).
      * by rewrite (bounds_frame_class _ _ _ Hf).
      * by rewrite (bounds_frame_children _ _ _ Hf).
  - apply elem_of_cons in Hc as [->|Hc]; [congruence|]. by apply (IH h rs h1).
Qed.

Lemma foldl_bounds_step_EMPTY rs :
  (∀ r, r ∈ rs → r = Rectangle.EMPTY) →
  foldl bounds_step (mkAcc 0 0 0 0 true) rs = mkAcc 0 0 0 0 true.
Proof.
  induction rs as [|r rs IH]; intros Hall; [done|].
  rewrite (Hall r) by apply list_elem_of_here. cbn [foldl].
  change (bounds_step (mkAcc 0 0 0 0 true) Rectangle.EMPTY) with (mkAcc 0 0 0 0 true).
  apply IH. intros r' Hr'. apply Hall. by apply list_elem_of_further.
Qed.

(** X16: a visible child that is a container without children reports the
    shared empty rectangle [(0,0,0,0)], and that rectangle enters the
    extrema like any other: the bounds of its parent then reach the origin
    ([minX] and [minY] are at most 0, [maxX] and [maxY] at least 0, when
    the components reported are numbers), and when every visible child
    reports the empty rectangle the parent returns its own rectangle set
    to [(0,0,0,0)], not the shared empty one. *)
Theorem getBounds_childless_child_reaches_origin fuel this h t c :
  root t = this → shape (kids h) t → (depth t ≤ S fuel)%nat →
  c ∈ children (obj h this) → visible (obj h c) = true →
  class (obj h c) = Container → children (obj h c) = [] →
  ∃ rs h1 h' mnX mnY mxX mxY,
    child_bounds fuel (children (obj h this)) h = Ok rs h1
    ∧ Rectangle.EMPTY ∈ rs
    ∧ getBounds (S fuel) this h = Ok (bounds_ref this) h'
    ∧ rect h' (bounds_ref this)
      = Rectangle.mk mnX mnY (mxX - mnX)%float (mxY - mnY)%float
    ∧ (Forall not_nan (Rectangle.x <$> rs) → (mnX <=? 0)%float = true)
    ∧ (Forall not_nan (Rectangle.y <$> rs) → (mnY <=? 0)%float = true)
    ∧ (Forall not_nan ((fun r => (Rectangle.width r + Rectangle.x r)%float) <$> rs) →
       (0 <=? mxX)%float = true)
    ∧ (Forall not_nan ((fun r => (Rectangle.height r + Rectangle.y r)%float) <$> rs) →
       (0 <=? mxY)%float = true)
    ∧ ((∀ r, r ∈ rs → r = Rectangle.EMPTY) →
       rect h' (bounds_ref this) = Rectangle.mk 0 0 0 0).
Proof.
  intros Hroot Hshape Hfuel Hc Hv Hcl Hnil. destruct t as [r ts]. simpl in Hroot. subst r.
  assert (Hm : Forall measures ts).
  { apply Forall_forall. intros t _. apply getBounds_tree. }
  destruct (child_bounds_tree this ts fuel h Hm Hshape Hfuel) as (rs & h1 & Hcb).
  assert (Hfuel' : ∃ fuel', fuel = S fuel').
  { destruct fuel as [|fuel']; [|by eexists]. exfalso.
    inversion Hshape as [r' ts' Hr Hts]; subst. unfold kids in Hr. rewrite Hr in Hc.
    destruct ts as [|[r0 ts0] ts]; [by apply elem_of_nil in Hc|]. simpl in Hfuel. lia. }
  destruct Hfuel' as (fuel' & ->).
  pose proof (child_bounds_childless fuel' _ c h rs h1 Hcb Hc Hv Hcl Hnil) as HE.
  assert (Hne : rs ≠ []) by (intros ->; by apply elem_of_nil in HE).
  set (acc := foldl bounds_step bounds_init rs).
  exists rs, h1,
    (upd this
       (set_bounds
          (Rectangle.mk (minX acc) (minY acc)
             (maxX acc - minX acc) (maxY acc - minY acc))) h1),
    (minX acc), (minY acc), (maxX acc), (maxY acc).
  split; [done|]. split; [done|].
  split. { rewrite (getBounds_run _ _ _ _ _ Hcb). destruct rs; [done|]. reflexivity. }
  split. { simpl. by rewrite obj_upd_eq. }
  assert (Hne' : ∀ {B} (f : Rectangle.t → B), f <$> rs ≠ []).
  { intros B f Heq. apply fmap_nil_inv in Heq. done. }
  split.
  { intros Hn. unfold acc. rewrite minX_foldl.
    destruct (foldl_js_min_infinity _ (Hne' _ Rectangle.x) Hn) as [_ Hmin].
    apply (Hmin 0%float). by apply (list_elem_of_fmap_2 Rectangle.x _ Rectangle.EMPTY). }
  split.
  { intros Hn. unfold acc. rewrite minY_foldl.
    destruct (foldl_js_min_infinity _ (Hne' _ Rectangle.y) Hn) as [_ Hmin].
    apply (Hmin 0%float). by apply (list_elem_of_fmap_2 Rectangle.y _ Rectangle.EMPTY). }
  split.
  { intros Hn. unfold acc. rewrite maxX_foldl.
    destruct (foldl_js_max_neg_infinity _ (Hne' _ _) Hn) as [_ Hmax].
    apply (Hmax 0%float).
    by apply (list_elem_of_fmap_2
                (fun r => (Rectangle.width r + Rectangle.x r)%float) _ Rectangle.EMPTY). }
  split.
  { intros Hn. unfold acc. rewrite maxY_foldl.
    destruct (foldl_js_max_neg_infinity _ (Hne' _ _) Hn) as [_ Hmax].
    apply (Hmax 0%float).
    by apply (list_elem_of_fmap_2
                (fun r => (Rectangle.height r + Rectangle.y r)%float) _ Rectangle.EMPTY). }
  intros Hall. simpl. rewrite obj_upd_eq. unfold acc.
  destruct rs as [|r0 rs]; [done|]. cbn [foldl].
  rewrite (Hall r0) by apply list_elem_of_here.
  change (bounds_step bounds_init Rectangle.EMPTY) with (mkAcc 0 0 0 0 true).
  rewrite foldl_bounds_step_EMPTY; [done|].
  intros r' Hr'. apply Hall. by apply list_elem_of_further.
Qed.

(** Beside a leaf at [(20,20,5,5)] the childless container [2] stretches
    the bounds of [1] to [(0,0,25,25)]. *)
Lemma getBounds_childless_child_reaches_origin_witness :
  ∃ h', getBounds 2 1%nat empty_beside_leaf = Ok (bounds_ref 1%nat) h'
        ∧ rect h' (bounds_ref 1%nat) = Rectangle.mk 0 0 25 25.
Proof.
  destruct (getBounds_childless_child_reaches_origin 1 1%nat empty_beside_leaf
              (Node 1%nat [Node 2%nat []; Node 3%nat []]) 2%nat)
    as (rs & h1 & h' & mnX & mnY & mxX & mxY & Hcb & _ & Hrun & Hrect & _).
  - reflexivity.
  - constructor; [reflexivity|]. repeat constructor.
  - simpl. lia.
  - apply list_elem_of_here.
  - reflexivity.
  - reflexivity.
  - reflexivity.
  - exists h'. split; [exact Hrun|].
    vm_compute in Hrun. injection Hrun as <-. reflexivity.
Defined.







(** ** The membership test of [swapChildren] *)

(** X18: the error of [swapChildren] itself is never thrown.  A call on one
    and the same child comes back normally whether or not it is a child; a
    call on two distinct objects comes back normally when both are
    children and otherwise throws the error of [getChildIndex], with the
    heap as it was: the index test that follows never fails. *)
Theorem swapChildren_own_error_unreachable this a b h :
  (∀ h', swapChildren this a b h ≠ Throw Error_swapChildren h')
  ∧ ((∃ h', swapChildren this a b h = Ok tt h')
     ∨ swapChildren this a b h = Throw Error_getChildIndex h)
  ∧ ((∃ h', swapChildren this a b h = Ok tt h')
     ↔ a = b ∨ (a ∈ children (obj h this) ∧ b ∈ children (obj h this))).
Proof.
  unfold swapChildren. destruct (decide (a = b)) as [->|Hne].
  { split; [done|]. split; [left; by eexists|]. split; [by left|by eexists]. }
  destruct (decide (a ∈ children (obj h this))) as [Ha|Ha].
  2:{ rewrite (bind_Throw _ _ _ _ _ (getChildIndex_Throw _ _ _ Ha)).
      split; [done|]. split; [by right|]. split; [by intros [? ?]|].
      intros [?|[? ?]]; done. }
  rewrite (bind_Ok _ _ _ _ _ (getChildIndex_Ok _ _ _ Ha)).
  destruct (decide (b ∈ children (obj h this))) as [Hb|Hb].
  2:{ rewrite (bind_Throw _ _ _ _ _ (getChildIndex_Throw _ _ _ Hb)).
      split; [done|]. split; [by right|]. split; [by intros [? ?]|].
      intros [?|[? ?]]; done. }
  rewrite (bind_Ok _ _ _ _ _ (getChildIndex_Ok _ _ _ Hb)).
  destruct (indexOf_lookup _ _ Ha) as [_ Hra]. destruct (indexOf_lookup _ _ Hb) as [_ Hrb].
  destruct (indexOf _ a <? 0) eqn:E1; [apply Z.ltb_lt in E1; lia|].
  destruct (indexOf _ b <? 0) eqn:E2; [apply Z.ltb_lt in E2; lia|]. cbn [orb].
  unfold bind, modify. split; [done|]. split; [left; by eexists|].
  split; [by right|by eexists].
Qed.

(** ** Bounds as a function of the tree *)

#[local] Instance leaf_frame_refl : Reflexive leaf_frame.
Proof. intros h. split; [reflexivity|done]. Qed.

#[local] Instance leaf_frame_trans : Transitive leaf_frame.
Proof.
  intros h1 h2 h3 [Hb12 Hl12] [Hb23 Hl23]. split; [by etrans|].
  intros x Hx. rewrite Hl23, Hl12; [done..|].
  by rewrite (bounds_frame_class _ _ _ Hb12).
Qed.

Lemma extent_unfold h r ts :
  extent h (Node r ts)
  = if reports h ts is [] then Rectangle.EMPTY
    else rect_of (foldl bounds_step bounds_init (reports h ts)).
Proof. reflexivity. Qed.

Lemma reports_cons h t ts :
  reports h (t :: ts)
  = if visible (obj h (root t))
    then match class (obj h (root t)) with
         | Container => extent h t
         | Subclass => _bounds (obj h (root t))
         end :: reports h ts
    else reports h ts.
Proof. unfold reports. cbn [omap list_omap]. by destruct (visible _). Qed.

Lemma extent_frame h h' t : leaf_frame h h' → extent h' t = extent h t.
Proof.
  intros [Hb Hl]. induction t as [r ts IH] using tree_ind'. rewrite !extent_unfold.
  assert (Hrs : reports h' ts = reports h ts).
  { induction IH as [|t ts Ht _ IHts]; [done|]. rewrite !reports_cons, IHts, Ht.
    rewrite (bounds_frame_visible _ _ _ Hb), (bounds_frame_class _ _ _ Hb).
    destruct (class (obj h (root t))) eqn:Hc; [done|]. by rewrite (Hl _ Hc). }
  by rewrite Hrs.
Qed.

Lemma reports_frame h h' ts : leaf_frame h h' → reports h' ts = reports h ts.
Proof.
  intros Hf. destruct Hf as [Hb Hl] eqn:E. clear E.
  induction ts as [|t ts IH]; [done|]. rewrite !reports_cons, IH.
  rewrite (extent_frame h h' t) by done.
  rewrite (bounds_frame_visible _ _ _ Hb), (bounds_frame_class _ _ _ Hb).
  destruct (class (obj h (root t))) eqn:Hc; [done|]. by rewrite (Hl _ Hc).
Qed.

Lemma leaf_frame_set_bounds h r v :
  class (obj h r) = Container → leaf_frame h (upd r (set_bounds v) h).
Proof.
  intros Hc. split.
  - intros x. rewrite obj_upd. by destruct (decide (x = r)) as [->|].
  - intros x Hx. rewrite obj_upd_ne; [done|]. intros ->. congruence.
Qed.

Lemma child_bounds_reports fuel ts :
  Forall (λ t, ∀ fuel h, shape (kids h) t → (depth t ≤ fuel)%nat →
                 class (obj h (root t)) = Container →
                 ∃ h', getBounds fuel (root t) h = Ok (extent_ref h t) h'
                       ∧ rect h' (extent_ref h t) = extent h t
                       ∧ leaf_frame h h') ts →
  ∀ h, Forall (shape (kids h)) ts → Forall (λ t, (depth t ≤ fuel)%nat) ts →
       ∃ h1, child_bounds fuel (root <$> ts) h = Ok (reports h ts) h1
             ∧ leaf_frame h h1.
Proof.
  induction ts as [|t ts IH]; intros Hall h Hshape Hfuel.
  { exists h. split; [done|reflexivity]. }
  apply Forall_cons in Hall as [Ht Hall]. apply Forall_cons in Hshape as [Hst Hshape].
  apply Forall_cons in Hfuel as [Hft Hfuel].
  rewrite fmap_cons, reports_cons. cbn [child_bounds]. unfold bind at 1, get at 1.
  destruct (visible (obj h (root t))); [|by apply IH].
  assert (Hb : ∃ b h2, child_getBounds fuel (root t) h = Ok b h2
                       ∧ rect h2 b = match class (obj h (root t)) with
                                     | Container => extent h t
                                     | Subclass => _bounds (obj h (root t))
                                     end
                       ∧ leaf_frame h h2).
  { unfold child_getBounds, bind, get. destruct (class (obj h (root t))) eqn:Hc.
    - destruct (Ht fuel h Hst Hft Hc) as (h2 & Hrun & Hrect & Hf). by eexists _, _.
    - exists (bounds_ref (root t)), h. split; [done|]. split; [done|reflexivity]. }
  destruct Hb as (b & h2 & Hb & Hrect & Hf).
  destruct (IH Hall h2) as (h1 & Hrs & Hf1); [|done|].
  { eapply Forall_impl; [exact Hshape|]. intros t'. apply shape_ext.
    intros x _. unfold kids. apply bounds_frame_children. apply Hf. }
  exists h1. split; [|by etrans].
  rewrite (bind_Ok _ _ _ _ _ Hb). unfold bind at 1, deref at 1.
  rewrite (bind_Ok _ _ _ _ _ Hrs). by rewrite Hrect, (reports_frame _ _ _ Hf).
Qed.

Lemma getBounds_extent_tree t fuel h :
  shape (kids h) t → (depth t ≤ fuel)%nat → class (obj h (root t)) = Container →
  ∃ h', getBounds fuel (root t) h = Ok (extent_ref h t) h'
        ∧ rect h' (extent_ref h t) = extent h t
        ∧ leaf_frame h h'.
Proof.
  revert fuel h. induction t as [r ts IH] using tree_ind'. intros fuel h Hshape Hfuel Hc.
  inversion Hshape as [r' ts' Hr Hts]; subst.
  destruct fuel as [|fuel]; [simpl in Hfuel; lia|].
  apply depth_subtrees in Hfuel.
  destruct (child_bounds_reports fuel ts IH h Hts Hfuel) as (h1 & Hcb & Hf).
  unfold kids in Hr. rewrite <- Hr in Hcb. cbn [root] in *.
  rewrite (getBounds_run _ _ _ _ _ Hcb), extent_unfold. cbn [extent_ref].
  destruct (reports h ts) as [|r0 rs] eqn:Hrs.
  - exists h1. by split.
  - eexists. split; [done|]. split.
    + simpl. by rewrite obj_upd_eq.
    + etrans; [exact Hf|]. apply leaf_frame_set_bounds.
      by rewrite (bounds_frame_class _ _ _ (proj1 Hf)).
Qed.

(** X19: on a finite tree headed by an object of the container class,
    [getBounds] computes a function of the visibility flags and of the
    rectangles of the subclass objects below: the rectangle it returns
    holds [extent], it writes nothing but [_bounds] rectangles of objects
    of the container class, and a second call returns the same rectangle
    object holding the same values. *)
Theorem getBounds_repeatable fuel h t :
  shape (kids h) t → (depth t ≤ fuel)%nat → class (obj h (root t)) = Container →
  ∃ b h' h'',
    getBounds fuel (root t) h = Ok b h'
    ∧ rect h' b = extent h t
    ∧ leaf_frame h h'
    ∧ getBounds fuel (root t) h' = Ok b h''
    ∧ rect h'' b = rect h' b
    ∧ leaf_frame h h''.
Proof.
  intros Hshape Hfuel Hc.
  destruct (getBounds_extent_tree t fuel h Hshape Hfuel Hc) as (h' & Hrun & Hrect & Hf).
  destruct (getBounds_extent_tree t fuel h') as (h'' & Hrun2 & Hrect2 & Hf2).
  { eapply shape_ext; [|exact Hshape]. intros x _. unfold kids.
    apply bounds_frame_children, Hf. }
  { done. }
  { by rewrite (bounds_frame_class _ _ _ (proj1 Hf)). }
  assert (Href : extent_ref h' t = extent_ref h t).
  { destruct t as [r ts]. cbn [extent_ref]. by rewrite (reports_frame _ _ _ Hf). }
  rewrite Href in Hrun2, Hrect2. rewrite (extent_frame _ _ _ Hf) in Hrect2.
  exists (extent_ref h t), h', h''. split; [done|]. split; [done|]. split; [done|].
  split; [done|]. split; [congruence|by etrans].
Qed.

Lemma getBounds_repeatable_witness :
  ∃ h' h'', getBounds 2 1%nat two_visible = Ok (bounds_ref 1%nat) h'
            ∧ rect h' (bounds_ref 1%nat) = Rectangle.mk 0 0 25 25
            ∧ getBounds 2 1%nat h' = Ok (bounds_ref 1%nat) h''
            ∧ rect h'' (bounds_ref 1%nat) = Rectangle.mk 0 0 25 25.
Proof.
  destruct (getBounds_repeatable 2 two_visible (Node 1%nat [Node 2%nat []; Node 3%nat []]))
    as (b & h' & h'' & Hrun & Hrect & _ & Hrun2 & Hrect2 & _).
  - constructor; [reflexivity|]. repeat constructor.
  - simpl. lia.
  - reflexivity.
  - assert (Hb : b = bounds_ref 1%nat).
    { vm_compute in Hrun. by injection Hrun as <- _. }
    subst b. exists h', h''. split; [exact Hrun|].
    assert (Hr : rect h' (bounds_ref 1%nat) = Rectangle.mk 0 0 25 25).
    { rewrite Hrect. reflexivity. }
    split; [exact Hr|]. split; [exact Hrun2|]. by rewrite Hrect2.
Defined.
